(** * Lights Out: the GF(2) solver and verifier of [lights_out.py]

    The Python program works on list objects that it mutates in place
    (rows of the augmented matrix are XORed into each other, the outer
    list has rows swapped, the verifier flips bits of the board it is
    given).  The embedding therefore has two layers:

    - the programs themselves, written in a small state-and-error monad
      [Py] over a store of list objects, line by line as the source has
      them (section "Programs");
    - value-level functions on [list Z] and [list (list Z)] that say what
      each program computes (section "Values"), with one refinement lemma
      per program connecting the two.

    Cells are Python ints, modelled as [Z] with [Z.lxor] for [^]; sizes
    and indices are natural numbers (every index the source computes is
    guarded so that it is non-negative). *)

From stdpp Require Import list.
From Stdlib Require Import ZArith NArith Lia.
From Stdlib Require Ascii String.
Import String.StringSyntax.
Delimit Scope string_scope with string.

Local Open Scope Z_scope.
Local Open Scope nat_scope.

(** ** The store *)

Module Store.

(** A location is an index into the store; allocation appends. *)
Abbreviation loc := nat (only parsing).

(** The two kinds of list the program builds: lists of ints (boards,
    toggle vectors, matrix rows, solutions) and lists of references to
    such lists (the vector collection, the matrix). *)
Inductive obj : Type :=
| IntList (l : list Z)
| RefList (l : list loc).

Abbreviation heap := (list obj).

(** A computation either raises (None: IndexError, TypeError) or returns
    a value and the new store. *)
Definition Py (A : Type) : Type := heap -> option (A * heap).

Definition ret {A} (a : A) : Py A := fun h => Some (a, h).

Definition raise {A} : Py A := fun _ => None.

Definition bind {A B} (m : Py A) (k : A -> Py B) : Py B :=
  fun h => match m h with
           | Some (a, h') => k a h'
           | None => None
           end.

Declare Scope py_scope.
Delimit Scope py_scope with py.
Bind Scope py_scope with Py.
Notation "x <- m ;; k" := (bind m (fun x => k))
  (at level 20, m at level 99, k at level 200) : py_scope.
Notation "m ;; k" := (bind m (fun _ => k))
  (at level 100, k at level 200, right associativity) : py_scope.
Local Open Scope py_scope.

(** Allocation of a fresh list object. *)
Definition new_ints (l : list Z) : Py loc :=
  fun h => Some (length h, h ++ [IntList l]).

Definition new_refs (l : list loc) : Py loc :=
  fun h => Some (length h, h ++ [RefList l]).

(** The current contents of a list object. *)
Definition ints_of (p : loc) : Py (list Z) :=
  fun h => match h !! p with
           | Some (IntList l) => Some (l, h)
           | _ => None
           end.

Definition refs_of (p : loc) : Py (list loc) :=
  fun h => match h !! p with
           | Some (RefList l) => Some (l, h)
           | _ => None
           end.

(** [len(p)] *)
Definition len (p : loc) : Py nat :=
  fun h => match h !! p with
           | Some (IntList l) => Some (length l, h)
           | Some (RefList l) => Some (length l, h)
           | None => None
           end.

(** [p[i]] for a non-negative [i]: IndexError past the end. *)
Definition get_int (p : loc) (i : nat) : Py Z :=
  l <- ints_of p ;;
  match l !! i with
  | Some v => ret v
  | None => raise
  end.

Definition get_ref (p : loc) (i : nat) : Py loc :=
  l <- refs_of p ;;
  match l !! i with
  | Some q => ret q
  | None => raise
  end.

(** [p[-1]]: IndexError on an empty list. *)
Definition last_int (p : loc) : Py Z :=
  l <- ints_of p ;;
  match last l with
  | Some v => ret v
  | None => raise
  end.

(** [p[i] = v] for a non-negative [i]: IndexError past the end. *)
Definition set_int (p : loc) (i : nat) (v : Z) : Py unit :=
  fun h => match h !! p with
           | Some (IntList l) =>
               if decide (i < length l)
               then Some (tt, <[p := IntList (<[i := v]> l)]> h)
               else None
           | _ => None
           end.

Definition set_ref (p : loc) (i : nat) (q : loc) : Py unit :=
  fun h => match h !! p with
           | Some (RefList l) =>
               if decide (i < length l)
               then Some (tt, <[p := RefList (<[i := q]> l)]> h)
               else None
           | _ => None
           end.

(** [p.append(q)] *)
Definition append_ref (p q : loc) : Py unit :=
  fun h => match h !! p with
           | Some (RefList l) => Some (tt, <[p := RefList (l ++ [q])]> h)
           | _ => None
           end.

(** [p[i] ^= v] *)
Definition xor_int (p : loc) (i : nat) (v : Py Z) : Py unit :=
  old <- get_int p i ;;
  x <- v ;;
  set_int p i (Z.lxor old x).

(** Loops.  [range a b] is Python's [range(a, b)]. *)
Definition range (a b : nat) : list nat := seq a (b - a).

(** What a loop body asks for: the next iteration, or to leave the loop
    ([break], or a [return] out of it). *)
Inductive ctl (S : Type) : Type :=
| Next (s : S)
| Break (s : S).
Arguments Next {S} s.
Arguments Break {S} s.

(** A [for] loop that carries the local variables [s] it assigns. *)
Fixpoint for_each {A S} (xs : list A) (body : A -> S -> Py (ctl S)) (s : S)
  : Py S :=
  match xs with
  | [] => ret s
  | x :: xs' =>
      c <- body x s ;;
      match c with
      | Next s' => for_each xs' body s'
      | Break s' => ret s'
      end
  end.

(** A [for] loop run for its effect on the store only. *)
Fixpoint for_ {A} (xs : list A) (body : A -> Py unit) : Py unit :=
  match xs with
  | [] => ret tt
  | x :: xs' => body x ;; for_ xs' body
  end.

(** A list comprehension [[f(x) for x in xs]]. *)
Fixpoint comprehension {A B} (xs : list A) (f : A -> Py B) : Py (list B) :=
  match xs with
  | [] => ret []
  | x :: xs' => y <- f x ;; ys <- comprehension xs' f ;; ret (y :: ys)
  end.

Definition when (b : bool) (m : Py unit) : Py unit :=
  if b then m else ret tt.

End Store.

Import Store.
Local Open Scope py_scope.

(** ** Programs *)

(** [create_vector_representations(n)] *)
Definition create_vector_representations (n : nat) : Py loc :=
  vectors <- new_refs [] ;;
  for_ (range 0 (n * n)) (fun i =>
    vector <- new_ints (replicate (n * n) 0%Z) ;;
    set_int vector i 1%Z ;;
    when (negb (i mod n =? 0)) (set_int vector (i - 1) 1%Z) ;;
    when (negb (i mod n =? n - 1)) (set_int vector (i + 1) 1%Z) ;;
    when (n <=? i) (set_int vector (i - n) 1%Z) ;;
    when (i <? n * (n - 1)) (set_int vector (i + n) 1%Z) ;;
    append_ref vectors vector) ;;
  ret vectors.

(** [create_augmented_matrix(vectors, board)]: every row is a new list
    [vec + [board[i]]]. *)
Definition create_augmented_matrix (vectors board : loc) : Py loc :=
  vs <- refs_of vectors ;;
  rows <- comprehension (imap (fun i vec => (i, vec)) vs) (fun iv =>
    v <- ints_of (snd iv) ;;
    b <- get_int board (fst iv) ;;
    new_ints (v ++ [b])) ;;
  new_refs rows.

(** The pivot search of [gauss_jordan_elimination]: the first row at or
    below [r] with a 1 in column [c]. *)
Definition find_pivot (matrix : loc) (c r rows : nat) : Py (option nat) :=
  for_each (range r rows) (fun i _ =>
    row <- get_ref matrix i ;;
    v <- get_int row c ;;
    if (v =? 1)%Z then ret (Break (Some i)) else ret (Next None)) None.

(** [matrix[r], matrix[pivot] = matrix[pivot], matrix[r]] *)
Definition swap_rows (matrix : loc) (r pivot : nat) : Py unit :=
  a <- get_ref matrix pivot ;;
  b <- get_ref matrix r ;;
  set_ref matrix r a ;;
  set_ref matrix pivot b.

(** The elimination loop of one pivot: XOR row [r] into every other row
    that has a 1 in column [c]. *)
Definition eliminate (matrix : loc) (c r rows cols : nat) : Py unit :=
  for_ (range 0 rows) (fun i =>
    if decide (i = r) then ret tt else
    row_i <- get_ref matrix i ;;
    v <- get_int row_i c ;;
    when (v =? 1)%Z
      (for_ (range 0 cols) (fun j =>
         target <- get_ref matrix i ;;
         xor_int target j (row_r <- get_ref matrix r ;; get_int row_r j)))).

(** [gauss_jordan_elimination(matrix)]: reduces the matrix in place and
    returns the same object. *)
Definition gauss_jordan_elimination (matrix : loc) : Py loc :=
  rows <- len matrix ;;
  row0 <- get_ref matrix 0 ;;
  cols <- len row0 ;;
  for_each (range 0 (cols - 1)) (fun c r =>
    if decide (rows <= r) then ret (Break r) else
    pivot <- find_pivot matrix c r rows ;;
    match pivot with
    | None => ret (Next r)
    | Some p =>
        when (negb (r =? p)) (swap_rows matrix r p) ;;
        eliminate matrix c r rows cols ;;
        ret (Next (r + 1))
    end) 0 ;;
  ret matrix.

(** [is_solvable(matrix)] *)
Definition is_solvable (matrix : loc) : Py bool :=
  rref <- gauss_jordan_elimination matrix ;;
  rows <- refs_of rref ;;
  for_each rows (fun row _ =>
    v <- last_int row ;;
    if (v =? 1)%Z then
      l <- ints_of row ;;
      if forallb (fun val => (val =? 0)%Z) (removelast l)
      then ret (Break false)
      else ret (Next true)
    else ret (Next true)) true.

(** [get_solution(board, n)] *)
Definition get_solution (board : loc) (n : nat) : Py (option loc) :=
  vectors <- create_vector_representations n ;;
  matrix <- create_augmented_matrix vectors board ;;
  ok <- is_solvable matrix ;;
  if negb ok then ret None else
  rref_matrix <- gauss_jordan_elimination matrix ;;
  rows <- refs_of rref_matrix ;;
  sol <- comprehension (take (n * n) rows) last_int ;;
  s <- new_ints sol ;;
  ret (Some s).

(** [board[i] ^= 1] *)
Definition flip (board : loc) (i : nat) : Py unit :=
  xor_int board i (ret 1%Z).

(** [check_solution(board, solution, n)]: flips the board in place. *)
Definition check_solution (board solution : loc) (n : nat) : Py bool :=
  for_ (range 0 (n * n)) (fun i =>
    s <- get_int solution i ;;
    when (s =? 1)%Z
      (flip board i ;;
       when (negb (i mod n =? 0)) (flip board (i - 1)) ;;
       when (negb (i mod n =? n - 1)) (flip board (i + 1)) ;;
       when (n <=? i) (flip board (i - n)) ;;
       when (i <? n * (n - 1)) (flip board (i + n)))) ;;
  b <- ints_of board ;;
  ret (forallb (fun val => (val =? 0)%Z) b).

(** [p[:]]: a new list with the contents of [p]. *)
Definition copy_list (p : loc) : Py loc :=
  l <- ints_of p ;;
  new_ints l.

(** A character of the decoded input line, as its code point. *)
Definition char := N.

Definition hash : char := 35%N.

(** [[1 if c == "#" else 0 for c in user_input]] *)
Definition parse_solution (user_input : list char) : list Z :=
  map (fun c => if (c =? hash)%N then 1%Z else 0%Z) user_input.

(** The code points of an ASCII literal. *)
Definition chars_of (s : String.string) : list char :=
  map Ascii.N_of_ascii (String.list_ascii_of_string s).

(** What the handler sends back for a reply, and whether the session
    loop goes on. *)
Inductive reply : Type :=
| Flag        (* the success payload, then [break] *)
| Incorrect.  (* the incorrect-solution notice, then the next round *)

(** The end of the loop body of [LightsOutHandler.handle], from the parse
    of the input line on, with the verifier it calls as a parameter. *)
Definition handle_reply_with (check : loc -> loc -> nat -> Py bool)
  (board : loc) (n : nat) (user_input : list char) : Py reply :=
  user_solution <- new_ints (parse_solution user_input) ;;
  size <- len user_solution ;;
  ok <- (if size =? n * n
         then copy <- copy_list board ;; check copy user_solution n
         else ret false) ;;
  if ok then ret Flag else ret Incorrect.

Definition handle_reply : loc -> nat -> list char -> Py reply :=
  handle_reply_with check_solution.

(** The other two glyphs of the protocol. *)
Definition dot : char := 46%N.
Definition newline : char := 10%N.

(** [print_board(board, n)]: a cell that is not 0 is shown as [#]. *)
Definition print_board (board : loc) (n : nat) : Py (list char) :=
  for_each (range 0 n) (fun i board_string =>
    row <- for_each (range 0 n) (fun j row =>
             v <- get_int board (i * n + j) ;;
             ret (Next (row ++ [if (v =? 0)%Z then dot else hash]))) [] ;;
    ret (Next (board_string ++ row ++ [newline]))) [].

(** [generate_random_board(n)].  The random source is outside the
    program: [draw k] is what the [k]-th call of [random.randint(0, 1)]
    returns. *)
Definition generate_random_board (draw : nat -> Z) (n : nat) : Py loc :=
  cells <- comprehension (range 0 (n * n)) (fun k => ret (draw k)) ;;
  new_ints cells.

(** What [LightsOutHandler.handle] sends, one constructor for each
    [sendall] of the source. *)
Inductive message : Type :=
| Banner                        (* the welcome text, sent once *)
| BoardHeader                   (* "Lights Out Board:" *)
| BoardText (text : list char)  (* [print_board(board, n)] *)
| Prompt                        (* "Your Solution: " *)
| TimeoutNotice                 (* "Time out. Generating a new board..." *)
| FlagText                      (* the success payload *)
| IncorrectNotice.              (* "Incorrect solution. Generating a new board..." *)

(** The three ways [self.request.recv(1024).strip().decode("utf-8")]
    can end: the socket times out ([socket.timeout], which the handler
    catches); the bytes received are not UTF-8 ([UnicodeDecodeError],
    which nothing catches); or it returns the stripped and decoded
    line. *)
Inductive received : Type :=
| TimedOut
| Undecodable
| Line (user_input : list char).

(** What the world outside gives one turn of the [while] loop: the size
    that [random.randint(15, 25)] returns, the draws of the board, and
    the outcome of the receive.  Failures of the socket itself in
    [sendall] and [recv] are not part of the model. *)
Record round_env : Type := {
  env_n : nat;
  env_draw : nat -> Z;
  env_input : received
}.

(** One turn of the [while True] loop of [LightsOutHandler.handle], with
    the messages sent so far as its state: [Next] for [continue] and for
    the end of the body, [Break] for [break]; the turn raises when the
    decoding of the line does. *)
Definition round (e : round_env) (sent : list message)
  : Py (ctl (list message)) :=
  board <- generate_random_board (env_draw e) (env_n e) ;;
  solution <- get_solution board (env_n e) ;;
  match solution with
  | None => ret (Next sent)
  | Some _ =>
      text <- print_board board (env_n e) ;;
      match env_input e with
      | TimedOut =>
          ret (Next (sent ++ [BoardHeader; BoardText text; Prompt;
                              TimeoutNotice]))
      | Undecodable => raise
      | Line user_input =>
          r <- handle_reply board (env_n e) user_input ;;
          match r with
          | Flag =>
              ret (Break (sent ++ [BoardHeader; BoardText text; Prompt;
                                   FlagText]))
          | Incorrect =>
              ret (Next (sent ++ [BoardHeader; BoardText text; Prompt;
                                  IncorrectNotice]))
          end
      end
  end.

(** [LightsOutHandler.handle] over the turns that [envs] describes: the
    messages sent when the loop is left or the turns are used up. *)
Definition session (envs : list round_env) : Py (list message) :=
  for_each envs round [Banner].

(** The value of the matrix object at [p]: the contents of its rows. *)
Fixpoint rows_value (h : heap) (ls : list loc) : option (list (list Z)) :=
  match ls with
  | [] => Some []
  | l :: ls' =>
      match h !! l, rows_value h ls' with
      | Some (IntList row), Some M => Some (row :: M)
      | _, _ => None
      end
  end.

Definition matrix_value (h : heap) (p : loc) : option (list (list Z)) :=
  match h !! p with
  | Some (RefList ls) => rows_value h ls
  | _ => None
  end.

(** ** Values

    What the programs compute, as functions on the contents of the list
    objects.  Each follows the assignments of its program in order. *)

(** [vector[k] = 1] under a guard. *)
Definition set_one (b : bool) (k : nat) (v : list Z) : list Z :=
  if b then <[k := 1%Z]> v else v.

(** The vector that [create_vector_representations] builds for cell [i]. *)
Definition toggle_vector (n i : nat) : list Z :=
  set_one (i <? n * (n - 1)) (i + n)
    (set_one (n <=? i) (i - n)
      (set_one (negb (i mod n =? n - 1)) (i + 1)
        (set_one (negb (i mod n =? 0)) (i - 1)
          (<[i := 1%Z]> (replicate (n * n) 0%Z))))).

Definition toggle_matrix (n : nat) : list (list Z) :=
  map (toggle_vector n) (seq 0 (n * n)).

(** The rows [vec + [board[i]]] of [create_augmented_matrix]. *)
Definition augment (V : list (list Z)) (board : list Z) : list (list Z) :=
  zip_with (fun v b => v ++ [b]) V board.

(** [row[j]], with 0 standing for a cell that does not exist. *)
Definition cell (row : list Z) (j : nat) : Z := default 0%Z (row !! j).

(** [matrix[i][j]] *)
Definition entry (M : list (list Z)) (i j : nat) : Z := cell (M !!! i) j.

(** The first of the rows [ks] with a 1 in column [c]. *)
Fixpoint first_one (M : list (list Z)) (c : nat) (ks : list nat) : option nat :=
  match ks with
  | [] => None
  | i :: ks' => if (entry M i c =? 1)%Z then Some i else first_one M c ks'
  end.

Definition pivot_of (M : list (list Z)) (c r : nat) : option nat :=
  first_one M c (range r (length M)).

(** [l[r], l[p] = l[p], l[r]] *)
Definition swap {A} (l : list A) (r p : nat) : list A :=
  match l !! p, l !! r with
  | Some a, Some b => <[p := b]> (<[r := a]> l)
  | _, _ => l
  end.

(** [a[j] ^= b[j]] for every column [j] of [a]. *)
Definition xor_row (a b : list Z) : list Z :=
  imap (fun j x => Z.lxor x (cell b j)) a.

(** What the elimination loop does to row [i]: row [r] is XORed into
    every other row with a 1 in column [c]. *)
Definition clear_row (M : list (list Z)) (c r i : nat) (row : list Z)
  : list Z :=
  if decide (i = r) then row
  else if (cell row c =? 1)%Z then xor_row row (M !!! r) else row.

Definition clear_column (M : list (list Z)) (c r : nat) : list (list Z) :=
  imap (clear_row M c r) M.

(** A loop over the positions of a list that has reached position [k]. *)
Definition upto {A} (f : nat -> A -> A) (k : nat) (l : list A) : list A :=
  imap f (take k l) ++ drop k l.

(** The column loop of [gauss_jordan_elimination] from pivot cursor [r]. *)
Fixpoint reduce_from (M : list (list Z)) (cs : list nat) (r : nat)
  : list (list Z) :=
  match cs with
  | [] => M
  | c :: cs' =>
      if decide (length M <= r) then M else
      match pivot_of M c r with
      | None => reduce_from M cs' r
      | Some p =>
          reduce_from
            (clear_column (if r =? p then M else swap M r p) c r) cs' (r + 1)
      end
  end.

Definition reduce (M : list (list Z)) : list (list Z) :=
  reduce_from M (range 0 (length (M !!! 0) - 1)) 0.

(** The row test of [is_solvable]: [row[-1] == 1] and all of [row[:-1]]
    zero. *)
Definition contradiction_row (row : list Z) : bool :=
  (default 0%Z (last row) =? 1)%Z
  && forallb (fun val => (val =? 0)%Z) (removelast row).

Definition consistent (M : list (list Z)) : bool :=
  forallb (fun row => negb (contradiction_row row)) M.

(** What [get_solution] returns for a board. *)
Definition solution_of (board : list Z) (n : nat) : option (list Z) :=
  let R := reduce (augment (toggle_matrix n) board) in
  if consistent R
  then Some (map (fun row => default 0%Z (last row)) (take (n * n) (reduce R)))
  else None.

(** One step of the verifier: the flips for cell [i]. *)
Definition flip_at (k : nat) (b : list Z) : list Z :=
  <[k := Z.lxor (cell b k) 1]> b.

Definition flip_if (g : bool) (k : nat) (b : list Z) : list Z :=
  if g then flip_at k b else b.

Definition press (n i : nat) (b : list Z) : list Z :=
  flip_if (i <? n * (n - 1)) (i + n)
    (flip_if (n <=? i) (i - n)
      (flip_if (negb (i mod n =? n - 1)) (i + 1)
        (flip_if (negb (i mod n =? 0)) (i - 1)
          (flip_at i b)))).

(** The board after the loop of [check_solution] over the cells [ks]. *)
Fixpoint replay (n : nat) (sol : list Z) (ks : list nat) (b : list Z)
  : list Z :=
  match ks with
  | [] => b
  | i :: ks' =>
      replay n sol ks' (if (cell sol i =? 1)%Z then press n i b else b)
  end.

Definition all_zero (b : list Z) : bool := forallb (fun val => (val =? 0)%Z) b.

(** ** Vocabulary of the proofs

    The loop bodies of the programs by name, the predicates that relate
    a store to the values it holds, and the notions of linear algebra
    over GF(2) that the theorems are stated with. *)

(** The store after [k] iterations of the loop, started in [h]: the
    collection at [length h], then the [k] vectors. *)
Definition vectors_heap (n : nat) (h : heap) (k : nat) : heap :=
  h ++ RefList (seq (S (length h)) k)
    :: map (fun i => IntList (toggle_vector n i)) (seq 0 k).

(** One iteration of the loop. *)
Definition vectors_body (n : nat) (vectors : loc) (i : nat) : Py unit :=
  vector <- new_ints (replicate (n * n) 0%Z) ;;
  set_int vector i 1%Z ;;
  when (negb (i mod n =? 0)) (set_int vector (i - 1) 1%Z) ;;
  when (negb (i mod n =? n - 1)) (set_int vector (i + 1) 1%Z) ;;
  when (n <=? i) (set_int vector (i - n) 1%Z) ;;
  when (i <? n * (n - 1)) (set_int vector (i + n) 1%Z) ;;
  append_ref vectors vector.

Definition augment_row (board : loc) (iv : nat * loc) : Py loc :=
  v <- ints_of (snd iv) ;;
  b <- get_int board (fst iv) ;;
  new_ints (v ++ [b]).

(** The matrix object at [p]: its rows are the distinct objects [ls],
    whose contents are the rows of [M]. *)
Definition rows_at (h : heap) (ls : list loc) (M : list (list Z)) : Prop :=
  Forall2 (fun l row => h !! l = Some (IntList row)) ls M.

Definition is_matrix (h : heap) (p : loc) (ls : list loc)
  (M : list (list Z)) : Prop :=
  h !! p = Some (RefList ls) /\ NoDup ls /\ rows_at h ls M.

(** Every object but those of [touched] is as it was, and nothing was
    allocated. *)
Definition same_outside (touched : list loc) (h h' : heap) : Prop :=
  length h' = length h /\ forall q, q ∉ touched -> h' !! q = h !! q.

(** All rows have [cols] columns. *)
Definition rect (cols : nat) (M : list (list Z)) : Prop :=
  Forall (fun row => length row = cols) M.

Definition xor_step (b : list Z) (j : nat) (x : Z) : Z := Z.lxor x (cell b j).

Definition xor_body (p : loc) (i r j : nat) : Py unit :=
  target <- get_ref p i ;;
  xor_int target j (row_r <- get_ref p r ;; get_int row_r j).

Definition eliminate_body (p : loc) (c r cols i : nat) : Py unit :=
  if decide (i = r) then ret tt else
  row_i <- get_ref p i ;;
  v <- get_int row_i c ;;
  when (v =? 1)%Z (for_ (range 0 cols) (xor_body p i r)).

(** The matrix the elimination of a pivot at row [q] leaves. *)
Definition pivot_step (M : list (list Z)) (c r q : nat) : list (list Z) :=
  clear_column (if r =? q then M else swap M r q) c r.

Definition column_step (p : loc) (rows cols c r : nat) : Py (ctl nat) :=
  if decide (rows <= r) then ret (Break r) else
  pivot <- find_pivot p c r rows ;;
  match pivot with
  | None => ret (Next r)
  | Some q =>
      when (negb (r =? q)) (swap_rows p r q) ;;
      eliminate p c r rows cols ;;
      ret (Next (r + 1))
  end.

Definition row_test (row : loc) (_ : bool) : Py (ctl bool) :=
  v <- last_int row ;;
  if (v =? 1)%Z then
    l <- ints_of row ;;
    if forallb (fun val => (val =? 0)%Z) (removelast l)
    then ret (Break false)
    else ret (Next true)
  else ret (Next true).

Definition press_body (board solution : loc) (n i : nat) : Py unit :=
  s <- get_int solution i ;;
  when (s =? 1)%Z
    (flip board i ;;
     when (negb (i mod n =? 0)) (flip board (i - 1)) ;;
     when (negb (i mod n =? n - 1)) (flip board (i + 1)) ;;
     when (n <=? i) (flip board (i - n)) ;;
     when (i <? n * (n - 1)) (flip board (i + n))).

(** The two loop bodies of [print_board]. *)
Definition print_cell (board : loc) (n i j : nat) (row : list char)
  : Py (ctl (list char)) :=
  v <- get_int board (i * n + j) ;;
  ret (Next (row ++ [if (v =? 0)%Z then dot else hash])).

Definition print_line (board : loc) (n i : nat) (text : list char)
  : Py (ctl (list char)) :=
  row <- for_each (range 0 n) (print_cell board n i) [] ;;
  ret (Next (text ++ row ++ [newline])).

(** Whether pressing cell [i] flips cell [j]: the guards of the source. *)
Definition toggles (n i j : nat) : bool :=
  (j =? i)
  || (negb (i mod n =? 0) && (j =? i - 1))
  || (negb (i mod n =? n - 1) && (j =? i + 1))
  || ((n <=? i) && (j =? i - n))
  || ((i <? n * (n - 1)) && (j =? i + n)).

(** A truth value as a cell. *)
Definition ind (b : bool) : Z := if b then 1%Z else 0%Z.

(** The XOR of [f 0 ... f (k - 1)]. *)
Fixpoint xsum (f : nat -> Z) (k : nat) : Z :=
  match k with
  | 0 => 0%Z
  | S k' => Z.lxor (xsum f k') (f k')
  end.

(** The product of a GF(2) scalar and a cell. *)
Definition pick (b : bool) (z : Z) : Z := if b then z else 0%Z.

(** An assignment gives every column a truth value, the augmented column
    included.  [ev row x] is the XOR of the cells of [row] in the columns
    that [x] selects: with the augmented column selected, it is 0 exactly
    when [x] satisfies the equation of the row. *)
Definition ev (row : list Z) (x : nat -> bool) : Z :=
  xsum (fun j => pick (x j) (cell row j)) (length row).

Definition sat (M : list (list Z)) (x : nat -> bool) : Prop :=
  forall i row, M !! i = Some row -> ev row x = 0%Z.

Definition bit (z : Z) : Prop := z = 0%Z \/ z = 1%Z.

Definition bits (M : list (list Z)) : Prop := Forall (Forall bit) M.

(** Every cell is 0 or 1, read through [entry]. *)
Definition bit_entries (M : list (list Z)) : Prop :=
  forall i j, bit (entry M i j).

Definition increasing (ps : list nat) : Prop :=
  forall k k' p p',
    k < k' -> ps !! k = Some p -> ps !! k' = Some p' -> p < p'.

(** The state of the elimination before column [c]: row [k] holds the
    pivot of column [ps !! k]; the rows from [length ps] on are zero in
    the columns before [c]. *)
Record echelon (M : list (list Z)) (ps : list nat) (c : nat) : Prop := {
  ech_sorted : increasing ps;
  ech_pivot : forall k p, ps !! k = Some p ->
    p < c /\ entry M k p = 1%Z
    /\ (forall j, j < p -> entry M k j = 0%Z)
    /\ (forall i, i <> k -> entry M i p = 0%Z);
  ech_below : forall i j, length ps <= i -> j < c -> entry M i j = 0%Z;
  ech_rows : length ps <= length M
}.

(** The transposition of [r] and [q]. *)
Definition transpose (r q i : nat) : nat :=
  if decide (i = q) then r else if decide (i = r) then q else i.

(** The guards of the source, by name. *)
Definition has_left (n i : nat) : bool := negb (i mod n =? 0).

Definition has_right (n i : nat) : bool := negb (i mod n =? n - 1).

Definition has_up (n i : nat) : bool := n <=? i.

Definition has_down (n i : nat) : bool := i <? n * (n - 1).

(** Row [i] of the toggle matrix applied to the assignment [x]: the cell
    itself and its left and right neighbours, and the neighbours above
    and below. *)
Definition Hop (n : nat) (x : nat -> bool) (i : nat) : bool :=
  xorb (x i)
    (xorb (has_left n i && x (i - 1)) (has_right n i && x (i + 1))).

Definition Vop (n : nat) (x : nat -> bool) (i : nat) : bool :=
  xorb (has_up n i && x (i - n)) (has_down n i && x (i + n)).

Definition Aop (n : nat) (x : nat -> bool) (i : nat) : bool :=
  xorb (Hop n x i) (Vop n x i).

(** [c] is the last column that [x] selects. *)
Definition top (x : nat -> bool) (c : nat) : Prop :=
  x c = true /\ forall j, c < j -> x j = false.

(** [x] is in the kernel of the toggle matrix. *)
Definition null (n : nat) (x : nat -> bool) : Prop :=
  forall i, i < n * n -> Aop n x i = false.

(** The horizontal part of the operator moves the end of a null vector
    one column to the right. *)
Definition shift (n : nat) (x : nat -> bool) (j : nat) : bool :=
  if j <? n * n then Hop n x j else false.

(** The assignment a candidate solution stands for: the augmented column
    [C] is selected, a coefficient column when its bit is 1. *)
Definition assign (C : nat) (s : list Z) (j : nat) : bool :=
  if j =? C then true else (cell s j =? 1)%Z.

(** The board with the toggle vectors of the selected cells XORed in:
    cell [j] is [board[j]] XOR the sum over GF(2) of [V[i][j]] for the
    [i] with [sol[i] = 1]. *)
Definition toggled (V : list (list Z)) (sol board : list Z) : list Z :=
  imap (fun j b =>
          Z.lxor b (xsum (fun i => pick (cell sol i =? 1)%Z (entry V i j))
                      (length V))) board.

(** The glyph [print_board] shows for a cell. *)
Definition glyph (v : Z) : char := if (v =? 0)%Z then dot else hash.

(** Line [i] of the text [print_board] returns, and the text. *)
Definition render_row (board : list Z) (n i : nat) : list char :=
  map glyph (take n (drop (i * n) board)) ++ [newline].

Definition render (board : list Z) (n : nat) : list char :=
  concat (map (render_row board n) (seq 0 n)).

(** The position of [j] in [ps]. *)
Fixpoint index_of (j : nat) (ps : list nat) : option nat :=
  match ps with
  | [] => None
  | p :: ps' => if p =? j then Some 0 else S <$> index_of j ps'
  end.

(** The solution of a reduced system with pivot columns [ps] and
    augmented column [C] in which the columns without a pivot are 0. *)
Definition particular (R : list (list Z)) (ps : list nat) (C : nat)
  : list Z :=
  map (fun j => match index_of j ps with
                | Some k => entry R k C
                | None => 0%Z
                end) (seq 0 C).

(** The submitted line is a solution of the board. *)
Definition solves (n : nat) (board : list Z) (user_input : list char)
  : Prop :=
  length user_input = n * n
  /\ replay n (parse_solution user_input) (range 0 (n * n)) board
     = replicate (n * n) 0%Z.

(** What the handler sends for a board before it reads the reply. *)
Definition shown (board : list Z) (n : nat) : list message :=
  [BoardHeader; BoardText (render board n); Prompt].

(** The cells [generate_random_board] draws. *)
Definition drawn (draw : nat -> Z) (n : nat) : list Z :=
  map draw (seq 0 (n * n)).

(** [get_solution] on a board given by its contents, in an otherwise empty
    store, with the solution read back. *)
Definition solve (board : list Z) (n : nat) : option (option (list Z)) :=
  match (b <- new_ints board ;;
         r <- get_solution b n ;;
         match r with
         | None => ret None
         | Some s => l <- ints_of s ;; ret (Some l)
         end) [] with
  | Some (r, _) => Some r
  | None => None
  end.

(** ** Running programs on a store *)

Section Run.

Lemma cell_lookup (row : list Z) j x : row !! j = Some x -> cell row j = x.
Proof. intros E. unfold cell. by rewrite E. Qed.

Lemma cell_ge (row : list Z) j : length row <= j -> cell row j = 0%Z.
Proof. intros Hj. unfold cell. by rewrite lookup_ge_None_2. Qed.

Lemma run_bind {A B} (m : Py A) (k : A -> Py B) h a h1 :
  m h = Some (a, h1) -> (x <- m ;; k x) h = k a h1.
Proof. intros E. unfold bind. now rewrite E. Qed.

Lemma run_bind_assoc {A B C} (m : Py A) (k : A -> Py B) (k' : B -> Py C) h :
  (y <- (x <- m ;; k x) ;; k' y) h = (x <- m ;; y <- k x ;; k' y) h.
Proof. unfold bind. by destruct (m h) as [[a h1]|]. Qed.

Lemma run_bind_inv {A B} (m : Py A) (k : A -> Py B) h r :
  (x <- m ;; k x) h = Some r ->
  exists a h1, m h = Some (a, h1) /\ k a h1 = Some r.
Proof.
  unfold bind. destruct (m h) as [[a h1]|] eqn:E; [|discriminate].
  intros Hk. exists a, h1. auto.
Qed.

Lemma ints_of_run (h : heap) p l :
  h !! p = Some (IntList l) -> ints_of p h = Some (l, h).
Proof. intros E. unfold ints_of. now rewrite E. Qed.

Lemma refs_of_run (h : heap) p l :
  h !! p = Some (RefList l) -> refs_of p h = Some (l, h).
Proof. intros E. unfold refs_of. now rewrite E. Qed.

Lemma len_refs_run (h : heap) p l :
  h !! p = Some (RefList l) -> len p h = Some (length l, h).
Proof. intros E. unfold len. now rewrite E. Qed.

Lemma len_ints_run (h : heap) p l :
  h !! p = Some (IntList l) -> len p h = Some (length l, h).
Proof. intros E. unfold len. now rewrite E. Qed.

Lemma get_int_run (h : heap) p l i v :
  h !! p = Some (IntList l) -> l !! i = Some v -> get_int p i h = Some (v, h).
Proof.
  intros E Ei. unfold get_int. rewrite (run_bind _ _ _ _ _ (ints_of_run _ _ _ E)).
  now rewrite Ei.
Qed.

Lemma get_ref_run (h : heap) p l i q :
  h !! p = Some (RefList l) -> l !! i = Some q -> get_ref p i h = Some (q, h).
Proof.
  intros E Ei. unfold get_ref. rewrite (run_bind _ _ _ _ _ (refs_of_run _ _ _ E)).
  now rewrite Ei.
Qed.

Lemma last_int_run (h : heap) p l v :
  h !! p = Some (IntList l) -> last l = Some v -> last_int p h = Some (v, h).
Proof.
  intros E El. unfold last_int. rewrite (run_bind _ _ _ _ _ (ints_of_run _ _ _ E)).
  now rewrite El.
Qed.

Lemma set_int_run (h : heap) p l i v :
  h !! p = Some (IntList l) -> i < length l ->
  set_int p i v h = Some (tt, <[p := IntList (<[i := v]> l)]> h).
Proof.
  intros E Hi. unfold set_int. rewrite E. now rewrite decide_True.
Qed.

Lemma set_ref_run (h : heap) p l i q :
  h !! p = Some (RefList l) -> i < length l ->
  set_ref p i q h = Some (tt, <[p := RefList (<[i := q]> l)]> h).
Proof.
  intros E Hi. unfold set_ref. rewrite E. now rewrite decide_True.
Qed.

Lemma append_ref_run (h : heap) p l q :
  h !! p = Some (RefList l) ->
  append_ref p q h = Some (tt, <[p := RefList (l ++ [q])]> h).
Proof. intros E. unfold append_ref. now rewrite E. Qed.

Lemma xor_int_run (h : heap) p l i old (v : Py Z) x :
  h !! p = Some (IntList l) -> l !! i = Some old -> v h = Some (x, h) ->
  xor_int p i v h = Some (tt, <[p := IntList (<[i := Z.lxor old x]> l)]> h).
Proof.
  intros E Ei Ev. unfold xor_int.
  rewrite (run_bind _ _ _ _ _ (get_int_run _ _ _ _ _ E Ei)).
  rewrite (run_bind _ _ _ _ _ Ev).
  apply set_int_run; [done|]. now apply lookup_lt_Some in Ei.
Qed.

(** A list object that was just allocated sits at the end of the store. *)
Lemma lookup_fresh (g : heap) o : (g ++ [o]) !! length g = Some o.
Proof. rewrite lookup_app_r by lia. now rewrite Nat.sub_diag. Qed.

Lemma insert_fresh (g : heap) o o' : <[length g := o']> (g ++ [o]) = g ++ [o'].
Proof.
  rewrite insert_app_r_alt by lia. now rewrite Nat.sub_diag.
Qed.

End Run.

(** ** [create_vector_representations] computes [toggle_matrix] *)

Section Vectors.

Lemma set_one_length b k v : length (set_one b k v) = length v.
Proof. destruct b; simpl; [apply length_insert | done]. Qed.

Lemma set_fresh_run (g : heap) k v x :
  k < length v ->
  set_int (length g) k x (g ++ [IntList v])
  = Some (tt, g ++ [IntList (<[k := x]> v)]).
Proof.
  intros Hk. rewrite (set_int_run _ _ v) by (apply lookup_fresh || done).
  now rewrite insert_fresh.
Qed.

Lemma when_set_fresh_run (g : heap) b k v :
  (b = true -> k < length v) ->
  when b (set_int (length g) k 1%Z) (g ++ [IntList v])
  = Some (tt, g ++ [IntList (set_one b k v)]).
Proof.
  intros Hk. destruct b; simpl; [|done]. apply set_fresh_run. auto.
Qed.

Lemma last_col_succ n i : i < n * n -> i mod n <> n - 1 -> i + 1 < n * n.
Proof.
  intros Hi Hm. destruct (decide (i + 1 < n * n)) as [|Hge]; [done|].
  exfalso. apply Hm.
  assert (Hn : 0 < n) by (destruct n; lia).
  replace i with ((n - 1) + (n - 1) * n) by nia.
  rewrite Nat.Div0.mod_add. apply Nat.mod_small. lia.
Qed.

Lemma vectors_heap_length n h k :
  length (vectors_heap n h k) = length h + 1 + k.
Proof.
  unfold vectors_heap. rewrite length_app. simpl.
  rewrite length_map, length_seq. lia.
Qed.

Lemma vectors_heap_succ n h k tv :
  tv = toggle_vector n k ->
  <[length h := RefList (seq (S (length h)) k ++ [length (vectors_heap n h k)])]>
    (vectors_heap n h k ++ [IntList tv])
  = vectors_heap n h (S k).
Proof.
  intros ->. rewrite vectors_heap_length. unfold vectors_heap.
  rewrite !seq_S, map_app.
  rewrite <- app_assoc. rewrite insert_app_r_alt by lia.
  rewrite Nat.sub_diag. simpl.
  repeat f_equal. lia.
Qed.

Lemma vectors_body_run n h k :
  k < n * n ->
  vectors_body n (length h) k (vectors_heap n h k)
  = Some (tt, vectors_heap n h (S k)).
Proof.
  intros Hk. unfold vectors_body.
  set (G := vectors_heap n h k).
  assert (H0 : length (<[k := 1%Z]> (replicate (n * n) 0%Z)) = n * n)
    by now rewrite length_insert, length_replicate.
  rewrite (run_bind _ _ _ (length G) (G ++ [IntList (replicate (n * n) 0%Z)]))
    by reflexivity.
  erewrite run_bind by (apply set_fresh_run; rewrite length_replicate; lia).
  erewrite run_bind by (apply when_set_fresh_run; intros _; rewrite H0; lia).
  erewrite run_bind.
  2:{ apply when_set_fresh_run. intros Hb. rewrite !set_one_length, H0.
      apply last_col_succ; [lia|].
      apply negb_true_iff, Nat.eqb_neq in Hb. done. }
  erewrite run_bind
    by (apply when_set_fresh_run; intros _; rewrite !set_one_length, H0; lia).
  erewrite run_bind.
  2:{ apply when_set_fresh_run. intros Hb. rewrite !set_one_length, H0.
      apply Nat.ltb_lt in Hb. nia. }
  fold (toggle_vector n k).
  erewrite append_ref_run.
  2:{ unfold G, vectors_heap. rewrite <- app_assoc.
      rewrite lookup_app_r by lia. rewrite Nat.sub_diag. reflexivity. }
  subst G. now rewrite vectors_heap_succ.
Qed.

Lemma vectors_loop_run n h m : forall k,
  k + m <= n * n ->
  for_ (seq k m) (vectors_body n (length h)) (vectors_heap n h k)
  = Some (tt, vectors_heap n h (k + m)).
Proof.
  induction m as [|m IH]; intros k Hk.
  - simpl. now rewrite Nat.add_0_r.
  - cbn [seq for_].
    rewrite (run_bind _ _ _ _ _ (vectors_body_run n h k ltac:(lia))).
    rewrite IH by lia. do 3 f_equal. lia.
Qed.

Lemma create_vector_representations_run n h :
  create_vector_representations n h
  = Some (length h, vectors_heap n h (n * n)).
Proof.
  unfold create_vector_representations.
  rewrite (run_bind _ _ _ (length h) (vectors_heap n h 0)) by reflexivity.
  unfold range. rewrite Nat.sub_0_r.
  change (for_ (seq 0 (n * n)) _) with
    (for_ (seq 0 (n * n)) (vectors_body n (length h))).
  now rewrite (run_bind _ _ _ _ _ (vectors_loop_run n h (n * n) 0 ltac:(lia))).
Qed.

End Vectors.

(** ** [create_augmented_matrix] computes [augment] *)

Section Augment.

Lemma augment_rows_run (g : heap) board b :
  g !! board = Some (IntList b) ->
  forall vs V, Forall2 (fun l v => g !! l = Some (IntList v)) vs V ->
  forall k done, k + length V <= length b ->
  comprehension (imap (fun i vec => (k + i, vec)) vs) (augment_row board)
    (g ++ done)
  = Some (seq (length g + length done) (length vs),
          g ++ done ++ map IntList (zip_with (fun v x => v ++ [x]) V (drop k b))).
Proof.
  intros Hb vs V HV.
  induction HV as [|l v vs V Hl HV IH]; intros k done Hk.
  - simpl. now rewrite app_nil_r.
  - simpl in Hk. rewrite imap_cons. cbn [comprehension].
    destruct (lookup_lt_is_Some_2 b k ltac:(lia)) as [x Hx].
    assert (Hrow : augment_row board (k + 0, l) (g ++ done)
                   = Some (length (g ++ done), (g ++ done) ++ [IntList (v ++ [x])])).
    { unfold augment_row. cbn [fst snd].
      erewrite run_bind
        by (apply ints_of_run; rewrite lookup_app_l by (by eapply lookup_lt_Some);
            exact Hl).
      erewrite run_bind.
      2:{ eapply get_int_run.
          - rewrite lookup_app_l by (by eapply lookup_lt_Some). exact Hb.
          - rewrite Nat.add_0_r. exact Hx. }
      reflexivity. }
    rewrite (run_bind _ _ _ _ _ Hrow).
    rewrite (imap_ext _ (fun i vec => (S k + i, vec)))
      by (intros; simpl; f_equal; lia).
    rewrite <- app_assoc.
    rewrite (run_bind _ _ _ _ _ (IH (S k) (done ++ [IntList (v ++ [x])]) ltac:(lia))).
    unfold ret. rewrite (drop_S _ _ _ Hx). simpl.
    rewrite !length_app. simpl. rewrite <- !app_assoc. simpl.
    replace (length g + (length done + 1)) with (S (length g + length done))
      by lia.
    reflexivity.
Qed.

Lemma create_augmented_matrix_run (g : heap) vectors board vs V b :
  g !! vectors = Some (RefList vs) ->
  Forall2 (fun l v => g !! l = Some (IntList v)) vs V ->
  g !! board = Some (IntList b) ->
  length V <= length b ->
  create_augmented_matrix vectors board g
  = Some (length g + length V,
          g ++ map IntList (augment V b)
            ++ [RefList (seq (length g) (length V))]).
Proof.
  intros Hv HV Hb Hlen. unfold create_augmented_matrix.
  rewrite (run_bind _ _ _ _ _ (refs_of_run _ _ _ Hv)).
  pose proof (augment_rows_run g board b Hb vs V HV 0 [] ltac:(lia)) as Hrows.
  rewrite app_nil_r in Hrows. simpl in Hrows.
  change (comprehension _ _) with
    (comprehension (imap (fun i vec => (i, vec)) vs) (augment_row board)).
  rewrite (run_bind _ _ _ _ _ Hrows).
  unfold new_refs, augment. rewrite length_app, length_map.
  rewrite Nat.add_0_r, (Forall2_length _ _ _ HV).
  rewrite length_zip_with. rewrite <- app_assoc.
  rewrite drop_0. do 2 f_equal. lia.
Qed.

End Augment.

(** ** [gauss_jordan_elimination] computes [reduce], in place *)

Section Upto.
Context {A : Type}.
Implicit Types (f : nat -> A -> A) (l : list A).

Lemma upto_0 f l : upto f 0 l = l.
Proof. reflexivity. Qed.

Lemma upto_all f l k : length l <= k -> upto f k l = imap f l.
Proof.
  intros Hk. unfold upto. rewrite take_ge, drop_ge by lia. apply app_nil_r.
Qed.

Lemma upto_length f l k : length (upto f k l) = length l.
Proof.
  unfold upto. rewrite length_app, length_imap, length_take, length_drop. lia.
Qed.

Lemma upto_S f l k x :
  l !! k = Some x -> upto f (S k) l = <[k := f k x]> (upto f k l).
Proof.
  intros Hx. unfold upto.
  assert (Hk : k < length l) by (by eapply lookup_lt_Some).
  rewrite (take_S_r _ _ _ Hx), imap_app, (drop_S _ _ _ Hx).
  rewrite length_take_le by lia. simpl.
  rewrite insert_app_r_alt by (rewrite length_imap, length_take_le; lia).
  rewrite length_imap, length_take_le, Nat.sub_diag by lia. simpl.
  rewrite <- app_assoc. simpl. now rewrite Nat.add_0_r.
Qed.

Lemma upto_lookup_ge f l k j : k <= j -> upto f k l !! j = l !! j.
Proof.
  intros Hj. unfold upto.
  destruct (decide (k <= length l)).
  - rewrite lookup_app_r by (rewrite length_imap, length_take_le; lia).
    rewrite length_imap, length_take_le, lookup_drop by lia. f_equal. lia.
  - rewrite take_ge, drop_ge, app_nil_r by lia.
    rewrite list_lookup_imap. rewrite !lookup_ge_None_2 by lia. done.
Qed.

Lemma upto_lookup_lt f l k j : j < k -> upto f k l !! j = f j <$> l !! j.
Proof.
  intros Hj. unfold upto.
  destruct (decide (j < length l)).
  - rewrite lookup_app_l by (rewrite length_imap, length_take; lia).
    rewrite list_lookup_imap. by rewrite lookup_take_lt.
  - rewrite (lookup_ge_None_2 l) by lia. simpl.
    apply lookup_ge_None_2.
    rewrite length_app, length_imap, length_take, length_drop. lia.
Qed.

End Upto.

Section Matrix.

Lemma is_matrix_length h p ls M : is_matrix h p ls M -> length ls = length M.
Proof. intros (_ & _ & HM). by eapply Forall2_length. Qed.

Lemma is_matrix_row h p ls M i :
  is_matrix h p ls M -> i < length M ->
  exists l row, ls !! i = Some l /\ M !! i = Some row
                /\ h !! l = Some (IntList row).
Proof.
  intros (_ & _ & HM) Hi.
  destruct (lookup_lt_is_Some_2 M i Hi) as [row Hrow].
  destruct (Forall2_lookup_r _ _ _ _ _ HM Hrow) as (l & Hl & Hh).
  eauto.
Qed.

Lemma is_matrix_not_row h p ls M : is_matrix h p ls M -> p ∉ ls.
Proof.
  intros (Hp & _ & HM) Hin.
  apply list_elem_of_lookup in Hin as [i Hi].
  destruct (Forall2_lookup_l _ _ _ _ _ HM Hi) as (row & _ & Hrow).
  congruence.
Qed.

Lemma same_outside_refl touched h : same_outside touched h h.
Proof. by split. Qed.

Lemma same_outside_trans t1 t2 t3 h1 h2 h3 :
  same_outside t1 h1 h2 -> same_outside t2 h2 h3 ->
  (forall q, q ∈ t1 -> q ∈ t3) -> (forall q, q ∈ t2 -> q ∈ t3) ->
  same_outside t3 h1 h3.
Proof.
  intros [L1 H1] [L2 H2] S1 S2. split; [congruence|].
  intros q Hq. rewrite H2, H1; auto.
Qed.

Lemma same_outside_insert (h : heap) q o : same_outside [q] h (<[q := o]> h).
Proof.
  split; [apply length_insert|].
  intros q' Hq'. apply list_lookup_insert_ne.
  intros ->. apply Hq'. by left.
Qed.

(** Overwriting one row object. *)
Lemma is_matrix_update_row h p ls M i l y :
  is_matrix h p ls M -> ls !! i = Some l ->
  is_matrix (<[l := IntList y]> h) p ls (<[i := y]> M).
Proof.
  intros HM Hl. pose proof (is_matrix_not_row _ _ _ _ HM) as Hp.
  pose proof (is_matrix_length _ _ _ _ HM) as Hlen.
  destruct HM as (Hhp & Hnd & Hrows).
  assert (Hlp : l <> p).
  { intros ->. apply Hp. apply list_elem_of_lookup. eauto. }
  split; [|split; [done|]].
  - rewrite list_lookup_insert_ne by done. done.
  - apply Forall2_same_length_lookup. split.
    { rewrite length_insert. done. }
    intros j l' row' Hl' Hrow'.
    destruct (decide (j = i)) as [->|Hji].
    + assert (l' = l) by congruence. subst l'.
      rewrite list_lookup_insert_eq in Hrow'
        by (rewrite <- Hlen; by eapply lookup_lt_Some).
      injection Hrow' as <-.
      destruct (Forall2_lookup_l _ _ _ _ _ Hrows Hl) as (row & _ & Hrow).
      apply list_lookup_insert_eq. by eapply lookup_lt_Some.
    + rewrite list_lookup_insert_ne in Hrow' by done.
      assert (l' <> l).
      { intros ->. apply Hji. eapply NoDup_lookup; eauto. }
      rewrite list_lookup_insert_ne by done.
      eapply (Forall2_lookup_lr _ _ _ _ _ _ Hrows); eauto.
Qed.

(** *** The pivot search *)

Lemma first_one_run h p ls M c ks :
  is_matrix h p ls M ->
  (forall i, i ∈ ks -> exists row, M !! i = Some row /\ c < length row) ->
  for_each ks (fun i (_ : option nat) =>
    row <- get_ref p i ;;
    v <- get_int row c ;;
    if (v =? 1)%Z then ret (Break (Some i)) else ret (Next None)) None h
  = Some (first_one M c ks, h).
Proof.
  intros HM. induction ks as [|i ks IH]; intros Hks; [done|].
  cbn [for_each first_one].
  destruct (Hks i ltac:(left)) as (row & Hrow & Hc).
  destruct (is_matrix_row _ _ _ _ i HM ltac:(by eapply lookup_lt_Some))
    as (l & row' & Hl & Hrow' & Hh).
  assert (row' = row) by congruence. subst row'.
  destruct (lookup_lt_is_Some_2 row c Hc) as [v Hv].
  assert (Hentry : entry M i c = v).
  { unfold entry. rewrite (list_lookup_total_correct _ _ _ Hrow).
    by apply cell_lookup. }
  rewrite (run_bind _ _ _
             (if (v =? 1)%Z then Break (Some i) else Next None) h).
  2:{ erewrite run_bind by (eapply get_ref_run; [apply HM | exact Hl]).
      erewrite run_bind by (eapply get_int_run; [exact Hh | exact Hv]).
      by destruct (v =? 1)%Z. }
  rewrite Hentry. destruct (v =? 1)%Z; [done|].
  apply IH. intros j Hj. apply Hks. by right.
Qed.

Lemma find_pivot_run h p ls M c r cols :
  is_matrix h p ls M -> rect cols M -> c < cols ->
  find_pivot p c r (length M) h = Some (pivot_of M c r, h).
Proof.
  intros HM Hrect Hc. unfold find_pivot, pivot_of.
  apply (first_one_run h p ls M c _ HM).
  intros i Hi. unfold range in Hi. apply elem_of_seq in Hi.
  destruct (lookup_lt_is_Some_2 M i ltac:(lia)) as [row Hrow].
  exists row. split; [done|].
  unfold rect in Hrect. rewrite Forall_lookup in Hrect.
  rewrite (Hrect _ _ Hrow). done.
Qed.

End Matrix.

(** *** The row swap *)

Section Swap.
Context {A : Type}.
Implicit Types l : list A.

Lemma swap_length l r q : length (swap l r q) = length l.
Proof.
  unfold swap. destruct (l !! q), (l !! r); try done.
  by rewrite !length_insert.
Qed.

(** The rows of the swapped list, by the transposition of [r] and [q]. *)
Lemma swap_lookup l r q i :
  r < length l -> q < length l ->
  swap l r q !! i
  = l !! (if decide (i = q) then r else if decide (i = r) then q else i).
Proof.
  intros Hr Hq. unfold swap.
  destruct (lookup_lt_is_Some_2 l q Hq) as [a Ha].
  destruct (lookup_lt_is_Some_2 l r Hr) as [b Hb].
  rewrite Ha, Hb.
  destruct (decide (i = q)) as [->|Hiq].
  - rewrite list_lookup_insert_eq by (rewrite length_insert; lia). done.
  - rewrite list_lookup_insert_ne by done.
    destruct (decide (i = r)) as [->|Hir].
    + rewrite list_lookup_insert_eq by lia. done.
    + by rewrite list_lookup_insert_ne.
Qed.

Lemma swap_elem_of l r q x :
  r < length l -> q < length l -> x ∈ swap l r q <-> x ∈ l.
Proof.
  intros Hr Hq. rewrite !list_elem_of_lookup. split; intros [i Hi].
  - rewrite swap_lookup in Hi by done. eauto.
  - exists (if decide (i = q) then r else if decide (i = r) then q else i).
    rewrite swap_lookup by done.
    repeat case_decide; subst; try done; congruence.
Qed.

Lemma swap_NoDup l r q :
  r < length l -> q < length l -> NoDup l -> NoDup (swap l r q).
Proof.
  intros Hr Hq. rewrite !NoDup_alt. intros Hnd i j x Hi Hj.
  rewrite swap_lookup in Hi, Hj by done.
  pose proof (Hnd _ _ _ Hi Hj) as E.
  repeat case_decide; subst; congruence.
Qed.

Lemma swap_same l r : swap l r r = l.
Proof.
  unfold swap. destruct (l !! r) as [a|] eqn:E; [|done].
  rewrite list_insert_insert_eq. by apply list_insert_id.
Qed.

End Swap.

Section Elimination.

Lemma swap_rows_at (h : heap) ls M r q :
  r < length M -> q < length M ->
  rows_at h ls M -> rows_at h (swap ls r q) (swap M r q).
Proof.
  intros Hr Hq HM. pose proof (Forall2_length _ _ _ HM) as Hlen.
  apply Forall2_same_length_lookup. split.
  { by rewrite !swap_length. }
  intros i l row Hl Hrow.
  rewrite swap_lookup in Hl by lia. rewrite swap_lookup in Hrow by lia.
  eapply (Forall2_lookup_lr _ _ _ _ _ _ HM); eauto.
Qed.

Lemma rows_at_outer (h : heap) p o ls M :
  p ∉ ls -> rows_at h ls M -> rows_at (<[p := o]> h) ls M.
Proof.
  intros Hp HM. apply Forall2_same_length_lookup. split.
  { by eapply Forall2_length. }
  intros i l row Hl Hrow.
  rewrite list_lookup_insert_ne.
  - eapply (Forall2_lookup_lr _ _ _ _ _ _ HM); eauto.
  - intros ->. apply Hp. apply list_elem_of_lookup. eauto.
Qed.

Lemma swap_rows_run h p ls M r q :
  is_matrix h p ls M -> r < length M -> q < length M ->
  exists h',
    swap_rows p r q h = Some (tt, h')
    /\ is_matrix h' p (swap ls r q) (swap M r q)
    /\ same_outside [p] h h'.
Proof.
  intros HM Hr Hq.
  pose proof (is_matrix_length _ _ _ _ HM) as Hlen.
  pose proof (is_matrix_not_row _ _ _ _ HM) as Hnot.
  destruct HM as (Hp & Hnd & Hrows).
  destruct (lookup_lt_is_Some_2 ls q ltac:(lia)) as [a Ha].
  destruct (lookup_lt_is_Some_2 ls r ltac:(lia)) as [b Hb].
  assert (Hlt : p < length h) by (by eapply lookup_lt_Some).
  exists (<[p := RefList (swap ls r q)]> h).
  split; [|split].
  - unfold swap_rows.
    erewrite run_bind by (eapply get_ref_run; eauto).
    erewrite run_bind by (eapply get_ref_run; eauto).
    erewrite run_bind by (eapply set_ref_run; [eauto | lia]).
    erewrite set_ref_run.
    + rewrite list_insert_insert_eq. unfold swap. by rewrite Ha, Hb.
    + by apply list_lookup_insert_eq.
    + rewrite length_insert. lia.
  - split; [|split].
    + by apply list_lookup_insert_eq.
    + apply swap_NoDup; [lia|lia|done].
    + apply rows_at_outer.
      * intros Hin. apply Hnot. by apply (swap_elem_of ls r q) in Hin; [|lia|lia].
      * by apply swap_rows_at.
  - apply same_outside_insert.
Qed.

(** *** The elimination loop *)

Lemma xor_body_run h p ls i r li lr a b cols k :
  h !! p = Some (RefList ls) -> ls !! i = Some li -> ls !! r = Some lr ->
  li <> lr -> h !! li = Some (IntList a) -> h !! lr = Some (IntList b) ->
  length a = cols -> length b = cols -> k < cols ->
  xor_body p i r k (<[li := IntList (upto (xor_step b) k a)]> h)
  = Some (tt, <[li := IntList (upto (xor_step b) (S k) a)]> h).
Proof.
  intros Hp Hli Hlr Hne Ha Hb La Lb Hk.
  assert (li <> p) by congruence.
  assert (Hlt : li < length h) by (by eapply lookup_lt_Some).
  destruct (lookup_lt_is_Some_2 a k ltac:(lia)) as [x Hx].
  destruct (lookup_lt_is_Some_2 b k ltac:(lia)) as [y Hy].
  unfold xor_body.
  erewrite run_bind
    by (eapply get_ref_run; [rewrite list_lookup_insert_ne by done|]; eauto).
  rewrite (xor_int_run _ li (upto (xor_step b) k a) k x _ y).
  - rewrite list_insert_insert_eq. rewrite (upto_S _ _ _ _ Hx).
    unfold xor_step at 2. by rewrite (cell_lookup _ _ _ Hy).
  - by apply list_lookup_insert_eq.
  - rewrite upto_lookup_ge by lia. exact Hx.
  - erewrite run_bind
      by (eapply get_ref_run; [rewrite list_lookup_insert_ne by done|]; eauto).
    eapply get_int_run; [|exact Hy].
    rewrite list_lookup_insert_ne by done. exact Hb.
Qed.

Lemma xor_loop_run h p ls i r li lr a b cols :
  h !! p = Some (RefList ls) -> ls !! i = Some li -> ls !! r = Some lr ->
  li <> lr -> h !! li = Some (IntList a) -> h !! lr = Some (IntList b) ->
  length a = cols -> length b = cols ->
  for_ (range 0 cols) (xor_body p i r) h
  = Some (tt, <[li := IntList (xor_row a b)]> h).
Proof.
  intros Hp Hli Hlr Hne Ha Hb La Lb.
  assert (Hloop : forall m k, k + m <= cols ->
            for_ (seq k m) (xor_body p i r)
              (<[li := IntList (upto (xor_step b) k a)]> h)
            = Some (tt, <[li := IntList (upto (xor_step b) (k + m) a)]> h)).
  { induction m as [|m IH]; intros k Hk.
    - by rewrite Nat.add_0_r.
    - cbn [seq for_].
      erewrite run_bind by (eapply xor_body_run; eauto; lia).
      rewrite IH by lia. by replace (k + S m) with (S k + m) by lia. }
  specialize (Hloop cols 0 ltac:(lia)).
  rewrite upto_0, (list_insert_id _ _ _ Ha) in Hloop.
  unfold range. rewrite Nat.sub_0_r, Hloop. simpl.
  rewrite upto_all by lia. done.
Qed.

Lemma eliminate_body_run h0 h p ls M c r cols k :
  rect cols M -> c < cols -> r < length M -> k < length M ->
  is_matrix h p ls (upto (clear_row M c r) k M) ->
  same_outside ls h0 h ->
  exists h',
    eliminate_body p c r cols k h = Some (tt, h')
    /\ is_matrix h' p ls (upto (clear_row M c r) (S k) M)
    /\ same_outside ls h0 h'.
Proof.
  intros Hrect Hc Hr Hk HM Hsame.
  destruct (lookup_lt_is_Some_2 M k Hk) as [x Hx].
  destruct (lookup_lt_is_Some_2 M r Hr) as [b Hb].
  rewrite (upto_S _ _ _ _ Hx).
  set (Mk := upto (clear_row M c r) k M) in *.
  assert (Hxk : Mk !! k = Some x) by (unfold Mk; by rewrite upto_lookup_ge).
  assert (Hbk : Mk !! r = Some b).
  { unfold Mk. destruct (decide (r < k)).
    - rewrite upto_lookup_lt, Hb by done. simpl. unfold clear_row.
      by rewrite decide_True.
    - by rewrite upto_lookup_ge by lia. }
  assert (Hkeep : forall y, y = x ->
            exists h', ret tt h = Some (tt, h')
                       /\ is_matrix h' p ls (<[k := y]> Mk)
                       /\ same_outside ls h0 h').
  { intros y ->. exists h. rewrite (list_insert_id _ _ _ Hxk). by split. }
  unfold eliminate_body, clear_row.
  destruct (decide (k = r)) as [->|Hkr]; [by apply Hkeep|].
  pose proof (proj1 (Forall_lookup _ _) Hrect) as Hcols.
  destruct (is_matrix_row _ _ _ _ k HM ltac:(by eapply lookup_lt_Some))
    as (lk & x' & Hlk & Hx' & Hhk).
  destruct (is_matrix_row _ _ _ _ r HM ltac:(by eapply lookup_lt_Some))
    as (lr & b' & Hlr & Hb' & Hhr).
  assert (x' = x) by congruence. assert (b' = b) by congruence. subst x' b'.
  destruct (lookup_lt_is_Some_2 x c ltac:(by rewrite (Hcols _ _ Hx)))
    as [v Hv].
  erewrite run_bind by (eapply get_ref_run; [apply HM | exact Hlk]).
  erewrite run_bind by (eapply get_int_run; [exact Hhk | exact Hv]).
  rewrite (cell_lookup _ _ _ Hv).
  rewrite (list_lookup_total_correct _ _ _ Hb).
  destruct (v =? 1)%Z; [|by apply Hkeep].
  exists (<[lk := IntList (xor_row x b)]> h). split; [|split].
  - simpl. eapply xor_loop_run; eauto.
    + apply HM.
    + intros ->. apply Hkr. destruct HM as (_ & Hnd & _).
      eapply NoDup_lookup; eauto.
  - by apply is_matrix_update_row.
  - eapply same_outside_trans; [exact Hsame | apply same_outside_insert | done |].
    intros q Hq. apply list_elem_of_singleton in Hq as ->.
    apply list_elem_of_lookup. eauto.
Qed.

Lemma eliminate_run h p ls M c r cols :
  is_matrix h p ls M -> rect cols M -> c < cols -> r < length M ->
  exists h',
    eliminate p c r (length M) cols h = Some (tt, h')
    /\ is_matrix h' p ls (clear_column M c r)
    /\ same_outside ls h h'.
Proof.
  intros HM Hrect Hc Hr.
  assert (Hloop : forall m k hk, k + m <= length M ->
            is_matrix hk p ls (upto (clear_row M c r) k M) ->
            same_outside ls h hk ->
            exists h',
              for_ (seq k m) (eliminate_body p c r cols) hk = Some (tt, h')
              /\ is_matrix h' p ls (upto (clear_row M c r) (k + m) M)
              /\ same_outside ls h h').
  { induction m as [|m IH]; intros k hk Hk Hmk Hsame.
    - exists hk. rewrite Nat.add_0_r. by split.
    - cbn [seq for_].
      destruct (eliminate_body_run h hk p ls M c r cols k)
        as (h1 & Hrun & HM1 & Hs1); try done; try lia.
      rewrite (run_bind _ _ _ _ _ Hrun).
      destruct (IH (S k) h1 ltac:(lia) HM1 Hs1) as (h2 & Hrun2 & HM2 & Hs2).
      exists h2. replace (k + S m) with (S k + m) by lia. by split. }
  destruct (Hloop (length M) 0 h ltac:(lia)) as (h' & Hrun & HM' & Hs').
  { by rewrite upto_0. }
  { apply same_outside_refl. }
  exists h'. rewrite upto_all in HM' by (simpl; lia).
  unfold eliminate, range. rewrite Nat.sub_0_r. by split.
Qed.

End Elimination.

(** *** The column loop *)

Section Columns.

Lemma first_one_Some M c ks q :
  first_one M c ks = Some q -> q ∈ ks /\ entry M q c = 1%Z.
Proof.
  induction ks as [|i ks IH]; [done|]. simpl.
  destruct (entry M i c =? 1)%Z eqn:E.
  - intros [= <-]. split; [by left|]. by apply Z.eqb_eq.
  - intros Hq. destruct (IH Hq). split; [by right|done].
Qed.

Lemma first_one_None M c ks :
  first_one M c ks = None -> forall i, i ∈ ks -> entry M i c <> 1%Z.
Proof.
  induction ks as [|i ks IH]; intros Hn j Hj.
  - by apply elem_of_nil in Hj.
  - simpl in Hn. destruct (entry M i c =? 1)%Z eqn:E; [done|].
    apply elem_of_cons in Hj as [->|Hj]; [by apply Z.eqb_neq|by apply IH].
Qed.

Lemma pivot_of_Some M c r q :
  pivot_of M c r = Some q -> r <= q < length M /\ entry M q c = 1%Z.
Proof.
  intros Hq. apply first_one_Some in Hq as [Hin He]. split; [|done].
  unfold range in Hin. apply elem_of_seq in Hin. lia.
Qed.

Lemma pivot_of_None M c r i :
  pivot_of M c r = None -> r <= i < length M -> entry M i c <> 1%Z.
Proof.
  intros Hn Hi. eapply first_one_None; [exact Hn|].
  unfold range. apply elem_of_seq. lia.
Qed.

Lemma xor_row_length a b : length (xor_row a b) = length a.
Proof. apply length_imap. Qed.

Lemma clear_column_length M c r : length (clear_column M c r) = length M.
Proof. apply length_imap. Qed.

Lemma swap_rect cols (M : list (list Z)) r q :
  r < length M -> q < length M -> rect cols M -> rect cols (swap M r q).
Proof.
  intros Hr Hq HM. apply Forall_lookup. intros i row Hi.
  rewrite swap_lookup in Hi by done.
  by eapply (proj1 (Forall_lookup _ _) HM).
Qed.

Lemma clear_column_rect cols M c r :
  rect cols M -> rect cols (clear_column M c r).
Proof.
  intros HM. pose proof (proj1 (Forall_lookup _ _) HM) as Hcols.
  apply Forall_lookup. intros i row Hi.
  unfold clear_column in Hi. rewrite list_lookup_imap in Hi.
  destruct (M !! i) as [x|] eqn:Hx; [|done]. injection Hi as <-.
  unfold clear_row. repeat case_match; rewrite ?xor_row_length; eauto.
Qed.

Lemma pivot_step_length M c r q : length (pivot_step M c r q) = length M.
Proof.
  unfold pivot_step. rewrite clear_column_length.
  destruct (r =? q); [done|apply swap_length].
Qed.

Lemma pivot_step_rect cols M c r q :
  r < length M -> q < length M -> rect cols M -> rect cols (pivot_step M c r q).
Proof.
  intros Hr Hq HM. apply clear_column_rect.
  destruct (r =? q); [done|by apply swap_rect].
Qed.

Lemma reduce_from_length M cs : forall r,
  length (reduce_from M cs r) = length M.
Proof.
  revert M. induction cs as [|c cs IH]; intros M r; [done|]. simpl.
  case_decide; [done|].
  destruct (pivot_of M c r) as [q|]; [|apply IH].
  fold (pivot_step M c r q). by rewrite IH, pivot_step_length.
Qed.

Lemma reduce_from_rect cols M cs : forall r,
  rect cols M -> rect cols (reduce_from M cs r).
Proof.
  revert M. induction cs as [|c cs IH]; intros M r HM; [done|]. simpl.
  case_decide; [done|].
  destruct (pivot_of M c r) as [q|] eqn:Hq; [|by apply IH].
  apply pivot_of_Some in Hq as [Hq _].
  fold (pivot_step M c r q). apply IH. apply pivot_step_rect; [lia|lia|done].
Qed.

Lemma pivot_step_run h p ls M c r q cols :
  is_matrix h p ls M -> rect cols M -> c < cols ->
  r < length M -> q < length M ->
  exists h' ls',
    (when (negb (r =? q)) (swap_rows p r q) ;;
     eliminate p c r (length M) cols) h = Some (tt, h')
    /\ is_matrix h' p ls' (pivot_step M c r q)
    /\ (forall x, x ∈ ls' <-> x ∈ ls)
    /\ same_outside (p :: ls) h h'.
Proof.
  intros HM Hrect Hc Hr Hq.
  pose proof (is_matrix_length _ _ _ _ HM) as Hlen.
  assert (Hswap : exists h1 ls1,
            when (negb (r =? q)) (swap_rows p r q) h = Some (tt, h1)
            /\ is_matrix h1 p ls1 (if r =? q then M else swap M r q)
            /\ (forall x, x ∈ ls1 <-> x ∈ ls)
            /\ same_outside [p] h h1).
  { destruct (r =? q) eqn:E; simpl.
    - exists h, ls. split; [done|]. split; [done|]. split; [done|].
      apply same_outside_refl.
    - destruct (swap_rows_run h p ls M r q HM Hr Hq) as (h1 & Hrun & HM1 & Hs).
      exists h1, (swap ls r q). split; [done|]. split; [done|]. split; [|done].
      intros x. apply swap_elem_of; lia. }
  destruct Hswap as (h1 & ls1 & Hrun1 & HM1 & Hel & Hs1).
  set (M1 := if r =? q then M else swap M r q) in *.
  assert (Hlen1 : length M1 = length M).
  { unfold M1. destruct (r =? q); [done|apply swap_length]. }
  assert (Hrect1 : rect cols M1).
  { unfold M1. destruct (r =? q); [done|by apply swap_rect]. }
  destruct (eliminate_run h1 p ls1 M1 c r cols HM1 Hrect1 Hc ltac:(lia))
    as (h2 & Hrun2 & HM2 & Hs2).
  exists h2, ls1. rewrite (run_bind _ _ _ _ _ Hrun1).
  rewrite <- Hlen1. split; [done|]. split; [done|]. split; [done|].
  eapply same_outside_trans; [exact Hs1 | exact Hs2 | |].
  - intros x Hx. apply list_elem_of_singleton in Hx as ->. by left.
  - intros x Hx. right. by apply Hel.
Qed.

Lemma columns_run p cols rows : forall cs M r h ls,
  is_matrix h p ls M -> rect cols M -> length M = rows ->
  (forall c, c ∈ cs -> c < cols) ->
  exists h' ls' r',
    for_each cs (column_step p rows cols) r h = Some (r', h')
    /\ is_matrix h' p ls' (reduce_from M cs r)
    /\ (forall x, x ∈ ls' <-> x ∈ ls)
    /\ same_outside (p :: ls) h h'.
Proof.
  induction cs as [|c cs IH]; intros M r h ls HM Hrect Hrows Hcs.
  - exists h, ls, r. split; [done|]. split; [done|]. split; [done|].
    apply same_outside_refl.
  - cbn [for_each reduce_from]. unfold column_step at 1.
    subst rows. destruct (decide (length M <= r)) as [Hge|Hlt].
    { exists h, ls, r. split; [done|]. split; [done|]. split; [done|].
      apply same_outside_refl. }
    assert (Hc : c < cols) by (apply Hcs; by left).
    rewrite run_bind_assoc.
    rewrite (run_bind _ _ _ _ _ (find_pivot_run h p ls M c r cols HM Hrect Hc)).
    destruct (pivot_of M c r) as [q|] eqn:Hq.
    + apply pivot_of_Some in Hq as [Hq _].
      fold (pivot_step M c r q).
      destruct (pivot_step_run h p ls M c r q cols HM Hrect Hc)
        as (h1 & ls1 & Hrun1 & HM1 & Hel1 & Hs1); [lia|lia|].
      destruct (IH (pivot_step M c r q) (r + 1) h1 ls1 HM1)
        as (h2 & ls2 & r2 & Hrun2 & HM2 & Hel2 & Hs2).
      { apply pivot_step_rect; [lia|lia|done]. }
      { by rewrite pivot_step_length. }
      { intros c' Hc'. apply Hcs. by right. }
      exists h2, ls2, r2. split; [|split; [done|split]].
      * unfold bind in Hrun1 |- *.
        destruct (when (negb (r =? q)) (swap_rows p r q) h) as [[[] h0]|];
          [|done].
        rewrite Hrun1. exact Hrun2.
      * intros x. by rewrite Hel2, Hel1.
      * eapply same_outside_trans; [exact Hs1 | exact Hs2 | done |].
        intros x Hx. apply elem_of_cons in Hx as [->|Hx]; [by left|].
        right. by apply Hel1.
    + destruct (IH M r h ls HM Hrect eq_refl) as (h2 & ls2 & r2 & Hrun2 & HM2).
      { intros c' Hc'. apply Hcs. by right. }
      exists h2, ls2, r2. by split.
Qed.

Lemma gauss_jordan_elimination_run h p ls M cols :
  is_matrix h p ls M -> M <> [] -> rect cols M ->
  exists h' ls',
    gauss_jordan_elimination p h = Some (p, h')
    /\ is_matrix h' p ls' (reduce M)
    /\ (forall x, x ∈ ls' <-> x ∈ ls)
    /\ same_outside (p :: ls) h h'.
Proof.
  intros HM Hne Hrect.
  pose proof (is_matrix_length _ _ _ _ HM) as Hlen.
  assert (H0 : 0 < length M) by (destruct M; [done|simpl; lia]).
  destruct (is_matrix_row _ _ _ _ 0 HM H0) as (l0 & row0 & Hl0 & Hrow0 & Hh0).
  assert (Hcols : length row0 = cols)
    by (by eapply (proj1 (Forall_lookup _ _) Hrect)).
  destruct (columns_run p cols (length M) (range 0 (cols - 1)) M 0 h ls)
    as (h' & ls' & r' & Hrun & HM' & Hel & Hs); try done.
  { intros c Hc. unfold range in Hc. apply elem_of_seq in Hc. lia. }
  exists h', ls'. split; [|split; [|done]].
  - unfold gauss_jordan_elimination.
    erewrite run_bind by (eapply len_refs_run; apply HM).
    erewrite run_bind by (eapply get_ref_run; [apply HM|exact Hl0]).
    erewrite run_bind by (eapply len_ints_run; exact Hh0).
    rewrite Hlen, Hcols.
    change (for_each _ _ 0) with
      (for_each (range 0 (cols - 1)) (column_step p (length M) cols) 0).
    by rewrite (run_bind _ _ _ _ _ Hrun).
  - unfold reduce. rewrite (list_lookup_total_correct _ _ _ Hrow0), Hcols.
    exact HM'.
Qed.

End Columns.

(** ** [is_solvable] computes [consistent] of the reduced matrix *)

Section Solvable.

Lemma row_tests_run (h : heap) ls M :
  rows_at h ls M -> Forall (fun row => row <> []) M ->
  for_each ls row_test true h = Some (consistent M, h).
Proof.
  intros HM. induction HM as [|l row ls M Hl HM IH]; intros Hne; [done|].
  apply Forall_cons in Hne as [Hrow Hne].
  cbn [for_each]. unfold consistent. cbn [forallb].
  fold (consistent M).
  assert (Hlast : last row = Some (default 0%Z (last row))).
  { destruct (last row) eqn:E; [done|]. by apply last_None in E. }
  unfold row_test at 1, contradiction_row.
  rewrite run_bind_assoc.
  rewrite (run_bind _ _ _ _ _ (last_int_run _ _ _ _ Hl Hlast)).
  destruct (default 0%Z (last row) =? 1)%Z; simpl.
  - rewrite run_bind_assoc.
    rewrite (run_bind _ _ _ _ _ (ints_of_run _ _ _ Hl)).
    destruct (forallb _ (removelast row)); simpl; [done|].
    unfold bind, ret. by apply IH.
  - unfold bind, ret. by apply IH.
Qed.

Lemma is_solvable_run h p ls M cols :
  is_matrix h p ls M -> M <> [] -> rect cols M -> 0 < cols ->
  exists h' ls',
    is_solvable p h = Some (consistent (reduce M), h')
    /\ is_matrix h' p ls' (reduce M)
    /\ (forall x, x ∈ ls' <-> x ∈ ls)
    /\ same_outside (p :: ls) h h'.
Proof.
  intros HM Hne Hrect Hcols.
  destruct (gauss_jordan_elimination_run h p ls M cols HM Hne Hrect)
    as (h' & ls' & Hrun & HM' & Hel & Hs).
  exists h', ls'. split; [|done].
  unfold is_solvable.
  rewrite (run_bind _ _ _ _ _ Hrun).
  erewrite run_bind by (apply refs_of_run; apply HM').
  change (for_each ls' _ true) with (for_each ls' row_test true).
  apply row_tests_run; [apply HM'|].
  eapply Forall_impl; [apply (reduce_from_rect cols); exact Hrect|].
  intros row Hrow ->. simpl in Hrow. lia.
Qed.

End Solvable.

(** ** [check_solution] computes [replay], in place *)

Section Verifier.

Lemma flip_run (h : heap) lb b k :
  lb < length h -> k < length b ->
  flip lb k (<[lb := IntList b]> h)
  = Some (tt, <[lb := IntList (flip_at k b)]> h).
Proof.
  intros Hlb Hk. unfold flip.
  destruct (lookup_lt_is_Some_2 b k Hk) as [v Hv].
  rewrite (xor_int_run _ lb b k v _ 1%Z).
  - rewrite list_insert_insert_eq. unfold flip_at.
    by rewrite (cell_lookup _ _ _ Hv).
  - by apply list_lookup_insert_eq.
  - done.
  - done.
Qed.

Lemma flip_at_length k b : length (flip_at k b) = length b.
Proof. apply length_insert. Qed.

Lemma flip_if_length g k b : length (flip_if g k b) = length b.
Proof. destruct g; [apply flip_at_length|done]. Qed.

Lemma press_length n i b : length (press n i b) = length b.
Proof. unfold press. by rewrite !flip_if_length, flip_at_length. Qed.

Lemma when_flip_run (h : heap) lb b g k :
  lb < length h -> (g = true -> k < length b) ->
  when g (flip lb k) (<[lb := IntList b]> h)
  = Some (tt, <[lb := IntList (flip_if g k b)]> h).
Proof.
  intros Hlb Hk. destruct g; simpl; [|done]. apply flip_run; auto.
Qed.

Lemma press_body_run (h : heap) lb ls sol b n i :
  lb < length h -> lb <> ls -> h !! ls = Some (IntList sol) ->
  length b = n * n -> i < n * n -> i < length sol ->
  press_body lb ls n i (<[lb := IntList b]> h)
  = Some (tt, <[lb := IntList
                       (if (cell sol i =? 1)%Z then press n i b else b)]> h).
Proof.
  intros Hlb Hne Hsol Hb Hi Hil. unfold press_body.
  destruct (lookup_lt_is_Some_2 sol i Hil) as [s Hs].
  erewrite run_bind
    by (eapply get_int_run; [rewrite list_lookup_insert_ne by done|]; eauto).
  rewrite (cell_lookup _ _ _ Hs).
  destruct (s =? 1)%Z; simpl; [|done].
  erewrite run_bind by (apply flip_run; lia).
  erewrite run_bind
    by (apply when_flip_run; [done|]; rewrite flip_at_length; lia).
  erewrite run_bind.
  2:{ apply when_flip_run; [done|].
      rewrite flip_if_length, flip_at_length, Hb. intros Hg.
      apply last_col_succ; [done|].
      by apply negb_true_iff, Nat.eqb_neq in Hg. }
  erewrite run_bind
    by (apply when_flip_run; [done|];
        rewrite !flip_if_length, flip_at_length; lia).
  apply when_flip_run; [done|].
  rewrite !flip_if_length, flip_at_length, Hb. intros Hg.
  apply Nat.ltb_lt in Hg. nia.
Qed.

Lemma replay_length n sol ks : forall b,
  length (replay n sol ks b) = length b.
Proof.
  induction ks as [|i ks IH]; intros b; [done|]. simpl. rewrite IH.
  destruct (cell sol i =? 1)%Z; [apply press_length|done].
Qed.

Lemma check_solution_run (h : heap) lb ls sol b n :
  h !! lb = Some (IntList b) -> h !! ls = Some (IntList sol) -> lb <> ls ->
  length b = n * n -> n * n <= length sol ->
  check_solution lb ls n h
  = Some (all_zero (replay n sol (range 0 (n * n)) b),
          <[lb := IntList (replay n sol (range 0 (n * n)) b)]> h).
Proof.
  intros Hb Hsol Hne Lb Lsol.
  assert (Hlb : lb < length h) by (by eapply lookup_lt_Some).
  assert (Hloop : forall ks b',
            length b' = n * n -> (forall i, i ∈ ks -> i < n * n) ->
            for_ ks (press_body lb ls n) (<[lb := IntList b']> h)
            = Some (tt, <[lb := IntList (replay n sol ks b')]> h)).
  { induction ks as [|i ks IH]; intros b' Lb' Hks; [done|].
    cbn [for_ replay].
    assert (Hi : i < n * n) by (apply Hks; by left).
    erewrite run_bind by (eapply press_body_run; eauto; lia).
    apply IH.
    - destruct (cell sol i =? 1)%Z; [by rewrite press_length|done].
    - intros j Hj. apply Hks. by right. }
  unfold check_solution.
  change (for_ (range 0 (n * n)) _) with
    (for_ (range 0 (n * n)) (press_body lb ls n)).
  specialize (Hloop (range 0 (n * n)) b Lb).
  rewrite (list_insert_id _ _ _ Hb) in Hloop.
  rewrite (run_bind _ _ _ _ _ (Hloop ltac:(
    intros i Hi; unfold range in Hi; apply elem_of_seq in Hi; lia))).
  erewrite run_bind by (apply ints_of_run; by apply list_lookup_insert_eq).
  done.
Qed.

End Verifier.

(** ** [get_solution] computes [solution_of] and leaves the store it was
    given as it found it *)

Section Solver.

Lemma toggle_vector_length n i : length (toggle_vector n i) = n * n.
Proof.
  unfold toggle_vector.
  by rewrite !set_one_length, length_insert, length_replicate.
Qed.

Lemma toggle_matrix_length n : length (toggle_matrix n) = n * n.
Proof. unfold toggle_matrix. by rewrite length_map, length_seq. Qed.

Lemma vectors_heap_old n (h : heap) k q :
  q < length h -> vectors_heap n h k !! q = h !! q.
Proof. intros Hq. unfold vectors_heap. by rewrite lookup_app_l. Qed.

Lemma vectors_heap_collection n (h : heap) k :
  vectors_heap n h k !! length h = Some (RefList (seq (S (length h)) k)).
Proof.
  unfold vectors_heap. rewrite lookup_app_r by lia.
  by rewrite Nat.sub_diag.
Qed.

Lemma vectors_heap_rows n (h : heap) k :
  rows_at (vectors_heap n h k) (seq (S (length h)) k)
    (map (toggle_vector n) (seq 0 k)).
Proof.
  apply Forall2_same_length_lookup. split.
  { by rewrite length_map, !length_seq. }
  intros i l v Hl Hv.
  apply lookup_seq in Hl as [-> Hi].
  rewrite list_lookup_fmap, lookup_seq_lt in Hv by done.
  injection Hv as <-.
  unfold vectors_heap. rewrite lookup_app_r by lia.
  replace (S (length h) + i - length h) with (S i) by lia. simpl.
  rewrite list_lookup_fmap, lookup_seq_lt by done. done.
Qed.

Lemma augment_length V (b : list Z) :
  length V <= length b -> length (augment V b) = length V.
Proof. intros Hb. unfold augment. rewrite length_zip_with. lia. Qed.

Lemma augment_lookup V (b : list Z) i v x :
  V !! i = Some v -> b !! i = Some x -> augment V b !! i = Some (v ++ [x]).
Proof.
  intros Hv Hx. unfold augment. rewrite lookup_zip_with, Hv. simpl.
  by rewrite Hx.
Qed.

Lemma augment_rect n (b : list Z) :
  rect (n * n + 1) (augment (toggle_matrix n) b).
Proof.
  apply Forall_lookup. intros i row Hrow.
  unfold augment in Hrow. apply lookup_zip_with_Some in Hrow
    as (v & x & -> & Hv & Hx).
  unfold toggle_matrix in Hv. rewrite list_lookup_fmap in Hv.
  destruct (seq 0 (n * n) !! i) as [k|]; [|done]. injection Hv as <-.
  rewrite length_app, toggle_vector_length. simpl. lia.
Qed.

(** The matrix object that [create_augmented_matrix] leaves at the end of
    the store. *)
Lemma fresh_matrix (g : heap) (M : list (list Z)) :
  is_matrix (g ++ map IntList M ++ [RefList (seq (length g) (length M))])
    (length g + length M) (seq (length g) (length M)) M.
Proof.
  split; [|split].
  - rewrite app_assoc, lookup_app_r by (rewrite length_app, length_map; lia).
    rewrite length_app, length_map.
    by replace (length g + length M - (length g + length M)) with 0 by lia.
  - apply NoDup_seq.
  - apply Forall2_same_length_lookup. split; [by rewrite length_seq|].
    intros i l row Hl Hrow. apply lookup_seq in Hl as [-> Hi].
    rewrite lookup_app_r by lia.
    rewrite lookup_app_l by (rewrite length_map; lia).
    replace (length g + i - length g) with i by lia.
    by rewrite list_lookup_fmap, Hrow.
Qed.

Lemma last_column_run (h : heap) ls M :
  rows_at h ls M -> Forall (fun row => row <> []) M ->
  comprehension ls last_int h
  = Some (map (fun row => default 0%Z (last row)) M, h).
Proof.
  intros HM. induction HM as [|l row ls M Hl HM IH]; intros Hne; [done|].
  apply Forall_cons in Hne as [Hrow Hne].
  cbn [comprehension].
  assert (Hlast : last row = Some (default 0%Z (last row))).
  { destruct (last row) eqn:E; [done|]. by apply last_None in E. }
  rewrite (run_bind _ _ _ _ _ (last_int_run _ _ _ _ Hl Hlast)).
  by rewrite (run_bind _ _ _ _ _ (IH Hne)).
Qed.

Lemma rect_nonempty cols M :
  0 < cols -> rect cols M -> Forall (fun row => row <> []) M.
Proof.
  intros Hc HM. eapply Forall_impl; [exact HM|].
  intros row Hrow ->. simpl in Hrow. lia.
Qed.

Lemma reduce_length M : length (reduce M) = length M.
Proof. apply reduce_from_length. Qed.

Lemma reduce_rect cols M : rect cols M -> rect cols (reduce M).
Proof. apply reduce_from_rect. Qed.

Lemma get_solution_run (h : heap) lb board n :
  h !! lb = Some (IntList board) -> 0 < n -> n * n <= length board ->
  exists r h',
    get_solution lb n h = Some (r, h')
    /\ (forall q, q < length h -> h' !! q = h !! q)
    /\ match r with
       | None => solution_of board n = None
       | Some l => exists s, solution_of board n = Some s
                             /\ h' !! l = Some (IntList s)
                             /\ length h <= l
       end.
Proof.
  intros Hb Hn Hlen.
  assert (Hlb : lb < length h) by (by eapply lookup_lt_Some).
  set (h1 := vectors_heap n h (n * n)).
  set (M0 := augment (toggle_matrix n) board).
  assert (LM0 : length M0 = n * n).
  { unfold M0. rewrite augment_length; rewrite toggle_matrix_length; lia. }
  assert (L1 : length h1 = length h + 1 + n * n)
    by apply vectors_heap_length.
  set (h2 := h1 ++ map IntList M0 ++ [RefList (seq (length h1) (length M0))]).
  assert (Hold2 : forall q, q < length h -> h2 !! q = h !! q).
  { intros q Hq. unfold h2. rewrite lookup_app_l by lia.
    by apply vectors_heap_old. }
  assert (Haug : create_augmented_matrix (length h) lb h1
                 = Some (length h1 + length M0, h2)).
  { unfold h2, M0. rewrite augment_length
      by (rewrite toggle_matrix_length; lia).
    apply (create_augmented_matrix_run h1 (length h) lb
             (seq (S (length h)) (n * n)) (toggle_matrix n) board).
    - apply vectors_heap_collection.
    - apply vectors_heap_rows.
    - unfold h1. by rewrite vectors_heap_old.
    - by rewrite toggle_matrix_length. }
  pose proof (fresh_matrix h1 M0) as HM2. fold h2 in HM2.
  assert (Hne0 : M0 <> []) by (intros E; rewrite E in LM0; simpl in LM0; nia).
  pose proof (augment_rect n board) as Hrect0. fold M0 in Hrect0.
  destruct (is_solvable_run h2 _ _ M0 (n * n + 1) HM2 Hne0 Hrect0 ltac:(lia))
    as (h3 & ls3 & Hrun3 & HM3 & Hel3 & Hs3).
  assert (Hfresh : forall q, q < length h ->
            q ∉ (length h1 + length M0) :: seq (length h1) (length M0)).
  { intros q Hq Hin. apply elem_of_cons in Hin as [->|Hin]; [lia|].
    apply elem_of_seq in Hin. lia. }
  assert (Hold3 : forall q, q < length h -> h3 !! q = h !! q).
  { intros q Hq. destruct Hs3 as [_ Hs3]. rewrite Hs3 by auto. auto. }
  unfold get_solution.
  rewrite (run_bind _ _ _ _ _ (create_vector_representations_run n h)).
  fold h1. rewrite (run_bind _ _ _ _ _ Haug).
  rewrite (run_bind _ _ _ _ _ Hrun3).
  unfold solution_of. fold M0.
  destruct (consistent (reduce M0)); simpl.
  2:{ exists None, h3. by split. }
  assert (Hne3 : reduce M0 <> []).
  { intros E. pose proof (reduce_length M0) as L. rewrite E, LM0 in L.
    simpl in L. lia. }
  pose proof (reduce_rect _ _ Hrect0) as Hrect3.
  destruct (gauss_jordan_elimination_run h3 _ _ _ _ HM3 Hne3 Hrect3)
    as (h4 & ls4 & Hrun4 & HM4 & Hel4 & Hs4).
  assert (Hold4 : forall q, q < length h -> h4 !! q = h !! q).
  { intros q Hq. destruct Hs4 as [_ Hs4]. rewrite Hs4; [auto|].
    intros Hin. apply (Hfresh q Hq).
    apply elem_of_cons in Hin as [->|Hin]; [by left|].
    right. by apply Hel3. }
  set (R2 := reduce (reduce M0)) in *.
  assert (Hsol : comprehension (take (n * n) ls4) last_int h4
                 = Some (map (fun row => default 0%Z (last row))
                           (take (n * n) R2), h4)).
  { apply last_column_run.
    - apply Forall2_take. apply HM4.
    - apply Forall_take. apply (rect_nonempty (n * n + 1)); [lia|].
      by apply reduce_rect. }
  rewrite (run_bind _ _ _ _ _ Hrun4).
  erewrite run_bind by (apply refs_of_run; apply HM4).
  rewrite (run_bind _ _ _ _ _ Hsol).
  eexists (Some (length h4)), _. split; [reflexivity|]. split.
  - intros q Hq.
    assert (length h4 = length h3) by apply Hs4.
    assert (length h3 = length h2) by apply Hs3.
    assert (length h <= length h2).
    { unfold h2. rewrite length_app. lia. }
    rewrite lookup_app_l by lia. auto.
  - eexists. split; [reflexivity|]. split; [apply lookup_fresh|].
    assert (length h4 = length h3) by apply Hs4.
    assert (length h3 = length h2) by apply Hs3.
    unfold h2 in *. rewrite length_app in *. lia.
Qed.

End Solver.

(** ** The toggle vectors *)

Section Toggles.

Lemma set_one_lookup b k (v : list Z) j x :
  v !! j = Some x ->
  set_one b k v !! j = Some (if b && (j =? k) then 1%Z else x).
Proof.
  intros Hj. destruct b; simpl; [|done].
  destruct (j =? k) eqn:E.
  - apply Nat.eqb_eq in E as ->. apply list_lookup_insert_eq.
    by eapply lookup_lt_Some.
  - apply Nat.eqb_neq in E. by rewrite list_lookup_insert_ne.
Qed.

Lemma toggle_vector_lookup n i j :
  j < n * n -> toggle_vector n i !! j = Some (ind (toggles n i j)).
Proof.
  intros Hj. unfold toggle_vector.
  assert (H0 : <[i := 1%Z]> (replicate (n * n) 0%Z) !! j
               = Some (ind (j =? i))).
  { destruct (j =? i) eqn:E.
    - apply Nat.eqb_eq in E as ->. apply list_lookup_insert_eq.
      by rewrite length_replicate.
    - apply Nat.eqb_neq in E. rewrite list_lookup_insert_ne by done.
      by apply lookup_replicate_2. }
  rewrite (set_one_lookup _ _ _ _ _
            (set_one_lookup _ _ _ _ _
              (set_one_lookup _ _ _ _ _
                (set_one_lookup _ _ _ _ _ H0)))).
  f_equal. unfold toggles, ind.
  destruct (j =? i), (negb (i mod n =? 0)), (j =? i - 1),
    (negb (i mod n =? n - 1)), (j =? i + 1), (n <=? i), (j =? i - n),
    (i <? n * (n - 1)), (j =? i + n); reflexivity.
Qed.

Lemma toggle_vector_cell n i j :
  j < n * n -> cell (toggle_vector n i) j = ind (toggles n i j).
Proof.
  intros Hj. apply cell_lookup. by apply toggle_vector_lookup.
Qed.

(** The last column of a row: [(j + 1) mod n = 0]. *)
Lemma mod_succ_zero n j : 0 < n -> (j + 1) mod n = 0 <-> j mod n = n - 1.
Proof.
  intros Hn.
  pose proof (Nat.div_mod_eq j n) as Hj.
  pose proof (Nat.mod_upper_bound j n ltac:(lia)) as Hlt.
  destruct (decide (j mod n = n - 1)) as [E|E].
  - split; [done|]. intros _.
    replace (j + 1) with (0 + (j / n + 1) * n) by nia.
    rewrite Nat.Div0.mod_add. apply Nat.Div0.mod_0_l.
  - split; [|done]. intros H0. exfalso.
    replace (j + 1) with ((j mod n + 1) + (j / n) * n) in H0 by nia.
    rewrite Nat.Div0.mod_add in H0.
    rewrite Nat.mod_small in H0 by lia. lia.
Qed.

Lemma mod_add_self n i : (i + n) mod n = i mod n.
Proof.
  replace (i + n) with (i + 1 * n) by lia. apply Nat.Div0.mod_add.
Qed.

Lemma mod_sub_self n i : n <= i -> (i - n) mod n = i mod n.
Proof.
  intros Hi. rewrite <- (mod_add_self n (i - n)). f_equal. lia.
Qed.

(** The conditions under which [toggles] holds. *)
Lemma toggles_true n i j :
  toggles n i j = true <->
  j = i
  \/ (i mod n <> 0 /\ j = i - 1)
  \/ (i mod n <> n - 1 /\ j = i + 1)
  \/ (n <= i /\ j = i - n)
  \/ (i < n * (n - 1) /\ j = i + n).
Proof.
  unfold toggles. rewrite !orb_true_iff, !andb_true_iff, !negb_true_iff.
  rewrite !Nat.eqb_eq, !Nat.eqb_neq, Nat.leb_le, Nat.ltb_lt. tauto.
Qed.

Lemma toggles_sym_1 n i j :
  i < n * n -> j < n * n -> toggles n i j = true -> toggles n j i = true.
Proof.
  intros Hi Hj. rewrite !toggles_true.
  assert (Hn : 0 < n) by (destruct n; lia).
  pose proof (mod_succ_zero n) as Hs.
  intros [->|[[Hm ->]|[[Hm ->]|[[Hm ->]|[Hm ->]]]]].
  - by left.
  - right. right. left.
    assert (1 <= i).
    { destruct i; [|lia]. by rewrite Nat.Div0.mod_0_l in Hm. }
    split; [|lia]. rewrite <- Hs by done.
    by replace (i - 1 + 1) with i by lia.
  - right. left. split; [|lia]. by rewrite Hs.
  - right. right. right. right. split; [nia|lia].
  - right. right. right. left. split; lia.
Qed.

Lemma toggles_sym n i j :
  i < n * n -> j < n * n -> toggles n i j = toggles n j i.
Proof.
  intros Hi Hj.
  destruct (toggles n i j) eqn:E1, (toggles n j i) eqn:E2; try done.
  - by rewrite (toggles_sym_1 n i j) in E2.
  - by rewrite (toggles_sym_1 n j i) in E1.
Qed.

End Toggles.

(** ** Linear systems over GF(2) *)

Section Xsum.

Lemma xsum_ext f g k : (forall j, j < k -> f j = g j) -> xsum f k = xsum g k.
Proof.
  induction k as [|k IH]; intros H; [done|]. simpl.
  rewrite IH by (intros; apply H; lia). by rewrite H by lia.
Qed.

Lemma xsum_zero f k : (forall j, j < k -> f j = 0%Z) -> xsum f k = 0%Z.
Proof.
  induction k as [|k IH]; intros H; [done|]. simpl.
  rewrite IH by (intros; apply H; lia). by rewrite H by lia.
Qed.

Lemma lxor_swap a b c d :
  Z.lxor (Z.lxor a b) (Z.lxor c d) = Z.lxor (Z.lxor a c) (Z.lxor b d).
Proof.
  rewrite !Z.lxor_assoc. f_equal.
  rewrite <- !Z.lxor_assoc. f_equal. apply Z.lxor_comm.
Qed.

Lemma xsum_lxor f g k :
  xsum (fun j => Z.lxor (f j) (g j)) k = Z.lxor (xsum f k) (xsum g k).
Proof.
  induction k as [|k IH]; [done|]. simpl. rewrite IH. apply lxor_swap.
Qed.

(** Taking one term out of the sum. *)
Lemma xsum_remove f k a :
  a < k ->
  xsum f k = Z.lxor (f a) (xsum (fun j => if j =? a then 0%Z else f j) k).
Proof.
  induction k as [|k IH]; intros Ha; [lia|]. simpl.
  destruct (decide (a = k)) as [->|Hne].
  - rewrite Nat.eqb_refl, Z.lxor_0_r.
    rewrite (xsum_ext (fun j => if j =? k then 0%Z else f j) f).
    + apply Z.lxor_comm.
    + intros j Hj. by rewrite (proj2 (Nat.eqb_neq j k)) by lia.
  - rewrite IH by lia. rewrite (proj2 (Nat.eqb_neq k a)) by lia.
    by rewrite Z.lxor_assoc.
Qed.

Lemma xsum_single f k a :
  a < k -> (forall j, j < k -> j <> a -> f j = 0%Z) -> xsum f k = f a.
Proof.
  intros Ha H. rewrite (xsum_remove f k a Ha).
  rewrite xsum_zero; [apply Z.lxor_0_r|].
  intros j Hj. destruct (j =? a) eqn:E; [done|].
  apply H; [done|]. by apply Nat.eqb_neq.
Qed.

Lemma xsum_pair f k a b :
  a < k -> b < k -> a <> b ->
  (forall j, j < k -> j <> a -> j <> b -> f j = 0%Z) ->
  xsum f k = Z.lxor (f a) (f b).
Proof.
  intros Ha Hb Hab H. rewrite (xsum_remove f k a Ha). f_equal.
  rewrite (xsum_single _ k b Hb).
  - by rewrite (proj2 (Nat.eqb_neq b a)) by lia.
  - intros j Hj Hjb. destruct (j =? a) eqn:E; [done|].
    apply H; [done| |done]. by apply Nat.eqb_neq.
Qed.

Lemma pick_lxor c u v : pick c (Z.lxor u v) = Z.lxor (pick c u) (pick c v).
Proof. by destruct c. Qed.

Lemma xor_row_cell a b j :
  length a = length b -> cell (xor_row a b) j = Z.lxor (cell a j) (cell b j).
Proof.
  intros Hlen. unfold xor_row.
  destruct (decide (j < length a)) as [Hj|Hj].
  - destruct (lookup_lt_is_Some_2 a j Hj) as [x Hx].
    rewrite (cell_lookup a j x Hx).
    apply cell_lookup. by rewrite list_lookup_imap, Hx.
  - unfold cell.
    rewrite (lookup_ge_None_2 a), (lookup_ge_None_2 b) by lia.
    rewrite (lookup_ge_None_2 (imap _ a)) by (rewrite length_imap; lia).
    done.
Qed.

Lemma ev_xor_row a b x :
  length a = length b -> ev (xor_row a b) x = Z.lxor (ev a x) (ev b x).
Proof.
  intros Hlen. unfold ev. rewrite xor_row_length, <- Hlen, <- xsum_lxor.
  apply xsum_ext. intros j _.
  by rewrite xor_row_cell, pick_lxor.
Qed.

End Xsum.

(** ** Row operations keep the solutions *)

Section RowEquivalence.

Lemma sat_swap M r q x :
  r < length M -> q < length M -> sat (swap M r q) x <-> sat M x.
Proof.
  intros Hr Hq. unfold sat. split; intros H i row Hrow.
  - assert (Hin : row ∈ swap M r q).
    { apply swap_elem_of; [done|done|]. by eapply list_elem_of_lookup_2. }
    apply list_elem_of_lookup in Hin as [k Hk]. eauto.
  - rewrite swap_lookup in Hrow by done. eauto.
Qed.

Lemma sat_clear_column cols M c r x :
  rect cols M -> r < length M -> sat (clear_column M c r) x <-> sat M x.
Proof.
  intros Hrect Hr.
  pose proof (proj1 (Forall_lookup _ _) Hrect) as Hcols.
  destruct (lookup_lt_is_Some_2 M r Hr) as [b Hb].
  assert (Hrow_r : clear_column M c r !! r = Some b).
  { unfold clear_column. rewrite list_lookup_imap, Hb. simpl.
    unfold clear_row. by rewrite decide_True. }
  assert (Hev : forall i row, M !! i = Some row ->
            ev b x = 0%Z -> ev (clear_row M c r i row) x = ev row x).
  { intros i row Hrow Hb0. unfold clear_row.
    repeat case_match; try done.
    rewrite (list_lookup_total_correct _ _ _ Hb).
    rewrite ev_xor_row by (by rewrite (Hcols _ _ Hrow), (Hcols _ _ Hb)).
    rewrite Hb0. apply Z.lxor_0_r. }
  unfold sat. split; intros H i row Hrow.
  - rewrite <- (Hev i row Hrow) by eauto.
    apply (H i). unfold clear_column. by rewrite list_lookup_imap, Hrow.
  - unfold clear_column in Hrow. rewrite list_lookup_imap in Hrow.
    destruct (M !! i) as [row0|] eqn:E; [|done]. injection Hrow as <-.
    rewrite Hev by eauto. eauto.
Qed.

Lemma sat_pivot_step cols M c r q x :
  rect cols M -> r < length M -> q < length M ->
  sat (pivot_step M c r q) x <-> sat M x.
Proof.
  intros Hrect Hr Hq. unfold pivot_step.
  destruct (r =? q).
  - by apply (sat_clear_column cols).
  - rewrite (sat_clear_column cols)
      by (rewrite ?swap_length; try apply swap_rect; done).
    by apply sat_swap.
Qed.

Lemma sat_reduce_from cols cs x : forall M r,
  rect cols M -> sat (reduce_from M cs r) x <-> sat M x.
Proof.
  induction cs as [|c cs IH]; intros M r Hrect; [done|]. simpl.
  case_decide; [done|].
  destruct (pivot_of M c r) as [q|] eqn:Hq; [|by apply IH].
  apply pivot_of_Some in Hq as [Hq _].
  fold (pivot_step M c r q).
  rewrite IH by (apply pivot_step_rect; [lia|lia|done]).
  apply (sat_pivot_step cols); [done|lia|lia].
Qed.

Lemma sat_reduce cols M x : rect cols M -> sat (reduce M) x <-> sat M x.
Proof. apply sat_reduce_from. Qed.

End RowEquivalence.

(** ** The reduced matrix is in reduced row-echelon form *)

Section Echelon.

Lemma bit_lxor a b : bit a -> bit b -> bit (Z.lxor a b).
Proof. intros [->| ->] [->| ->]; compute; auto. Qed.

Lemma bit_not_one a : bit a -> a <> 1%Z -> a = 0%Z.
Proof. by intros [->| ->]. Qed.

Lemma bits_entries M : bits M -> bit_entries M.
Proof.
  intros HM i j. unfold entry, cell.
  destruct (M !! i) as [row|] eqn:Hrow.
  - rewrite (list_lookup_total_correct _ _ _ Hrow).
    destruct (row !! j) as [v|] eqn:Hv; [|by left]. simpl.
    eapply (proj1 (Forall_lookup _ _)); [|exact Hv].
    by eapply (proj1 (Forall_lookup _ _) HM).
  - rewrite list_lookup_total_alt, Hrow. simpl. by left.
Qed.

Lemma entry_ge M i j : length M <= i -> entry M i j = 0%Z.
Proof.
  intros Hi. unfold entry.
  by rewrite list_lookup_total_alt, lookup_ge_None_2.
Qed.

Lemma entry_swap M r q i j :
  r < length M -> q < length M ->
  entry (swap M r q) i j = entry M (transpose r q i) j.
Proof.
  intros Hr Hq. unfold entry.
  by rewrite !list_lookup_total_alt, swap_lookup.
Qed.

Lemma entry_clear_column cols M c r i j :
  rect cols M -> r < length M ->
  entry (clear_column M c r) i j
  = if decide (i = r) then entry M r j
    else if (entry M i c =? 1)%Z then Z.lxor (entry M i j) (entry M r j)
         else entry M i j.
Proof.
  intros Hrect Hr.
  pose proof (proj1 (Forall_lookup _ _) Hrect) as Hcols.
  destruct (decide (i < length M)) as [Hi|Hi].
  - destruct (lookup_lt_is_Some_2 M i Hi) as [row Hrow].
    destruct (lookup_lt_is_Some_2 M r Hr) as [b Hb].
    unfold entry, clear_column.
    rewrite (list_lookup_total_correct (imap _ _) i (clear_row M c r i row))
      by (by rewrite list_lookup_imap, Hrow).
    rewrite (list_lookup_total_correct _ _ _ Hrow).
    rewrite (list_lookup_total_correct _ _ _ Hb).
    unfold clear_row. rewrite (list_lookup_total_correct _ _ _ Hb).
    destruct (decide (i = r)) as [->|Hne].
    + congruence.
    + destruct (cell row c =? 1)%Z; [|done].
      apply xor_row_cell. by rewrite (Hcols _ _ Hrow), (Hcols _ _ Hb).
  - rewrite !(entry_ge _ i) by (rewrite ?clear_column_length; lia).
    rewrite decide_False by lia. done.
Qed.

Lemma pivot_step_swap M c r q :
  pivot_step M c r q = clear_column (swap M r q) c r.
Proof.
  unfold pivot_step. destruct (r =? q) eqn:E; [|done].
  apply Nat.eqb_eq in E as ->. by rewrite swap_same.
Qed.

Lemma entry_pivot_step cols M c r q i j :
  rect cols M -> r < length M -> q < length M ->
  entry (pivot_step M c r q) i j
  = if decide (i = r) then entry M q j
    else if (entry M (transpose r q i) c =? 1)%Z
         then Z.lxor (entry M (transpose r q i) j) (entry M q j)
         else entry M (transpose r q i) j.
Proof.
  intros Hrect Hr Hq. rewrite pivot_step_swap.
  rewrite (entry_clear_column cols)
    by (rewrite ?swap_length; try apply swap_rect; done).
  rewrite !entry_swap by done.
  replace (transpose r q r) with q; [done|].
  unfold transpose. repeat case_decide; congruence.
Qed.

Lemma bit_entries_pivot_step cols M c r q :
  rect cols M -> r < length M -> q < length M ->
  bit_entries M -> bit_entries (pivot_step M c r q).
Proof.
  intros Hrect Hr Hq HM i j. rewrite (entry_pivot_step cols) by done.
  repeat case_match; try apply bit_lxor; apply HM.
Qed.

Lemma bit_entries_reduce_from cols cs : forall M r,
  rect cols M -> bit_entries M -> bit_entries (reduce_from M cs r).
Proof.
  induction cs as [|c cs IH]; intros M r Hrect HM; [done|]. simpl.
  case_decide; [done|].
  destruct (pivot_of M c r) as [q|] eqn:Hq; [|by apply IH].
  apply pivot_of_Some in Hq as [Hq _].
  fold (pivot_step M c r q). apply IH.
  - apply pivot_step_rect; [lia|lia|done].
  - apply (bit_entries_pivot_step cols); [done|lia|lia|done].
Qed.

Lemma echelon_start M : echelon M [] 0.
Proof.
  split.
  - intros k k' p p' _ Hk. by rewrite lookup_nil in Hk.
  - intros k p Hk. by rewrite lookup_nil in Hk.
  - intros i j _ Hj. lia.
  - simpl. lia.
Qed.

(** A column without a pivot. *)
Lemma echelon_skip M ps c :
  echelon M ps c -> bit_entries M ->
  pivot_of M c (length ps) = None ->
  echelon M ps (S c).
Proof.
  intros [Hs Hp Hb Hr] HM Hnone. split; [done| | |done].
  - intros k p Hk. destruct (Hp k p Hk) as (? & ? & ? & ?).
    split; [lia|done].
  - intros i j Hi Hj. destruct (decide (j = c)) as [->|Hne].
    + destruct (decide (i < length M)).
      * apply bit_not_one; [apply HM|].
        apply (pivot_of_None _ _ _ _ Hnone). lia.
      * apply entry_ge. lia.
    + apply Hb; lia.
Qed.

(** A column with its pivot found in row [q]. *)
Lemma echelon_pivot cols M ps c q :
  echelon M ps c -> bit_entries M -> rect cols M ->
  pivot_of M c (length ps) = Some q ->
  echelon (pivot_step M c (length ps) q) (ps ++ [c]) (S c).
Proof.
  intros [Hs Hp Hb Hr] HM Hrect Hq.
  apply pivot_of_Some in Hq as [[Hq1 Hq2] Hq1c].
  set (r := length ps) in *.
  assert (Hrlt : r < length M) by lia.
  (* the swapped row is a row from [r] on *)
  assert (Ht : forall i, r <= i -> r <= transpose r q i).
  { intros i Hi. unfold transpose. repeat case_decide; lia. }
  assert (Htk : forall k, k < r -> transpose r q k = k).
  { intros k Hk. unfold transpose. repeat case_decide; lia. }
  (* columns before [c] are as they were, up to the swap *)
  assert (Hold : forall i j, j < c ->
            entry (pivot_step M c r q) i j = entry M (transpose r q i) j).
  { intros i j Hj. rewrite (entry_pivot_step cols) by done.
    destruct (decide (i = r)) as [->|Hne].
    - replace (transpose r q r) with q; [done|].
      unfold transpose. repeat case_decide; congruence.
    - rewrite (Hb q j) by lia. rewrite Z.lxor_0_r. by case_match. }
  (* column [c] is cleared outside row [r] *)
  assert (Hcol : forall i, i <> r -> entry (pivot_step M c r q) i c = 0%Z).
  { intros i Hi. rewrite (entry_pivot_step cols) by done.
    rewrite decide_False by done.
    destruct (entry M (transpose r q i) c =? 1)%Z eqn:E.
    - apply Z.eqb_eq in E. by rewrite E, Hq1c.
    - apply bit_not_one; [apply HM|]. by apply Z.eqb_neq. }
  assert (Hpiv : entry (pivot_step M c r q) r c = 1%Z).
  { rewrite (entry_pivot_step cols) by done. by rewrite decide_True. }
  split.
  - intros k k' p p' Hkk Hk Hk'.
    assert (k < r) by (apply lookup_lt_Some in Hk';
                       rewrite length_app in Hk'; simpl in Hk'; unfold r; lia).
    rewrite lookup_app_l in Hk by done.
    destruct (decide (k' < r)).
    + rewrite lookup_app_l in Hk' by done. eauto.
    + rewrite lookup_app_r in Hk' by (unfold r in *; lia).
      apply list_lookup_singleton_Some in Hk' as [_ <-].
      by destruct (Hp k p Hk).
  - intros k p Hk. destruct (decide (k < r)) as [Hkr|Hkr].
    + rewrite lookup_app_l in Hk by done.
      destruct (Hp k p Hk) as (Hpc & H1 & H0 & Hother).
      split; [lia|]. split; [|split].
      * by rewrite Hold, Htk.
      * intros j Hj. rewrite Hold, Htk by lia. auto.
      * intros i Hi. rewrite Hold by done.
        apply Hother. unfold transpose. repeat case_decide; lia.
    + rewrite lookup_app_r in Hk by (unfold r in *; lia).
      apply list_lookup_singleton_Some in Hk as [Hk0 <-].
      assert (k = r) by (unfold r in *; lia). subst k.
      split; [lia|]. split; [done|]. split; [|done].
      intros j Hj. rewrite Hold by done. apply Hb; [|done].
      apply Ht. lia.
  - intros i j Hi Hj. rewrite length_app in Hi. simpl in Hi.
    destruct (decide (j = c)) as [->|Hne].
    + apply Hcol. unfold r. lia.
    + rewrite Hold by lia. apply Hb; [|lia]. apply Ht. unfold r. lia.
  - rewrite length_app, pivot_step_length. simpl. unfold r in *. lia.
Qed.

(** With a pivot in every row the remaining columns change nothing. *)
Lemma echelon_full M ps c c' :
  echelon M ps c -> length M <= length ps -> c <= c' -> echelon M ps c'.
Proof.
  intros [Hs Hp Hb Hr] Hfull Hc. split; [done| |  |done].
  - intros k p Hk. destruct (Hp k p Hk) as (? & ? & ? & ?).
    split; [lia|done].
  - intros i j Hi _. apply entry_ge. lia.
Qed.

Lemma reduce_from_echelon cols m : forall c0 M ps,
  echelon M ps c0 -> bit_entries M -> rect cols M ->
  exists ps', echelon (reduce_from M (seq c0 m) (length ps)) ps' (c0 + m).
Proof.
  induction m as [|m IH]; intros c0 M ps He HM Hrect.
  - exists ps. by rewrite Nat.add_0_r.
  - cbn [seq reduce_from].
    destruct (decide (length M <= length ps)) as [Hfull|Hlt].
    { exists ps. apply (echelon_full M ps c0); [done|done|lia]. }
    replace (c0 + S m) with (S c0 + m) by lia.
    destruct (pivot_of M c0 (length ps)) as [q|] eqn:Hq.
    + fold (pivot_step M c0 (length ps) q).
      pose proof (echelon_pivot cols M ps c0 q He HM Hrect Hq) as He'.
      apply pivot_of_Some in Hq as [Hq _].
      replace (length ps + 1) with (length (ps ++ [c0]))
        by (rewrite length_app; simpl; lia).
      apply IH; [done| |].
      * apply (bit_entries_pivot_step cols); [done|lia|lia|done].
      * apply pivot_step_rect; [lia|lia|done].
    + apply IH; [|done|done]. by apply echelon_skip.
Qed.

(** The matrix [reduce] returns, for a matrix of [cols] columns. *)
Lemma reduce_echelon cols M :
  M <> [] -> bit_entries M -> rect cols M ->
  exists ps, echelon (reduce M) ps (cols - 1).
Proof.
  intros Hne HM Hrect. unfold reduce, range.
  destruct M as [|row M']; [done|].
  assert (length row = cols) by (by apply Forall_cons in Hrect as [? _]).
  change ((row :: M') !!! 0) with row. rewrite Nat.sub_0_r.
  replace (length row) with cols by done.
  destruct (reduce_from_echelon cols (cols - 1) 0 (row :: M') []
              (echelon_start _) HM Hrect) as [ps Hps].
  by exists ps.
Qed.

End Echelon.

(** ** Reducing a reduced matrix changes nothing *)

Section Idempotence.

Lemma pivot_of_here M c r :
  r < length M -> entry M r c = 1%Z -> pivot_of M c r = Some r.
Proof.
  intros Hr He. unfold pivot_of, range.
  replace (length M - r) with (S (length M - r - 1)) by lia.
  simpl. by rewrite He.
Qed.

Lemma first_one_none M c ks :
  (forall i, i ∈ ks -> entry M i c <> 1%Z) -> first_one M c ks = None.
Proof.
  induction ks as [|i ks IH]; intros H; [done|]. simpl.
  rewrite (proj2 (Z.eqb_neq _ _)) by (apply H; by left).
  apply IH. intros j Hj. apply H. by right.
Qed.

Lemma pivot_of_none M c r :
  (forall i, r <= i < length M -> entry M i c <> 1%Z) ->
  pivot_of M c r = None.
Proof.
  intros H. apply first_one_none. intros i Hi.
  unfold range in Hi. apply elem_of_seq in Hi. apply H. lia.
Qed.

Lemma clear_column_id M c r :
  (forall i, i <> r -> entry M i c <> 1%Z) -> clear_column M c r = M.
Proof.
  intros H. apply list_eq. intros i. unfold clear_column.
  rewrite list_lookup_imap.
  destruct (M !! i) as [row|] eqn:Hrow; [|done]. simpl. f_equal.
  unfold clear_row. case_decide; [done|].
  specialize (H i ltac:(done)). unfold entry in H.
  rewrite (list_lookup_total_correct _ _ _ Hrow) in H.
  by rewrite (proj2 (Z.eqb_neq _ _)).
Qed.

Lemma reduce_from_fixed M ps C :
  echelon M ps C ->
  forall m c0 ps1 ps2,
    ps = ps1 ++ ps2 ->
    (forall p, p ∈ ps1 -> p < c0) -> (forall p, p ∈ ps2 -> c0 <= p) ->
    c0 + m <= C ->
    reduce_from M (seq c0 m) (length ps1) = M.
Proof.
  intros [Hs Hp Hb Hr].
  induction m as [|m IH]; intros c0 ps1 ps2 Hps H1 H2 Hm; [done|].
  cbn [seq reduce_from]. case_decide as Hlen; [done|].
  set (r := length ps1) in *.
  destruct (decide (c0 ∈ ps2)) as [Hin|Hnin].
  - (* the pivot of this column is in row [r] already *)
    destruct ps2 as [|p ps2']; [by apply elem_of_nil in Hin|].
    assert (p = c0) as ->.
    { apply elem_of_cons in Hin as [->|Hin]; [done|].
      apply list_elem_of_lookup in Hin as [k Hk].
      assert (p < c0); [|specialize (H2 p ltac:(left)); lia].
      apply (Hs r (r + S k)); [lia| |]; subst ps.
      - rewrite lookup_app_r by (unfold r; lia).
        by replace (r - length ps1) with 0 by (unfold r; lia).
      - rewrite lookup_app_r by (unfold r; lia).
        by replace (r + S k - length ps1) with (S k) by (unfold r; lia). }
    assert (Hr0 : ps !! r = Some c0).
    { subst ps. rewrite lookup_app_r by (unfold r; lia).
      by replace (r - length ps1) with 0 by (unfold r; lia). }
    destruct (Hp r c0 Hr0) as (_ & Hone & _ & Hother).
    rewrite pivot_of_here by (done || lia).
    rewrite Nat.eqb_refl.
    rewrite clear_column_id by (intros i Hi; rewrite Hother by done; lia).
    replace (r + 1) with (length (ps1 ++ [c0]))
      by (rewrite length_app; simpl; unfold r; lia).
    apply (IH (S c0) (ps1 ++ [c0]) ps2'); [|  | |lia].
    + subst ps. by rewrite <- app_assoc.
    + intros p Hin'. apply elem_of_app in Hin' as [Hin'|Hin'].
      * specialize (H1 p Hin'). lia.
      * apply list_elem_of_singleton in Hin' as ->. lia.
    + intros p Hin'. apply list_elem_of_lookup in Hin' as [k Hk].
      assert (c0 < p); [|lia].
      apply (Hs r (r + S k)); [lia|done|]. subst ps.
      rewrite lookup_app_r by (unfold r; lia).
      by replace (r + S k - length ps1) with (S k) by (unfold r; lia).
  - (* no pivot in this column *)
    rewrite pivot_of_none.
    + apply (IH (S c0) ps1 ps2); [done| | |lia].
      * intros p Hin'. specialize (H1 p Hin'). lia.
      * intros p Hin'. specialize (H2 p Hin').
        assert (p <> c0) by (by intros ->). lia.
    + intros i Hi.
      destruct (decide (i < length ps)) as [Hi'|Hi'].
      * destruct (lookup_lt_is_Some_2 ps i Hi') as [p Hpi].
        destruct (Hp i p Hpi) as (_ & _ & Hzero & _).
        rewrite Hzero; [lia|].
        assert (Hin' : p ∈ ps2).
        { subst ps. rewrite lookup_app_r in Hpi by (unfold r in *; lia).
          by eapply list_elem_of_lookup_2. }
        specialize (H2 p Hin').
        assert (p <> c0) by (by intros ->). lia.
      * rewrite Hb; lia.
Qed.

Lemma reduce_idempotent cols M :
  M <> [] -> bits M -> rect cols M -> reduce (reduce M) = reduce M.
Proof.
  intros Hne HM Hrect.
  destruct (reduce_echelon cols M Hne (bits_entries _ HM) Hrect) as [ps Hps].
  pose proof (reduce_rect _ _ Hrect) as HrectR.
  pose proof (reduce_length M) as HlenR.
  set (R := reduce M) in *.
  assert (Hcols : length (R !!! 0) = cols).
  { destruct (lookup_lt_is_Some_2 R 0) as [row Hrow].
    - rewrite HlenR. destruct M; [done|simpl; lia].
    - rewrite (list_lookup_total_correct _ _ _ Hrow).
      by eapply (proj1 (Forall_lookup _ _) HrectR). }
  unfold reduce at 1. rewrite Hcols. unfold range. rewrite Nat.sub_0_r.
  apply (reduce_from_fixed R ps (cols - 1) Hps (cols - 1) 0 [] ps);
    [done| |intros; lia|lia].
  intros p Hin. by apply elem_of_nil in Hin.
Qed.

End Idempotence.

(** ** The toggle operator on assignments *)

Section Operator.

Context (n : nat) (Hn : 0 < n).

Lemma has_left_true i : has_left n i = true -> 1 <= i /\ 2 <= n.
Proof.
  unfold has_left. rewrite negb_true_iff, Nat.eqb_neq. intros Hm. split.
  - destruct i; [|lia]. by rewrite Nat.Div0.mod_0_l in Hm.
  - destruct (decide (n = 1)) as [->|]; [|lia].
    by rewrite Nat.mod_1_r in Hm.
Qed.

Lemma has_right_true i : has_right n i = true -> 2 <= n.
Proof.
  unfold has_right. rewrite negb_true_iff, Nat.eqb_neq. intros Hm.
  destruct (decide (n = 1)) as [->|]; [|lia].
  by rewrite Nat.mod_1_r in Hm.
Qed.

Lemma has_right_next i : i < n * n -> has_right n i = true -> i + 1 < n * n.
Proof.
  unfold has_right. rewrite negb_true_iff, Nat.eqb_neq.
  intros. by apply last_col_succ.
Qed.

Lemma has_up_true i : has_up n i = true -> n <= i.
Proof. unfold has_up. by rewrite Nat.leb_le. Qed.

Lemma has_down_true i : has_down n i = true -> i + n < n * n.
Proof. unfold has_down. rewrite Nat.ltb_lt. nia. Qed.

(** The five cells a press flips are distinct. *)
Lemma toggles_xorb i j :
  i < n * n ->
  toggles n i j
  = xorb (j =? i)
      (xorb (has_left n i && (j =? i - 1))
         (xorb (has_right n i && (j =? i + 1))
            (xorb (has_up n i && (j =? i - n))
               (has_down n i && (j =? i + n))))).
Proof.
  intros Hi. unfold toggles.
  fold (has_left n i) (has_right n i) (has_up n i) (has_down n i).
  pose proof (has_left_true i) as Hl.
  pose proof (has_right_true i) as Hr.
  pose proof (has_up_true i) as Hu.
  pose proof (has_down_true i) as Hd.
  destruct (has_left n i), (has_right n i), (has_up n i), (has_down n i);
    try specialize (Hl eq_refl); try specialize (Hr eq_refl);
    try specialize (Hu eq_refl); try specialize (Hd eq_refl);
    cbn [andb orb xorb negb];
    destruct (Nat.eqb_spec j i), (Nat.eqb_spec j (i - 1)),
      (Nat.eqb_spec j (i + 1)), (Nat.eqb_spec j (i - n)),
      (Nat.eqb_spec j (i + n));
    cbn [andb orb xorb negb]; try reflexivity; lia.
Qed.

Lemma ind_xorb a b : ind (xorb a b) = Z.lxor (ind a) (ind b).
Proof. by destruct a, b. Qed.

Lemma pick_ind c a : pick c (ind a) = ind (c && a).
Proof. by destruct c, a. Qed.

(** The sum over one selected column. *)
Lemma xsum_at (x : nat -> bool) g k m :
  (g = true -> k < m) ->
  xsum (fun j => ind (x j && (g && (j =? k)))) m = ind (g && x k).
Proof.
  intros Hk. destruct g; simpl.
  - rewrite (xsum_single _ m k) by
      (auto; intros j _ Hj; rewrite (proj2 (Nat.eqb_neq j k)) by done;
       by rewrite andb_false_r).
    by rewrite Nat.eqb_refl, andb_true_r.
  - apply xsum_zero. intros j _. by rewrite andb_false_r.
Qed.

(** Row [i] of the toggle matrix, applied to [x] as a sum. *)
Lemma toggle_row_sum x i :
  i < n * n ->
  xsum (fun j => pick (x j) (ind (toggles n i j))) (n * n) = ind (Aop n x i).
Proof.
  intros Hi.
  rewrite (xsum_ext _
    (fun j => Z.lxor (ind (x j && (true && (j =? i))))
       (Z.lxor (ind (x j && (has_left n i && (j =? i - 1))))
          (Z.lxor (ind (x j && (has_right n i && (j =? i + 1))))
             (Z.lxor (ind (x j && (has_up n i && (j =? i - n))))
                (ind (x j && (has_down n i && (j =? i + n))))))))).
  2:{ intros j _. rewrite pick_ind, toggles_xorb by done.
      rewrite <- !ind_xorb. f_equal. simpl.
      by destruct (x j). }
  rewrite !xsum_lxor.
  rewrite !xsum_at.
  - unfold Aop, Hop, Vop. rewrite !ind_xorb. simpl.
    rewrite !Z.lxor_assoc. done.
  - intros Hg. apply has_down_true in Hg. lia.
  - intros Hg. apply has_up_true in Hg. lia.
  - by apply has_right_next.
  - intros Hg. lia.
  - done.
Qed.

End Operator.

Section Commutation.

Context (n : nat) (Hn : 0 < n).

Lemma has_left_add i : has_left n (i + n) = has_left n i.
Proof. unfold has_left. by rewrite mod_add_self. Qed.

Lemma has_right_add i : has_right n (i + n) = has_right n i.
Proof. unfold has_right. by rewrite mod_add_self. Qed.

Lemma has_left_sub i : n <= i -> has_left n (i - n) = has_left n i.
Proof. intros Hi. unfold has_left. by rewrite mod_sub_self. Qed.

Lemma has_right_sub i : n <= i -> has_right n (i - n) = has_right n i.
Proof. intros Hi. unfold has_right. by rewrite mod_sub_self. Qed.

Lemma has_up_pred i : has_left n i = true -> has_up n (i - 1) = has_up n i.
Proof.
  unfold has_left, has_up. rewrite negb_true_iff, Nat.eqb_neq. intros Hm.
  assert (i <> n) by (intros ->; by rewrite Nat.Div0.mod_same in Hm).
  destruct (Nat.leb_spec n i), (Nat.leb_spec n (i - 1)); try done; lia.
Qed.

Lemma has_down_pred i :
  has_left n i = true -> has_down n (i - 1) = has_down n i.
Proof.
  unfold has_left, has_down. rewrite negb_true_iff, Nat.eqb_neq. intros Hm.
  assert (i <> n * (n - 1)).
  { intros ->. by rewrite Nat.mul_comm, Nat.Div0.mod_mul in Hm. }
  destruct (Nat.ltb_spec i (n * (n - 1))),
    (Nat.ltb_spec (i - 1) (n * (n - 1))); try done; lia.
Qed.

Lemma has_up_succ i : has_right n i = true -> has_up n (i + 1) = has_up n i.
Proof.
  unfold has_right, has_up. rewrite negb_true_iff, Nat.eqb_neq. intros Hm.
  assert (i <> n - 1) by (intros ->; by rewrite Nat.mod_small in Hm by lia).
  destruct (Nat.leb_spec n i), (Nat.leb_spec n (i + 1)); try done; lia.
Qed.

Lemma has_down_succ i :
  has_right n i = true -> has_down n (i + 1) = has_down n i.
Proof.
  unfold has_right, has_down. rewrite negb_true_iff, Nat.eqb_neq. intros Hm.
  assert (i + 1 <> n * (n - 1)).
  { intros E. apply Hm. apply mod_succ_zero; [done|].
    by rewrite E, Nat.mul_comm, Nat.Div0.mod_mul. }
  destruct (Nat.ltb_spec i (n * (n - 1))),
    (Nat.ltb_spec (i + 1) (n * (n - 1))); try done; lia.
Qed.

Lemma Hop_xorb f g i :
  Hop n (fun k => xorb (f k) (g k)) i = xorb (Hop n f i) (Hop n g i).
Proof.
  unfold Hop. destruct (has_left n i), (has_right n i); simpl;
    destruct (f i), (g i), (f (i - 1)), (g (i - 1)), (f (i + 1)), (g (i + 1));
    reflexivity.
Qed.

(** The horizontal and the vertical part of the operator commute. *)
Lemma Vop_Hop x i : Vop n (Hop n x) i = Hop n (Vop n x) i.
Proof.
  unfold Vop, Hop.
  destruct (has_up n i) eqn:Eu, (has_down n i) eqn:Ed,
    (has_left n i) eqn:El, (has_right n i) eqn:Er;
    cbn [andb];
    rewrite ?has_left_add, ?has_right_add;
    rewrite ?has_left_sub, ?has_right_sub by (by apply has_up_true);
    rewrite ?has_up_pred, ?has_down_pred by done;
    rewrite ?has_up_succ, ?has_down_succ by done;
    rewrite ?Eu, ?Ed, ?El, ?Er; cbn [andb];
    try (assert (n <= i) by (by apply has_up_true));
    try (assert (1 <= i) by (by eapply has_left_true));
    replace (i - 1 - n) with (i - n - 1) by lia;
    replace (i + 1 + n) with (i + n + 1) by lia;
    try (replace (i + 1 - n) with (i - n + 1) by lia);
    try (replace (i - 1 + n) with (i + n - 1) by lia);
    destruct (x (i - n)), (x (i + n)), (x (i - n - 1)), (x (i - n + 1)),
      (x (i + n - 1)), (x (i + n + 1)); reflexivity.
Qed.

End Commutation.

(** ** Null vectors of the toggle operator *)

Section Kernel.

Context (n : nat) (Hn : 0 < n).

Lemma Aop_ext y z i :
  (forall j, j < n * n -> y j = z j) -> i < n * n -> Aop n y i = Aop n z i.
Proof.
  intros H Hi. unfold Aop, Hop, Vop.
  rewrite (H i Hi).
  destruct (has_left n i) eqn:El, (has_right n i) eqn:Er,
    (has_up n i) eqn:Eu, (has_down n i) eqn:Ed; cbn [andb];
    try (assert (i + 1 < n * n) by (by apply has_right_next));
    try (assert (i + n < n * n) by (by apply has_down_true));
    rewrite ?(H (i - 1)), ?(H (i + 1)), ?(H (i - n)), ?(H (i + n)) by lia;
    reflexivity.
Qed.

Lemma Hop_null f i :
  (forall j, j < n * n -> f j = false) -> i < n * n -> Hop n f i = false.
Proof.
  intros H Hi. unfold Hop. rewrite (H i Hi).
  destruct (has_left n i) eqn:El, (has_right n i) eqn:Er; cbn [andb];
    try (assert (i + 1 < n * n) by (by apply has_right_next));
    rewrite ?(H (i - 1)), ?(H (i + 1)) by lia; reflexivity.
Qed.

(** The operator commutes with its horizontal part. *)
Lemma Aop_Hop x i : Aop n (Hop n x) i = Hop n (Aop n x) i.
Proof.
  unfold Aop at 1. rewrite (Vop_Hop n Hn).
  symmetry. apply Hop_xorb.
Qed.

(** A null vector ends in the last row of the board. *)
Lemma null_top_last_row x c : null n x -> top x c -> n * n <= c + n.
Proof.
  intros Hnull [Hc Hafter].
  destruct (decide (n * n <= c + n)) as [|Hlt]; [done|exfalso].
  specialize (Hnull (c + n) ltac:(lia)).
  unfold Aop, Hop, Vop in Hnull.
  rewrite (Hafter (c + n)), (Hafter (c + n + 1)), (Hafter (c + n + n))
    in Hnull by lia.
  replace (c + n - n) with c in Hnull by lia. rewrite Hc in Hnull.
  assert (Hup : has_up n (c + n) = true) by (apply Nat.leb_le; lia).
  rewrite Hup in Hnull.
  destruct (has_left n (c + n)) eqn:El.
  - assert (2 <= n) by (by eapply has_left_true).
    rewrite (Hafter (c + n - 1)) in Hnull by lia.
    by rewrite !andb_false_r in Hnull.
  - by rewrite !andb_false_r in Hnull.
Qed.

Lemma shift_null x : null n x -> null n (shift n x).
Proof.
  intros Hnull i Hi.
  rewrite (Aop_ext (shift n x) (Hop n x)); [|  |done].
  - rewrite Aop_Hop. by apply Hop_null.
  - intros j Hj. unfold shift. by rewrite (proj2 (Nat.ltb_lt _ _)).
Qed.

Lemma shift_top x c :
  null n x -> top x c -> c + 1 < n * n -> top (shift n x) (c + 1).
Proof.
  intros Hnull Htop Hc.
  pose proof (null_top_last_row x c Hnull Htop) as Hlast.
  destruct Htop as [Hxc Hafter]. split.
  - unfold shift. rewrite (proj2 (Nat.ltb_lt _ _)) by done.
    unfold Hop. rewrite (Hafter (c + 1)), (Hafter (c + 1 + 1)) by lia.
    replace (c + 1 - 1) with c by lia. rewrite Hxc.
    assert (Hl : has_left n (c + 1) = true).
    { unfold has_left. apply negb_true_iff, Nat.eqb_neq.
      rewrite (mod_succ_zero n c Hn).
      replace c with ((c - n * (n - 1)) + (n - 1) * n) by nia.
      rewrite Nat.Div0.mod_add, Nat.mod_small by nia. nia. }
    rewrite Hl. by rewrite andb_false_r.
  - intros j Hj. unfold shift. case_match; [|done].
    unfold Hop. rewrite (Hafter j), (Hafter (j - 1)), (Hafter (j + 1)) by lia.
    by rewrite !andb_false_r.
Qed.

(** From the end column of one null vector on, every column is the end
    of a null vector. *)
Lemma null_top_from x c c' :
  null n x -> top x c -> c <= c' -> c' < n * n ->
  exists y, null n y /\ top y c'.
Proof.
  intros Hnull Htop Hle Hlt.
  induction c' as [|c' IH].
  - exists x. by replace c with 0 in Htop by lia.
  - destruct (decide (c = S c')) as [->|Hne]; [by exists x|].
    destruct IH as (y & Hy & Hty); [lia|lia|].
    exists (shift n y). split; [by apply shift_null|].
    replace (S c') with (c' + 1) by lia. apply shift_top; [done|done|lia].
Qed.

End Kernel.

(** ** The equations of the augmented matrix *)

Section Equations.

Lemma pick_zero c : pick c 0%Z = 0%Z.
Proof. by destruct c. Qed.

Lemma ev_entry M i row x :
  M !! i = Some row ->
  ev row x = xsum (fun j => pick (x j) (entry M i j)) (length row).
Proof.
  intros Hrow. unfold ev, entry.
  by rewrite (list_lookup_total_correct _ _ _ Hrow).
Qed.

Lemma ev_app_one v b x :
  ev (v ++ [b]) x = Z.lxor (ev v x) (pick (x (length v)) b).
Proof.
  unfold ev. rewrite length_app. simpl. rewrite Nat.add_1_r. simpl.
  f_equal.
  - apply xsum_ext. intros j Hj. f_equal. unfold cell.
    by rewrite lookup_app_l.
  - f_equal. unfold cell. rewrite lookup_app_r by lia.
    by rewrite Nat.sub_diag.
Qed.

Lemma ev_toggle_vector n x i :
  0 < n -> i < n * n -> ev (toggle_vector n i) x = ind (Aop n x i).
Proof.
  intros Hn Hi. unfold ev. rewrite toggle_vector_length.
  rewrite <- (toggle_row_sum n Hn) by done.
  apply xsum_ext. intros j Hj. by rewrite toggle_vector_cell.
Qed.

Lemma sat_augment n board x :
  0 < n -> length board = n * n ->
  sat (augment (toggle_matrix n) board) x <->
  forall i, i < n * n ->
    Z.lxor (ind (Aop n x i)) (pick (x (n * n)) (cell board i)) = 0%Z.
Proof.
  intros Hn Hlen. unfold sat. split.
  - intros H i Hi.
    destruct (lookup_lt_is_Some_2 board i ltac:(lia)) as [b Hb].
    rewrite (cell_lookup _ _ _ Hb).
    rewrite <- (ev_toggle_vector n x i) by done.
    pose proof (ev_app_one (toggle_vector n i) b x) as Hev.
    rewrite toggle_vector_length in Hev. rewrite <- Hev. apply (H i).
    apply augment_lookup; [|done].
    unfold toggle_matrix. by rewrite list_lookup_fmap, lookup_seq_lt.
  - intros H i row Hrow. unfold augment in Hrow.
    apply lookup_zip_with_Some in Hrow as (v & b & -> & Hv & Hb).
    unfold toggle_matrix in Hv. rewrite list_lookup_fmap in Hv.
    destruct (seq 0 (n * n) !! i) as [k|] eqn:Hk; [|done].
    apply lookup_seq in Hk as [-> Hi]. injection Hv as <-. simpl.
    rewrite ev_app_one, toggle_vector_length, ev_toggle_vector by done.
    rewrite <- (cell_lookup _ _ _ Hb). by apply H.
Qed.

Lemma sat_null n board x :
  0 < n -> length board = n * n -> x (n * n) = false ->
  sat (augment (toggle_matrix n) board) x <-> null n x.
Proof.
  intros Hn Hlen Hx. rewrite sat_augment by done. unfold null.
  split; intros H i Hi; specialize (H i Hi).
  - rewrite Hx in H. simpl in H. rewrite Z.lxor_0_r in H.
    by destruct (Aop n x i).
  - rewrite Hx, H. done.
Qed.

(** The end column of a solution of the homogeneous system holds no
    pivot. *)
Lemma pivot_not_top R ps C x c k :
  echelon R ps C -> rect (C + 1) R -> sat R x -> top x c ->
  ps !! k = Some c -> False.
Proof.
  intros [Hs Hp Hb Hr] Hrect Hsat [Hxc Hafter] Hk.
  destruct (Hp k c Hk) as (Hc & Hone & Hzero & _).
  destruct (lookup_lt_is_Some_2 R k) as [row Hrow].
  { apply lookup_lt_Some in Hk. lia. }
  pose proof (Hsat k row Hrow) as Hev.
  rewrite (ev_entry R k row x Hrow) in Hev.
  rewrite (proj1 (Forall_lookup _ _) Hrect _ _ Hrow) in Hev.
  rewrite (xsum_single _ (C + 1) c) in Hev; [|lia|].
  - by rewrite Hxc, Hone in Hev.
  - intros j _ Hj. destruct (decide (j < c)).
    + rewrite Hzero by done. apply pick_zero.
    + by rewrite Hafter by lia.
Qed.

(** The first column without a pivot is the end column of a solution of
    the homogeneous system, when the pivots before it are on the
    diagonal. *)
Lemma free_column_top R ps C c0 :
  echelon R ps C -> rect (C + 1) R -> bit_entries R -> c0 < C ->
  (forall k, k < c0 -> ps !! k = Some k) ->
  (forall p, ps !! c0 = Some p -> c0 < p) ->
  exists x, sat R x /\ top x c0.
Proof.
  intros [Hs Hp Hb Hr] Hrect HR Hc0 Hdiag Hfree.
  set (x := fun j => if j <? c0 then (entry R j c0 =? 1)%Z else j =? c0).
  exists x. split.
  2:{ unfold top, x. split.
      - by rewrite Nat.ltb_irrefl, Nat.eqb_refl.
      - intros j Hj. rewrite (proj2 (Nat.ltb_ge _ _)) by lia.
        apply Nat.eqb_neq. lia. }
  intros i row Hrow. rewrite (ev_entry R i row x Hrow).
  rewrite (proj1 (Forall_lookup _ _) Hrect _ _ Hrow).
  assert (Hxafter : forall j, c0 < j -> x j = false).
  { intros j Hj. unfold x. rewrite (proj2 (Nat.ltb_ge _ _)) by lia.
    apply Nat.eqb_neq. lia. }
  destruct (decide (i < c0)) as [Hi|Hi].
  - destruct (Hp i i (Hdiag i Hi)) as (_ & Hone & _ & _).
    rewrite (xsum_pair _ (C + 1) i c0); [|lia|lia|lia|].
    + unfold x at 1 2. rewrite (proj2 (Nat.ltb_lt _ _)) by done.
      rewrite Nat.ltb_irrefl, Nat.eqb_refl, Hone. simpl.
      destruct (HR i c0) as [-> | ->]; reflexivity.
    + intros j _ Hji Hjc. destruct (decide (j < c0)).
      * destruct (Hp j j (Hdiag j ltac:(done))) as (_ & _ & _ & Hother).
        rewrite (Hother i) by lia. apply pick_zero.
      * by rewrite Hxafter by lia.
  - apply xsum_zero. intros j _.
    destruct (decide (c0 < j)); [by rewrite Hxafter by done|].
    assert (Hz : entry R i j = 0%Z); [|rewrite Hz; apply pick_zero].
    destruct (decide (i < length ps)) as [Hips|Hips].
    + destruct (lookup_lt_is_Some_2 ps i Hips) as [p Hpi].
      destruct (Hp i p Hpi) as (_ & _ & Hzero & _).
      apply Hzero.
      destruct (decide (i = c0)) as [->|Hne].
      * specialize (Hfree p Hpi). lia.
      * destruct (lookup_lt_is_Some_2 ps c0 ltac:(lia)) as [p0 Hp0].
        specialize (Hfree p0 Hp0).
        specialize (Hs c0 i p0 p ltac:(lia) Hp0 Hpi). lia.
    + apply Hb; lia.
Qed.

End Equations.

(** ** The pivots of a Lights Out system lie on the diagonal *)

Section Diagonal.

Context (n : nat) (Hn : 0 < n).
Context (board : list Z) (Hlen : length board = n * n).
Context (Hboard : Forall bit board).

Lemma toggle_vector_bits i : Forall bit (toggle_vector n i).
Proof.
  apply Forall_lookup. intros j z Hz.
  assert (Hj : j < n * n).
  { apply lookup_lt_Some in Hz. by rewrite toggle_vector_length in Hz. }
  rewrite toggle_vector_lookup in Hz by done. injection Hz as <-.
  destruct (toggles n i j); [by right|by left].
Qed.

Lemma augment_bits : bits (augment (toggle_matrix n) board).
Proof.
  apply Forall_lookup. intros i row Hrow. unfold augment in Hrow.
  apply lookup_zip_with_Some in Hrow as (v & b & -> & Hv & Hb).
  unfold toggle_matrix in Hv. rewrite list_lookup_fmap in Hv.
  destruct (seq 0 (n * n) !! i) as [k|]; [|done]. injection Hv as <-.
  apply Forall_app. split; [apply toggle_vector_bits|].
  apply Forall_singleton.
  by eapply (proj1 (Forall_lookup _ _) Hboard).
Qed.

Lemma augment_nonempty : augment (toggle_matrix n) board <> [].
Proof.
  intros E. apply (f_equal length) in E.
  rewrite augment_length in E by (rewrite toggle_matrix_length; lia).
  rewrite toggle_matrix_length in E. simpl in E. nia.
Qed.

Lemma reduced_length :
  length (reduce (augment (toggle_matrix n) board)) = n * n.
Proof.
  rewrite reduce_length, augment_length; rewrite toggle_matrix_length; lia.
Qed.

Lemma reduced_bits : bit_entries (reduce (augment (toggle_matrix n) board)).
Proof.
  apply (bit_entries_reduce_from (n * n + 1)); [apply augment_rect|].
  apply bits_entries, augment_bits.
Qed.

Lemma reduced_echelon :
  exists ps, echelon (reduce (augment (toggle_matrix n) board)) ps (n * n).
Proof.
  destruct (reduce_echelon (n * n + 1) (augment (toggle_matrix n) board))
    as [ps Hps].
  - apply augment_nonempty.
  - apply bits_entries, augment_bits.
  - apply augment_rect.
  - exists ps. by replace (n * n + 1 - 1) with (n * n) in Hps by lia.
Qed.

Lemma pivots_diagonal ps :
  echelon (reduce (augment (toggle_matrix n) board)) ps (n * n) ->
  forall k p, ps !! k = Some p -> p = k.
Proof.
  set (M0 := augment (toggle_matrix n) board). set (R := reduce M0).
  intros He.
  pose proof (reduce_rect _ _ (augment_rect n board)) as Hrect.
  fold M0 R in Hrect.
  assert (Hsat : forall x, sat R x <-> sat M0 x).
  { intros x. apply (sat_reduce (n * n + 1)), augment_rect. }
  induction k as [k IH] using lt_wf_ind. intros p Hk.
  pose proof (lookup_lt_Some _ _ _ Hk) as Hklen.
  destruct (ech_pivot _ _ _ He k p Hk) as (HpC & _).
  assert (Hdiag : forall k', k' < k -> ps !! k' = Some k').
  { intros k' Hk'.
    destruct (lookup_lt_is_Some_2 ps k' ltac:(lia)) as [p' Hp'].
    by rewrite Hp', (IH k' Hk' p' Hp'). }
  assert (Hge : k <= p).
  { destruct k as [|k']; [lia|].
    pose proof (ech_sorted _ _ _ He k' (S k') k' p ltac:(lia)
                  (Hdiag k' ltac:(lia)) Hk). lia. }
  destruct (decide (p = k)) as [|Hne]; [done|exfalso].
  destruct (free_column_top R ps (n * n) k He Hrect reduced_bits)
    as (x & Hx & Htop); [lia|done| |].
  { intros p' Hp'. assert (p' = p) by congruence. lia. }
  assert (Hnull : null n x).
  { apply (sat_null n board); [done|done| |by apply Hsat].
    apply Htop. lia. }
  destruct (null_top_from n Hn x k p Hnull Htop Hge HpC) as (y & Hy & Hty).
  apply (pivot_not_top R ps (n * n) y p k He Hrect); [|done|done].
  apply Hsat. apply (sat_null n board); [done|done| |done].
  apply Hty. lia.
Qed.

End Diagonal.

(** ** The solution that [get_solution] extracts *)

Section Extraction.

Lemma row_last (row : list Z) C :
  length row = C + 1 -> default 0%Z (last row) = cell row C.
Proof.
  intros Hlen. rewrite last_lookup, Hlen.
  by replace (pred (C + 1)) with C by lia.
Qed.

Lemma removelast_zero (row : list Z) C :
  length row = C + 1 ->
  forallb (fun val => (val =? 0)%Z) (removelast row) = true <->
  forall j, j < C -> cell row j = 0%Z.
Proof.
  intros Hlen. rewrite removelast_firstn_len, Hlen.
  replace (pred (C + 1)) with C by lia.
  rewrite forallb_forall. split.
  - intros H j Hj.
    destruct (lookup_lt_is_Some_2 row j ltac:(lia)) as [v Hv].
    rewrite (cell_lookup _ _ _ Hv). apply Z.eqb_eq, H.
    apply list_elem_of_In. apply list_elem_of_lookup. exists j.
    by rewrite lookup_take_lt.
  - intros H v Hin. apply list_elem_of_In, list_elem_of_lookup in Hin
      as [j Hj].
    apply lookup_take_Some in Hj as [Hj Hlt].
    apply Z.eqb_eq. rewrite <- (cell_lookup _ _ _ Hj). by apply H.
Qed.

Lemma contradiction_row_true (row : list Z) C :
  length row = C + 1 ->
  contradiction_row row = true <->
  cell row C = 1%Z /\ forall j, j < C -> cell row j = 0%Z.
Proof.
  intros Hlen. unfold contradiction_row.
  rewrite andb_true_iff, Z.eqb_eq, (row_last row C Hlen).
  by rewrite (removelast_zero row C Hlen).
Qed.

Lemma consistent_rows M :
  consistent M = true <->
  forall i row, M !! i = Some row -> contradiction_row row = false.
Proof.
  unfold consistent. induction M as [|r M IH]; simpl.
  - split; [|done]. intros _ i row Hi. by rewrite lookup_nil in Hi.
  - rewrite andb_true_iff, IH, negb_true_iff. split.
    + intros [Hr HM] [|i] row Hi; simpl in Hi; [congruence|eauto].
    + intros H. split; [apply (H 0); done|].
      intros i row Hi. apply (H (S i)). done.
Qed.

(** A matrix with a solution has no contradiction row. *)
Lemma sat_consistent C M x :
  rect (C + 1) M -> sat M x -> x C = true -> consistent M = true.
Proof.
  intros Hrect Hsat HxC. apply consistent_rows. intros i row Hrow.
  pose proof (proj1 (Forall_lookup _ _) Hrect _ _ Hrow) as Hlen.
  destruct (contradiction_row row) eqn:E; [exfalso|done].
  apply (contradiction_row_true row C Hlen) in E as [Hone Hzero].
  pose proof (Hsat i row Hrow) as Hev. unfold ev in Hev.
  rewrite Hlen in Hev.
  rewrite (xsum_single _ (C + 1) C) in Hev; [|lia|].
  - by rewrite HxC, Hone in Hev.
  - intros j Hj Hne. rewrite Hzero by lia. apply pick_zero.
Qed.

Context (n : nat) (Hn : 0 < n).
Context (board : list Z) (Hlen : length board = n * n).
Context (Hboard : Forall bit board).

(** The augmented column of the reduced matrix. *)
Lemma extracted_cell j :
  cell (map (fun row => default 0%Z (last row))
          (take (n * n) (reduce (augment (toggle_matrix n) board)))) j
  = if j <? n * n
    then entry (reduce (augment (toggle_matrix n) board)) j (n * n)
    else 0%Z.
Proof.
  set (R := reduce (augment (toggle_matrix n) board)).
  pose proof (reduced_length n Hn board Hlen) as HlenR. fold R in HlenR.
  pose proof (reduce_rect _ _ (augment_rect n board)) as Hrect.
  fold R in Hrect.
  rewrite take_ge by lia.
  destruct (Nat.ltb_spec j (n * n)) as [Hj|Hj].
  - destruct (lookup_lt_is_Some_2 R j ltac:(lia)) as [row Hrow].
    unfold entry. rewrite (list_lookup_total_correct _ _ _ Hrow).
    rewrite <- (row_last row (n * n))
      by (by eapply (proj1 (Forall_lookup _ _) Hrect)).
    apply cell_lookup. by rewrite list_lookup_fmap, Hrow.
  - apply cell_ge. rewrite length_map. lia.
Qed.

Lemma extracted_sat :
  consistent (reduce (augment (toggle_matrix n) board)) = true ->
  sat (reduce (augment (toggle_matrix n) board))
    (assign (n * n)
       (map (fun row => default 0%Z (last row))
          (take (n * n) (reduce (augment (toggle_matrix n) board))))).
Proof.
  set (R := reduce (augment (toggle_matrix n) board)).
  set (s := map _ _).
  intros Hcons.
  pose proof (reduced_length n Hn board Hlen) as HlenR. fold R in HlenR.
  pose proof (reduce_rect _ _ (augment_rect n board)) as Hrect.
  fold R in Hrect.
  pose proof (reduced_bits n board Hboard) as HR. fold R in HR.
  destruct (reduced_echelon n Hn board Hlen Hboard) as [ps He]. fold R in He.
  pose proof (pivots_diagonal n Hn board Hlen Hboard ps He) as Hdiag.
  fold R in Hdiag.
  (* rows without a pivot are zero, the augmented column included *)
  assert (Hzero : forall i, length ps <= i -> entry R i (n * n) = 0%Z).
  { intros i Hi. destruct (decide (i < n * n)) as [Hlt|Hge];
      [|apply entry_ge; lia].
    destruct (lookup_lt_is_Some_2 R i ltac:(lia)) as [row Hrow].
    pose proof (proj1 (Forall_lookup _ _) Hrect _ _ Hrow) as Hrowlen.
    pose proof (proj1 (consistent_rows R) Hcons i row Hrow) as Hc.
    apply bit_not_one; [apply HR|]. intros Hone.
    rewrite (proj2 (contradiction_row_true row (n * n) Hrowlen)) in Hc;
      [done|].
    unfold entry in Hone. rewrite (list_lookup_total_correct _ _ _ Hrow)
      in Hone.
    split; [done|]. intros j Hj.
    pose proof (ech_below _ _ _ He i j Hi Hj) as Hz. unfold entry in Hz.
    by rewrite (list_lookup_total_correct _ _ _ Hrow) in Hz. }
  assert (Hs : forall j, j < n * n ->
            assign (n * n) s j = (entry R j (n * n) =? 1)%Z).
  { intros j Hj. unfold assign, s.
    rewrite (proj2 (Nat.eqb_neq _ _)) by lia.
    rewrite extracted_cell. by rewrite (proj2 (Nat.ltb_lt _ _)). }
  intros i row Hrow. rewrite (ev_entry R i row _ Hrow).
  rewrite (proj1 (Forall_lookup _ _) Hrect _ _ Hrow).
  pose proof (lookup_lt_Some _ _ _ Hrow) as Hi. rewrite HlenR in Hi.
  assert (HC : assign (n * n) s (n * n) = true)
    by (unfold assign; by rewrite Nat.eqb_refl).
  destruct (decide (i < length ps)) as [Hips|Hips].
  - destruct (lookup_lt_is_Some_2 ps i Hips) as [p Hp].
    pose proof (Hdiag i p Hp) as ->.
    destruct (ech_pivot _ _ _ He i i Hp) as (_ & Hone & _ & _).
    rewrite (xsum_pair _ (n * n + 1) i (n * n)); [|lia|lia|lia|].
    + rewrite HC, Hs, Hone by done. simpl.
      destruct (HR i (n * n)) as [-> | ->]; reflexivity.
    + intros j Hj Hji HjC. rewrite Hs by lia.
      destruct (decide (j < length ps)) as [Hjps|Hjps].
      * destruct (lookup_lt_is_Some_2 ps j Hjps) as [q Hq].
        pose proof (Hdiag j q Hq) as ->.
        destruct (ech_pivot _ _ _ He j j Hq) as (_ & _ & _ & Hother).
        rewrite (Hother i) by lia. apply pick_zero.
      * by rewrite Hzero by lia.
  - rewrite (xsum_single _ (n * n + 1) (n * n)); [|lia|].
    + rewrite Hzero by lia. apply pick_zero.
    + intros j Hj Hne.
      rewrite (ech_below _ _ _ He i j) by lia. apply pick_zero.
Qed.

(** The board is solvable exactly when [solution_of] finds a solution,
    and the solution it finds solves the system. *)
Lemma solution_of_sound s :
  solution_of board n = Some s ->
  sat (augment (toggle_matrix n) board) (assign (n * n) s)
  /\ length s = n * n /\ Forall bit s.
Proof.
  unfold solution_of.
  set (M0 := augment (toggle_matrix n) board).
  destruct (consistent (reduce M0)) eqn:Hcons; [|done].
  rewrite (reduce_idempotent (n * n + 1) M0)
    by (by apply augment_nonempty || by apply augment_bits
        || apply augment_rect).
  intros [= <-]. split; [|split].
  - apply (sat_reduce (n * n + 1)); [apply augment_rect|].
    by apply extracted_sat.
  - rewrite length_map, length_take.
    pose proof (reduced_length n Hn board Hlen) as HlenR. fold M0 in HlenR. lia.
  - apply Forall_lookup. intros j z Hz.
    pose proof (lookup_lt_Some _ _ _ Hz) as Hj.
    rewrite length_map, length_take in Hj.
    apply cell_lookup in Hz. rewrite <- Hz.
    unfold M0. rewrite extracted_cell.
    case_match; [|by left].
    by apply reduced_bits.
Qed.

Lemma solution_of_complete x :
  sat (augment (toggle_matrix n) board) x -> x (n * n) = true ->
  is_Some (solution_of board n).
Proof.
  intros Hsat HxC. unfold solution_of.
  rewrite (sat_consistent (n * n) _ x); [done| |  |done].
  - apply reduce_rect, augment_rect.
  - by apply (sat_reduce (n * n + 1)); [apply augment_rect|].
Qed.

End Extraction.

(** ** The verifier's replay and the system of equations *)

Section Replay.

Context (n : nat) (Hn : 0 < n).

Lemma flip_if_cell g k (b : list Z) j :
  (g = true -> k < length b) ->
  cell (flip_if g k b) j = Z.lxor (cell b j) (ind (g && (j =? k))).
Proof.
  intros Hk. destruct g; simpl; [|by rewrite Z.lxor_0_r].
  unfold flip_at, cell. destruct (Nat.eqb_spec j k) as [->|Hne]; simpl.
  - by rewrite list_lookup_insert_eq by auto.
  - rewrite list_lookup_insert_ne by done. by rewrite Z.lxor_0_r.
Qed.

Lemma press_cell i (b : list Z) j :
  i < n * n -> length b = n * n ->
  cell (press n i b) j = Z.lxor (cell b j) (ind (toggles n i j)).
Proof.
  intros Hi Hb. unfold press.
  fold (has_left n i) (has_right n i) (has_up n i) (has_down n i).
  change (flip_at i b) with (flip_if true i b).
  rewrite !flip_if_cell.
  - rewrite (toggles_xorb n Hn) by done. rewrite !ind_xorb.
    by rewrite !Z.lxor_assoc.
  - intros _. lia.
  - intros Hg. rewrite flip_if_length, Hb.
    assert (1 <= i) by (by eapply has_left_true). lia.
  - intros Hg. rewrite !flip_if_length, Hb. by apply has_right_next.
  - intros Hg. rewrite !flip_if_length, Hb.
    assert (n <= i) by (by apply has_up_true). lia.
  - intros Hg. rewrite !flip_if_length, Hb. by apply has_down_true.
Qed.

Lemma replay_snoc sol ks i : forall b,
  replay n sol (ks ++ [i]) b
  = if (cell sol i =? 1)%Z then press n i (replay n sol ks b)
    else replay n sol ks b.
Proof. induction ks as [|k ks IH]; intros b; [done|]. simpl. apply IH. Qed.

(** Cell [j] of the board after the presses of the cells before [m]. *)
Lemma replay_cell sol (b : list Z) j m :
  m <= n * n -> length b = n * n ->
  cell (replay n sol (seq 0 m) b) j
  = Z.lxor (cell b j)
      (xsum (fun i => pick (cell sol i =? 1)%Z (ind (toggles n i j))) m).
Proof.
  intros Hm Hb. induction m as [|m IH].
  - simpl. by rewrite Z.lxor_0_r.
  - rewrite seq_S, replay_snoc. simpl.
    destruct (cell sol m =? 1)%Z; simpl.
    + rewrite press_cell by (rewrite ?replay_length; lia).
      rewrite IH by lia. by rewrite Z.lxor_assoc.
    + rewrite IH by lia. by rewrite Z.lxor_0_r.
Qed.

Lemma all_zero_cells (b : list Z) :
  all_zero b = true <-> forall j, j < length b -> cell b j = 0%Z.
Proof.
  unfold all_zero. rewrite forallb_forall. split.
  - intros H j Hj. destruct (lookup_lt_is_Some_2 b j Hj) as [v Hv].
    rewrite (cell_lookup _ _ _ Hv). apply Z.eqb_eq, H.
    apply list_elem_of_In. by eapply list_elem_of_lookup_2.
  - intros H v Hin.
    apply list_elem_of_In, list_elem_of_lookup in Hin as [j Hj].
    apply Z.eqb_eq. rewrite <- (cell_lookup _ _ _ Hj). apply H.
    by eapply lookup_lt_Some.
Qed.

(** Cell [j] of the replayed board is the equation of row [j]. *)
Lemma replay_equation sol (b : list Z) j :
  length b = n * n -> j < n * n ->
  cell (replay n sol (range 0 (n * n)) b) j
  = Z.lxor (ind (Aop n (assign (n * n) sol) j))
      (pick (assign (n * n) sol (n * n)) (cell b j)).
Proof.
  intros Hb Hj. unfold range. rewrite Nat.sub_0_r.
  rewrite replay_cell by done.
  rewrite <- (toggle_row_sum n Hn) by done.
  rewrite Z.lxor_comm. f_equal.
  - apply xsum_ext. intros i Hi.
    rewrite (toggles_sym n i j) by done.
    unfold assign. by rewrite (proj2 (Nat.eqb_neq _ _)) by lia.
  - unfold assign. by rewrite Nat.eqb_refl.
Qed.

Lemma replay_sat sol (b : list Z) :
  length b = n * n ->
  all_zero (replay n sol (range 0 (n * n)) b) = true <->
  sat (augment (toggle_matrix n) b) (assign (n * n) sol).
Proof.
  intros Hb. rewrite all_zero_cells, replay_length, Hb.
  rewrite sat_augment by done.
  split; intros H j Hj.
  - rewrite <- replay_equation by done. by apply H.
  - rewrite replay_equation by done. by apply H.
Qed.

End Replay.

(** ** The matrix objects the programs build and leave *)

Section Objects.

Lemma rows_at_value (h : heap) ls M :
  rows_at h ls M -> rows_value h ls = Some M.
Proof.
  intros HM. induction HM as [|l row ls M Hl HM IH]; [done|].
  simpl. by rewrite Hl, IH.
Qed.

Lemma is_matrix_value h p ls M :
  is_matrix h p ls M -> matrix_value h p = Some M.
Proof.
  intros (Hp & _ & HM). unfold matrix_value. rewrite Hp.
  by apply rows_at_value.
Qed.

Lemma vectors_matrix n (h : heap) :
  is_matrix (vectors_heap n h (n * n)) (length h)
    (seq (S (length h)) (n * n)) (toggle_matrix n).
Proof.
  split; [apply vectors_heap_collection|].
  split; [apply NoDup_seq|apply vectors_heap_rows].
Qed.

Lemma entry_toggle_matrix n i j :
  i < n * n -> j < n * n -> entry (toggle_matrix n) i j = ind (toggles n i j).
Proof.
  intros Hi Hj. unfold entry, toggle_matrix.
  rewrite (list_lookup_total_correct _ i (toggle_vector n i))
    by (by rewrite list_lookup_fmap, lookup_seq_lt).
  by apply toggle_vector_cell.
Qed.

Lemma ind_one b : ind b = 1%Z <-> b = true.
Proof. by destruct b. Qed.

End Objects.

(** ** The matrix [get_solution] builds *)

Section Build.

Lemma build_run (h : heap) lb board n :
  h !! lb = Some (IntList board) -> n * n <= length board ->
  exists h1 lm h2,
    create_vector_representations n h = Some (length h, h1)
    /\ create_augmented_matrix (length h) lb h1 = Some (lm, h2)
    /\ is_matrix h2 lm (seq (length h1) (n * n))
         (augment (toggle_matrix n) board)
    /\ (vectors <- create_vector_representations n ;;
        matrix <- create_augmented_matrix vectors lb ;;
        is_solvable matrix) h = is_solvable lm h2.
Proof.
  intros Hb Hlen.
  assert (Hlb : lb < length h) by (by eapply lookup_lt_Some).
  set (h1 := vectors_heap n h (n * n)).
  set (M0 := augment (toggle_matrix n) board).
  assert (LM0 : length M0 = n * n).
  { unfold M0. rewrite augment_length; rewrite toggle_matrix_length; lia. }
  set (h2 := h1 ++ map IntList M0 ++ [RefList (seq (length h1) (length M0))]).
  assert (Haug : create_augmented_matrix (length h) lb h1
                 = Some (length h1 + length M0, h2)).
  { unfold h2, M0. rewrite augment_length
      by (rewrite toggle_matrix_length; lia).
    apply (create_augmented_matrix_run h1 (length h) lb
             (seq (S (length h)) (n * n)) (toggle_matrix n) board).
    - apply vectors_heap_collection.
    - apply vectors_heap_rows.
    - unfold h1. by rewrite vectors_heap_old.
    - by rewrite toggle_matrix_length. }
  exists h1, (length h1 + length M0), h2.
  split; [apply create_vector_representations_run|].
  split; [done|]. split.
  - rewrite <- LM0. apply fresh_matrix.
  - rewrite (run_bind _ _ _ _ _ (create_vector_representations_run n h)).
    fold h1. by rewrite (run_bind _ _ _ _ _ Haug).
Qed.

Lemma zeros_cells (l : list Z) C :
  length l = C -> l = replicate C 0%Z <-> forall j, j < C -> cell l j = 0%Z.
Proof.
  intros Hlen. split.
  - intros -> j Hj. apply cell_lookup. by apply lookup_replicate_2.
  - intros H. apply list_eq. intros j.
    destruct (decide (j < C)) as [Hj|Hj].
    + destruct (lookup_lt_is_Some_2 l j ltac:(lia)) as [v Hv].
      rewrite lookup_replicate_2 by done.
      rewrite Hv. f_equal. rewrite <- (cell_lookup _ _ _ Hv). by apply H.
    + rewrite !lookup_ge_None_2; [done| |lia].
      rewrite length_replicate. lia.
Qed.

(** The equations of a 0/1 matrix with an augmented column [C], written
    with AND for the product. *)
Lemma sat_product C M (x : list Z) :
  rect (C + 1) M -> bit_entries M -> Forall bit x -> length x = C ->
  sat M (assign C x) <->
  forall i, i < length M ->
    xsum (fun j => Z.land (entry M i j) (cell x j)) C = entry M i C.
Proof.
  intros Hrect HM Hx Hlen.
  assert (Hev : forall i row, M !! i = Some row ->
            ev row (assign C x)
            = Z.lxor (xsum (fun j => Z.land (entry M i j) (cell x j)) C)
                (entry M i C)).
  { intros i row Hrow. rewrite (ev_entry M i row _ Hrow).
    rewrite (proj1 (Forall_lookup _ _) Hrect _ _ Hrow).
    rewrite Nat.add_1_r. simpl. f_equal.
    - apply xsum_ext. intros j Hj. unfold assign.
      rewrite (proj2 (Nat.eqb_neq _ _)) by lia.
      destruct (lookup_lt_is_Some_2 x j ltac:(lia)) as [v Hv].
      rewrite (cell_lookup _ _ _ Hv).
      destruct (proj1 (Forall_lookup _ _) Hx _ _ Hv) as [-> | ->];
        destruct (HM i j) as [-> | ->]; reflexivity.
    - unfold assign. by rewrite Nat.eqb_refl. }
  unfold sat. split.
  - intros H i Hi. destruct (lookup_lt_is_Some_2 M i Hi) as [row Hrow].
    apply Z.lxor_eq. rewrite <- (Hev i row Hrow). by apply (H i).
  - intros H i row Hrow. rewrite (Hev i row Hrow).
    rewrite H by (by eapply lookup_lt_Some). apply Z.lxor_nilpotent.
Qed.

End Build.

(** ** The programs on small boards *)

(** The board of the banner: the solver finds the solution the banner
    gives. *)
Example solve_banner :
  solve [1; 1; 1; 1; 0; 1; 0; 1; 1]%Z 3
  = Some (Some [0; 0; 1; 1; 0; 0; 0; 1; 0]%Z).
Proof. reflexivity. Qed.

(** A 4 by 4 board with a single light on has no solution; the 4 by 4
    system has rank 12. *)
Example solve_single_light_4 :
  solve [1; 0; 0; 0; 0; 0; 0; 0; 0; 0; 0; 0; 0; 0; 0; 0]%Z 4 = Some None.
Proof. vm_compute. reflexivity. Qed.

(** A solvable 4 by 4 board: the cross that pressing cell 5 lights. *)
Example solve_cross_4 :
  solve [0; 1; 0; 0; 1; 1; 1; 0; 0; 1; 0; 0; 0; 0; 0; 0]%Z 4
  = Some (Some [0; 0; 0; 0; 0; 1; 0; 0; 0; 0; 0; 0; 0; 0; 0; 0]%Z).
Proof. vm_compute. reflexivity. Qed.

(** With no rows there is no [matrix[0]]: [get_solution] raises for
    [n = 0]. *)
Example solve_empty : solve [] 0 = None.
Proof. reflexivity. Qed.

(** * The properties of the specification *)

(** C3: for every index [i] of an [n] by [n] board (row [i / n], column
    [i mod n]), the [i]-th vector that [create_vector_representations n]
    returns has [n * n] cells, each 0 or 1, with cell [i] set, cell
    [i - 1] set iff the column is positive, cell [i + 1] set iff the
    column is below [n - 1], cell [i - n] set iff the row is positive,
    cell [i + n] set iff the row is below [n - 1], and every other cell
    0. *)
Theorem toggle_vector_shape (n : nat) (h : heap) (i : nat) :
  i < n * n ->
  exists lv h' ls li v,
    create_vector_representations n h = Some (lv, h')
    /\ h' !! lv = Some (RefList ls) /\ length ls = n * n
    /\ ls !! i = Some li /\ h' !! li = Some (IntList v)
    /\ length v = n * n /\ Forall bit v
    /\ cell v i = 1%Z
    /\ (1 <= i -> (cell v (i - 1) = 1%Z <-> 0 < i mod n))
    /\ (i + 1 < n * n -> (cell v (i + 1) = 1%Z <-> i mod n < n - 1))
    /\ (n <= i -> (cell v (i - n) = 1%Z <-> 0 < i / n))
    /\ (i + n < n * n -> (cell v (i + n) = 1%Z <-> i / n < n - 1))
    /\ (forall j, j < n * n ->
          j <> i -> j + 1 <> i -> j <> i + 1 -> j + n <> i -> j <> i + n ->
          cell v j = 0%Z).
Proof.
  intros Hi. assert (Hn : 0 < n) by (destruct n; lia).
  pose proof (Nat.mod_upper_bound i n ltac:(lia)) as Hmod.
  exists (length h), (vectors_heap n h (n * n)),
    (seq (S (length h)) (n * n)), (S (length h) + i), (toggle_vector n i).
  split; [apply create_vector_representations_run|].
  split; [apply vectors_heap_collection|].
  split; [apply length_seq|].
  split; [by apply lookup_seq_lt|].
  split.
  { eapply (Forall2_lookup_lr _ _ _ i _ _ (vectors_heap_rows n h (n * n))).
    - by apply lookup_seq_lt.
    - by rewrite list_lookup_fmap, lookup_seq_lt. }
  split; [apply toggle_vector_length|].
  split; [apply toggle_vector_bits|].
  split.
  { rewrite toggle_vector_cell by done. apply ind_one, toggles_true. auto. }
  split.
  { intros H1. rewrite toggle_vector_cell by lia.
    rewrite ind_one, toggles_true. split.
    - intros [?|[[? _]|[[_ ?]|[[? ?]|[_ ?]]]]]; try lia;
        destruct (decide (n = 1)) as [->|]; simpl in *; lia.
    - intros ?. right. left. split; [lia|done]. }
  split.
  { intros H1. rewrite toggle_vector_cell by lia.
    rewrite ind_one, toggles_true. split.
    - intros [?|[[_ ?]|[[? _]|[[_ ?]|[? ?]]]]]; try lia;
        destruct (decide (n = 1)) as [->|]; simpl in *; lia.
    - intros ?. right. right. left. split; [lia|done]. }
  split.
  { intros H1. rewrite toggle_vector_cell by lia.
    rewrite ind_one, toggles_true. split.
    - intros _. apply Nat.div_str_pos. lia.
    - intros _. right. right. right. left. done. }
  split.
  { intros H1. rewrite toggle_vector_cell by lia.
    rewrite ind_one, toggles_true. split.
    - intros _. apply Nat.Div0.div_lt_upper_bound. nia.
    - intros _. right. right. right. right. split; [nia|done]. }
  intros j Hj H1 H2 H3 H4 H5. rewrite toggle_vector_cell by done.
  destruct (toggles n i j) eqn:E; [|done]. exfalso.
  apply toggles_true in E as [?|[[_ ?]|[[_ ?]|[[? ?]|[_ ?]]]]]; lia.
Qed.

Lemma toggle_vector_shape_witness :
  exists lv h' ls li v,
    create_vector_representations 3 [] = Some (lv, h')
    /\ h' !! lv = Some (RefList ls) /\ length ls = 3 * 3
    /\ ls !! 4 = Some li /\ h' !! li = Some (IntList v)
    /\ length v = 3 * 3 /\ Forall bit v
    /\ cell v 4 = 1%Z
    /\ (1 <= 4 -> (cell v (4 - 1) = 1%Z <-> 0 < 4 mod 3))
    /\ (4 + 1 < 3 * 3 -> (cell v (4 + 1) = 1%Z <-> 4 mod 3 < 3 - 1))
    /\ (3 <= 4 -> (cell v (4 - 3) = 1%Z <-> 0 < 4 / 3))
    /\ (4 + 3 < 3 * 3 -> (cell v (4 + 3) = 1%Z <-> 4 / 3 < 3 - 1))
    /\ (forall j, j < 3 * 3 ->
          j <> 4 -> j + 1 <> 4 -> j <> 4 + 1 -> j + 3 <> 4 -> j <> 4 + 3 ->
          cell v j = 0%Z).
Proof. apply (toggle_vector_shape 3 [] 4). simpl. lia. Defined.

(** C5: the toggle vectors are symmetric.  For indices [i] and [j] of
    an [n] by [n] board, the collection that
    [create_vector_representations n] returns holds a vector [i] and a
    vector [j], vector [i] has a cell [j] and vector [j] a cell [i], and
    the one is 1 iff the other is. *)
Theorem toggle_vectors_symmetric (n : nat) (h : heap) (i j : nat) :
  i < n * n -> j < n * n ->
  exists lv h' ls li lj vi vj x y,
    create_vector_representations n h = Some (lv, h')
    /\ h' !! lv = Some (RefList ls)
    /\ ls !! i = Some li /\ h' !! li = Some (IntList vi)
    /\ ls !! j = Some lj /\ h' !! lj = Some (IntList vj)
    /\ vi !! j = Some x /\ vj !! i = Some y
    /\ (x = 1%Z <-> y = 1%Z).
Proof.
  intros Hi Hj.
  assert (Hrow : forall k, k < n * n ->
            vectors_heap n h (n * n) !! (S (length h) + k)
            = Some (IntList (toggle_vector n k))).
  { intros k Hk.
    eapply (Forall2_lookup_lr _ _ _ k _ _ (vectors_heap_rows n h (n * n))).
    - by apply lookup_seq_lt.
    - by rewrite list_lookup_fmap, lookup_seq_lt. }
  exists (length h), (vectors_heap n h (n * n)),
    (seq (S (length h)) (n * n)), (S (length h) + i), (S (length h) + j),
    (toggle_vector n i), (toggle_vector n j),
    (ind (toggles n i j)), (ind (toggles n j i)).
  split; [apply create_vector_representations_run|].
  split; [apply vectors_heap_collection|].
  split; [by apply lookup_seq_lt|]. split; [by apply Hrow|].
  split; [by apply lookup_seq_lt|]. split; [by apply Hrow|].
  split; [by apply toggle_vector_lookup|].
  split; [by apply toggle_vector_lookup|].
  by rewrite (toggles_sym n i j).
Qed.

Lemma toggle_vectors_symmetric_witness :
  exists lv h' ls li lj vi vj x y,
    create_vector_representations 3 [] = Some (lv, h')
    /\ h' !! lv = Some (RefList ls)
    /\ ls !! 1 = Some li /\ h' !! li = Some (IntList vi)
    /\ ls !! 4 = Some lj /\ h' !! lj = Some (IntList vj)
    /\ vi !! 4 = Some x /\ vj !! 1 = Some y
    /\ (x = 1%Z <-> y = 1%Z).
Proof. apply (toggle_vectors_symmetric 3 [] 1 4); simpl; lia. Defined.

(** C7: the worked example of the banner.  For the 3 by 3 board
    [###/#.#/.##] the solution string [..##...#.] parses to
    [0,0,1,1,0,0,0,1,0], and [check_solution] returns true on it, leaving
    every light of the board off. *)
Theorem worked_example :
  parse_solution (chars_of "..##...#."%string) = [0; 0; 1; 1; 0; 0; 0; 1; 0]%Z
  /\ (board <- new_ints [1; 1; 1; 1; 0; 1; 0; 1; 1]%Z ;;
      solution <- new_ints (parse_solution (chars_of "..##...#."%string)) ;;
      check_solution board solution 3) []
     = Some (true, [IntList (replicate 9 0%Z);
                    IntList [0; 0; 1; 1; 0; 0; 0; 1; 0]%Z]).
Proof. split; reflexivity. Qed.

(** C9: [get_solution] does not mutate its board argument.  After the
    call the board object holds what it held before, as does every other
    object that existed before the call: the elimination works on rows
    that [create_augmented_matrix] allocated. *)
Theorem get_solution_preserves_board (h : heap) (lb : loc)
  (board : list Z) (n : nat) :
  0 < n -> h !! lb = Some (IntList board) -> length board = n * n ->
  exists r h',
    get_solution lb n h = Some (r, h')
    /\ h' !! lb = Some (IntList board)
    /\ forall q, q < length h -> h' !! q = h !! q.
Proof.
  intros Hn Hb Hlen.
  destruct (get_solution_run h lb board n Hb Hn ltac:(lia))
    as (r & h' & Hrun & Hold & _).
  exists r, h'. split; [done|]. split; [|done].
  rewrite Hold; [done|]. by eapply lookup_lt_Some.
Qed.

Lemma get_solution_preserves_board_witness :
  exists r h',
    get_solution 0 2 [IntList [1; 0; 0; 1]%Z] = Some (r, h')
    /\ h' !! 0 = Some (IntList [1; 0; 0; 1]%Z)
    /\ forall q, q < length [IntList [1; 0; 0; 1]%Z] ->
         h' !! q = [IntList [1; 0; 0; 1]%Z] !! q.
Proof.
  apply (get_solution_preserves_board [IntList [1; 0; 0; 1]%Z] 0
           [1; 0; 0; 1]%Z 2); [lia|reflexivity|reflexivity].
Defined.

(** C10: [is_solvable] mutates its argument in place.  For a matrix
    object with at least one row and one column, after the call the
    object holds the reduced matrix, the one that
    [gauss_jordan_elimination] leaves when it is called on the same
    store; a caller that reads the matrix after the call sees [reduce M],
    not [M]. *)
Theorem is_solvable_reduces_argument (h : heap) (p : loc) (ls : list loc)
  (M : list (list Z)) (cols : nat) :
  is_matrix h p ls M -> M <> [] -> rect cols M -> 0 < cols ->
  exists ok h1 h2,
    is_solvable p h = Some (ok, h1)
    /\ gauss_jordan_elimination p h = Some (p, h2)
    /\ matrix_value h1 p = Some (reduce M)
    /\ matrix_value h2 p = Some (reduce M).
Proof.
  intros HM Hne Hrect Hcols.
  destruct (is_solvable_run h p ls M cols HM Hne Hrect Hcols)
    as (h1 & ls1 & Hrun1 & HM1 & _).
  destruct (gauss_jordan_elimination_run h p ls M cols HM Hne Hrect)
    as (h2 & ls2 & Hrun2 & HM2 & _).
  exists (consistent (reduce M)), h1, h2.
  split; [done|]. split; [done|].
  split; by eapply is_matrix_value.
Qed.

Lemma is_solvable_reduces_argument_witness :
  exists ok h1 h2,
    is_solvable 2 [IntList [1; 1; 0]%Z; IntList [1; 0; 1]%Z; RefList [0; 1]]
    = Some (ok, h1)
    /\ gauss_jordan_elimination 2
         [IntList [1; 1; 0]%Z; IntList [1; 0; 1]%Z; RefList [0; 1]]
       = Some (2, h2)
    /\ matrix_value h1 2 = Some (reduce [[1; 1; 0]; [1; 0; 1]]%Z)
    /\ matrix_value h2 2 = Some (reduce [[1; 1; 0]; [1; 0; 1]]%Z).
Proof.
  apply (is_solvable_reduces_argument
           [IntList [1; 1; 0]%Z; IntList [1; 0; 1]%Z; RefList [0; 1]]
           2 [0; 1] [[1; 1; 0]; [1; 0; 1]]%Z 3).
  - split; [reflexivity|]. split.
    + apply NoDup_cons. split; [|apply NoDup_singleton].
      intros Hin. apply list_elem_of_singleton in Hin. discriminate.
    + repeat constructor.
  - discriminate.
  - repeat constructor.
  - lia.
Defined.

(** C6: [gauss_jordan_elimination] is idempotent.  For a matrix object
    with at least one row, all rows of one length and all cells 0 or 1,
    a second call leaves the matrix that the first call left. *)
Theorem gauss_jordan_elimination_idempotent (h : heap) (p : loc)
  (ls : list loc) (M : list (list Z)) (cols : nat) :
  is_matrix h p ls M -> M <> [] -> rect cols M -> bits M ->
  exists h1 h2 R,
    gauss_jordan_elimination p h = Some (p, h1)
    /\ matrix_value h1 p = Some R
    /\ gauss_jordan_elimination p h1 = Some (p, h2)
    /\ matrix_value h2 p = Some R.
Proof.
  intros HM Hne Hrect Hbits.
  destruct (gauss_jordan_elimination_run h p ls M cols HM Hne Hrect)
    as (h1 & ls1 & Hrun1 & HM1 & _).
  assert (HneR : reduce M <> []).
  { intros E. apply (f_equal length) in E. rewrite reduce_length in E.
    by destruct M. }
  destruct (gauss_jordan_elimination_run h1 p ls1 (reduce M) cols HM1 HneR
              (reduce_rect _ _ Hrect))
    as (h2 & ls2 & Hrun2 & HM2 & _).
  rewrite (reduce_idempotent cols M Hne Hbits Hrect) in HM2.
  exists h1, h2, (reduce M).
  split; [done|]. split; [by eapply is_matrix_value|].
  split; [done|]. by eapply is_matrix_value.
Qed.

Lemma gauss_jordan_elimination_idempotent_witness :
  exists h1 h2 R,
    gauss_jordan_elimination 2
      [IntList [1; 1; 0]%Z; IntList [1; 0; 1]%Z; RefList [0; 1]]
    = Some (2, h1)
    /\ matrix_value h1 2 = Some R
    /\ gauss_jordan_elimination 2 h1 = Some (2, h2)
    /\ matrix_value h2 2 = Some R.
Proof.
  apply (gauss_jordan_elimination_idempotent
           [IntList [1; 1; 0]%Z; IntList [1; 0; 1]%Z; RefList [0; 1]]
           2 [0; 1] [[1; 1; 0]; [1; 0; 1]]%Z 3).
  - split; [reflexivity|]. split.
    + apply NoDup_cons. split; [|apply NoDup_singleton].
      intros Hin. apply list_elem_of_singleton in Hin. discriminate.
    + repeat constructor.
  - discriminate.
  - repeat constructor.
  - repeat constructor; (by left) || (by right).
Defined.

(** C8: an input line whose parsed bit sequence does not have [n * n]
    elements is answered as an incorrect solution and the loop goes on.
    This holds whatever the verifier is, so the verifier is not called:
    nothing is indexed out of range, nothing raises, the board is not
    copied and the success payload is not sent. *)
Theorem wrong_length_is_incorrect (check : loc -> loc -> nat -> Py bool)
  (h : heap) (board : loc) (n : nat) (user_input : list char) :
  length (parse_solution user_input) <> n * n ->
  handle_reply_with check board n user_input h
  = Some (Incorrect, h ++ [IntList (parse_solution user_input)]).
Proof.
  intros Hlen. unfold handle_reply_with.
  rewrite (run_bind _ _ _ (length h)
             (h ++ [IntList (parse_solution user_input)])) by reflexivity.
  erewrite run_bind by (eapply len_ints_run; apply lookup_fresh).
  by rewrite (proj2 (Nat.eqb_neq _ _)).
Qed.

Lemma wrong_length_is_incorrect_witness :
  length (parse_solution (chars_of "..##...#"%string)) <> 3 * 3
  /\ handle_reply_with check_solution 0 3 (chars_of "..##...#"%string)
       [IntList [1; 1; 1; 1; 0; 1; 0; 1; 1]%Z]
     = Some (Incorrect,
             [IntList [1; 1; 1; 1; 0; 1; 0; 1; 1]%Z]
               ++ [IntList (parse_solution (chars_of "..##...#"%string))]).
Proof.
  split; [simpl; lia|].
  apply (wrong_length_is_incorrect check_solution). simpl. lia.
Defined.

(** C2: [check_solution board solution n] returns true iff the board
    XORed with the sum over GF(2) of the vectors
    [create_vector_representations(n)[i]] of the cells [i] with
    [solution[i] = 1] is the all-zero vector. *)
Theorem check_solution_linear (h : heap) (lb ls : loc)
  (board sol : list Z) (n : nat) :
  0 < n ->
  h !! lb = Some (IntList board) -> h !! ls = Some (IntList sol) ->
  lb <> ls -> length board = n * n -> length sol = n * n ->
  exists lv hv V ok h',
    create_vector_representations n h = Some (lv, hv)
    /\ matrix_value hv lv = Some V
    /\ check_solution lb ls n h = Some (ok, h')
    /\ (ok = true <-> toggled V sol board = replicate (n * n) 0%Z).
Proof.
  intros Hn Hb Hs Hne Lb Ls.
  exists (length h), (vectors_heap n h (n * n)), (toggle_matrix n).
  eexists _, _.
  split; [apply create_vector_representations_run|].
  split; [apply (is_matrix_value _ _ _ _ (vectors_matrix n h))|].
  split; [apply (check_solution_run h lb ls sol board n); (done || lia)|].
  rewrite all_zero_cells, replay_length, Lb.
  rewrite (zeros_cells _ (n * n))
    by (unfold toggled; by rewrite length_imap).
  assert (Hcell : forall j, j < n * n ->
            cell (toggled (toggle_matrix n) sol board) j
            = cell (replay n sol (range 0 (n * n)) board) j).
  { intros j Hj. unfold range. rewrite Nat.sub_0_r.
    rewrite (replay_cell n Hn) by done.
    destruct (lookup_lt_is_Some_2 board j ltac:(lia)) as [b Hbj].
    rewrite (cell_lookup _ _ _ Hbj). apply cell_lookup.
    unfold toggled. rewrite list_lookup_imap, Hbj. simpl. do 2 f_equal.
    rewrite toggle_matrix_length. apply xsum_ext. intros i Hi.
    by rewrite entry_toggle_matrix. }
  split; intros H j Hj.
  - rewrite Hcell by done. by apply H.
  - rewrite <- Hcell by done. by apply H.
Qed.

Lemma check_solution_linear_witness :
  exists lv hv V ok h',
    create_vector_representations 1 [IntList [1%Z]; IntList [1%Z]]
    = Some (lv, hv)
    /\ matrix_value hv lv = Some V
    /\ check_solution 0 1 1 [IntList [1%Z]; IntList [1%Z]] = Some (ok, h')
    /\ (ok = true <-> toggled V [1%Z] [1%Z] = replicate (1 * 1) 0%Z).
Proof.
  apply (check_solution_linear [IntList [1%Z]; IntList [1%Z]] 0 1
           [1%Z] [1%Z] 1); (lia || reflexivity || discriminate).
Defined.

(** C4: for the augmented matrix [[A | b]] that [create_augmented_matrix]
    builds from the toggle vectors and a board [b], [is_solvable] returns
    true iff some 0/1 vector [x] satisfies [A x = b] over GF(2), and iff
    the matrix it leaves (the reduced one) has no row that is zero in the
    coefficient columns with a 1 in the augmented column. *)
Theorem is_solvable_iff_solution (h : heap) (lb : loc) (board : list Z)
  (n : nat) :
  0 < n -> h !! lb = Some (IntList board) -> length board = n * n ->
  Forall bit board ->
  exists lv h1 lm h2 M0 ok h3 R,
    create_vector_representations n h = Some (lv, h1)
    /\ create_augmented_matrix lv lb h1 = Some (lm, h2)
    /\ matrix_value h2 lm = Some M0
    /\ (forall i, i < n * n -> entry M0 i (n * n) = cell board i)
    /\ is_solvable lm h2 = Some (ok, h3)
    /\ matrix_value h3 lm = Some R
    /\ (ok = true <->
        exists x, length x = n * n /\ Forall bit x
          /\ forall i, i < n * n ->
               xsum (fun j => Z.land (entry M0 i j) (cell x j)) (n * n)
               = entry M0 i (n * n))
    /\ (ok = true <->
        forall row, row ∈ R ->
          ~ (cell row (n * n) = 1%Z
             /\ forall j, j < n * n -> cell row j = 0%Z)).
Proof.
  intros Hn Hb Hlen Hbits.
  destruct (build_run h lb board n Hb ltac:(lia))
    as (h1 & lm & h2 & Hvec & Haug & HM2 & _).
  set (M0 := augment (toggle_matrix n) board) in *.
  pose proof (augment_rect n board) as Hrect. fold M0 in Hrect.
  pose proof (augment_nonempty n Hn board Hlen) as Hne. fold M0 in Hne.
  pose proof (augment_bits n board Hbits) as HbM. fold M0 in HbM.
  assert (LM0 : length M0 = n * n).
  { unfold M0. rewrite augment_length; rewrite toggle_matrix_length; lia. }
  destruct (is_solvable_run h2 lm _ M0 (n * n + 1) HM2 Hne Hrect ltac:(lia))
    as (h3 & ls3 & Hrun & HM3 & _).
  exists (length h), h1, lm, h2, M0, (consistent (reduce M0)), h3, (reduce M0).
  split; [done|]. split; [done|].
  split; [by eapply is_matrix_value|].
  split.
  { intros i Hi.
    destruct (lookup_lt_is_Some_2 board i ltac:(lia)) as [b Hbi].
    unfold entry, M0.
    rewrite (list_lookup_total_correct _ i (toggle_vector n i ++ [b])).
    - rewrite (cell_lookup _ _ _ Hbi). apply cell_lookup.
      rewrite lookup_app_r by (rewrite toggle_vector_length; lia).
      by rewrite toggle_vector_length, Nat.sub_diag.
    - apply augment_lookup; [|done]. unfold toggle_matrix.
      by rewrite list_lookup_fmap, lookup_seq_lt. }
  split; [done|]. split; [by eapply is_matrix_value|].
  assert (Hsol : consistent (reduce M0) = true
                 <-> is_Some (solution_of board n)).
  { unfold solution_of. fold M0. by destruct (consistent (reduce M0)). }
  split.
  - rewrite Hsol. split.
    + intros [s Hs].
      destruct (solution_of_sound n Hn board Hlen Hbits s Hs)
        as (Hsat & Ls & Bs).
      exists s. split; [done|]. split; [done|].
      intros i Hi.
      apply (sat_product (n * n) M0 s Hrect (bits_entries _ HbM) Bs Ls);
        [done|lia].
    + intros (x & Lx & Bx & Hx).
      apply (solution_of_complete n board (assign (n * n) x)).
      * apply (sat_product (n * n) M0 x Hrect (bits_entries _ HbM) Bx Lx).
        intros i Hi. apply Hx. lia.
      * unfold assign. by rewrite Nat.eqb_refl.
  - rewrite consistent_rows.
    pose proof (reduce_rect _ _ Hrect) as HrectR.
    split.
    + intros H row Hin Hrow.
      apply list_elem_of_lookup in Hin as [i Hi].
      pose proof (proj1 (Forall_lookup _ _) HrectR _ _ Hi) as Lrow.
      apply (contradiction_row_true row (n * n) Lrow) in Hrow.
      by rewrite (H i row Hi) in Hrow.
    + intros H i row Hi.
      pose proof (proj1 (Forall_lookup _ _) HrectR _ _ Hi) as Lrow.
      destruct (contradiction_row row) eqn:E; [exfalso|done].
      apply (H row); [by eapply list_elem_of_lookup_2|].
      by apply (contradiction_row_true row (n * n) Lrow).
Qed.

Lemma is_solvable_iff_solution_witness :
  exists lv h1 lm h2 M0 ok h3 R,
    create_vector_representations 1 [IntList [1%Z]] = Some (lv, h1)
    /\ create_augmented_matrix lv 0 h1 = Some (lm, h2)
    /\ matrix_value h2 lm = Some M0
    /\ (forall i, i < 1 * 1 -> entry M0 i (1 * 1) = cell [1%Z] i)
    /\ is_solvable lm h2 = Some (ok, h3)
    /\ matrix_value h3 lm = Some R
    /\ (ok = true <->
        exists x, length x = 1 * 1 /\ Forall bit x
          /\ forall i, i < 1 * 1 ->
               xsum (fun j => Z.land (entry M0 i j) (cell x j)) (1 * 1)
               = entry M0 i (1 * 1))
    /\ (ok = true <->
        forall row, row ∈ R ->
          ~ (cell row (1 * 1) = 1%Z
             /\ forall j, j < 1 * 1 -> cell row j = 0%Z)).
Proof.
  apply (is_solvable_iff_solution [IntList [1%Z]] 0 [1%Z] 1);
    [lia|reflexivity|reflexivity|].
  apply Forall_singleton. by right.
Defined.

(** C1: for a board of [n * n] bits, [get_solution] returns [None] iff
    [is_solvable] returns false on the augmented matrix built from the
    board; and a solution it returns, passed to [check_solution] with a
    copy of the board, makes [check_solution] return true and leaves the
    copy all zero. *)
Theorem solve_then_verify (h : heap) (lb : loc) (board : list Z) (n : nat) :
  0 < n -> h !! lb = Some (IntList board) -> length board = n * n ->
  Forall bit board ->
  exists r h1 ok h2,
    get_solution lb n h = Some (r, h1)
    /\ (vectors <- create_vector_representations n ;;
        matrix <- create_augmented_matrix vectors lb ;;
        is_solvable matrix) h = Some (ok, h2)
    /\ (r = None <-> ok = false)
    /\ forall s, r = Some s ->
         exists copy h3,
           (copy <- copy_list lb ;;
            ok' <- check_solution copy s n ;;
            ret (copy, ok')) h1 = Some ((copy, true), h3)
           /\ h3 !! copy = Some (IntList (replicate (n * n) 0%Z)).
Proof.
  intros Hn Hb Hlen Hbits.
  destruct (get_solution_run h lb board n Hb Hn ltac:(lia))
    as (r & h1 & Hrun & Hold & Hr).
  destruct (build_run h lb board n Hb ltac:(lia))
    as (g1 & lm & g2 & _ & _ & HM2 & Hsame).
  set (M0 := augment (toggle_matrix n) board) in *.
  destruct (is_solvable_run g2 lm _ M0 (n * n + 1) HM2)
    as (g3 & ls3 & Hsolv & _).
  { by apply augment_nonempty. }
  { apply augment_rect. }
  { lia. }
  exists r, h1, (consistent (reduce M0)), g3.
  split; [done|]. split; [by rewrite Hsame|].
  assert (Hsol : solution_of board n
                 = if consistent (reduce M0)
                   then Some (map (fun row => default 0%Z (last row))
                                (take (n * n) (reduce (reduce M0))))
                   else None) by done.
  split.
  { destruct r as [l|].
    - destruct Hr as (s & Hs & _). rewrite Hs in Hsol.
      split; [done|]. intros E. by rewrite E in Hsol.
    - rewrite Hr in Hsol. split; [|done]. intros _.
      by destruct (consistent (reduce M0)). }
  intros l ->. destruct Hr as (s & Hs & Hl & Hfresh).
  destruct (solution_of_sound n Hn board Hlen Hbits s Hs)
    as (Hsat & Ls & _).
  assert (Hb1 : h1 !! lb = Some (IntList board)).
  { rewrite Hold; [done|]. by eapply lookup_lt_Some. }
  assert (Hl1 : l < length h1) by (by eapply lookup_lt_Some).
  exists (length h1), (<[length h1 := IntList
                          (replay n s (range 0 (n * n)) board)]>
                        (h1 ++ [IntList board])).
  assert (Hzero : all_zero (replay n s (range 0 (n * n)) board) = true)
    by (by apply (replay_sat n Hn)).
  split.
  - unfold copy_list. rewrite run_bind_assoc.
    rewrite (run_bind _ _ _ _ _ (ints_of_run _ _ _ Hb1)).
    rewrite (run_bind _ _ _ (length h1) (h1 ++ [IntList board]))
      by reflexivity.
    erewrite run_bind.
    2:{ apply (check_solution_run _ (length h1) l s board n).
        - apply lookup_fresh.
        - by rewrite lookup_app_l.
        - lia.
        - done.
        - lia. }
    by rewrite Hzero.
  - rewrite list_lookup_insert_eq by (rewrite length_app; simpl; lia).
    do 2 f_equal. apply zeros_cells; [by rewrite replay_length|].
    intros j Hj. apply all_zero_cells; [done|].
    by rewrite replay_length, Hlen.
Qed.

Lemma solve_then_verify_witness :
  exists r h1 ok h2,
    get_solution 0 1 [IntList [1%Z]] = Some (r, h1)
    /\ (vectors <- create_vector_representations 1 ;;
        matrix <- create_augmented_matrix vectors 0 ;;
        is_solvable matrix) [IntList [1%Z]] = Some (ok, h2)
    /\ (r = None <-> ok = false)
    /\ forall s, r = Some s ->
         exists copy h3,
           (copy <- copy_list 0 ;;
            ok' <- check_solution copy s 1 ;;
            ret (copy, ok')) h1 = Some ((copy, true), h3)
           /\ h3 !! copy = Some (IntList (replicate (1 * 1) 0%Z)).
Proof.
  apply (solve_then_verify [IntList [1%Z]] 0 [1%Z] 1);
    [lia|reflexivity|reflexivity|].
  apply Forall_singleton. by right.
Defined.

(** * Further properties of the code *)

(** ** [print_board] *)

Section Printing.

Lemma print_cells_run (h : heap) lb (b : list Z) n i :
  h !! lb = Some (IntList b) ->
  forall m j0 row, i * n + j0 + m <= length b ->
  for_each (seq j0 m) (print_cell lb n i) row h
  = Some (row ++ map glyph (take m (drop (i * n + j0) b)), h).
Proof.
  intros Hb. induction m as [|m IH]; intros j0 row Hm.
  - simpl. by rewrite app_nil_r.
  - cbn [seq for_each].
    destruct (lookup_lt_is_Some_2 b (i * n + j0) ltac:(lia)) as [v Hv].
    unfold print_cell at 1. rewrite run_bind_assoc.
    rewrite (run_bind _ _ _ _ _ (get_int_run _ _ _ _ _ Hb Hv)).
    rewrite (run_bind _ _ _ (Next (row ++ [glyph v])) h) by reflexivity.
    rewrite IH by lia. rewrite (drop_S _ _ _ Hv). simpl.
    rewrite <- app_assoc. simpl.
    by replace (i * n + S j0) with (S (i * n + j0)) by lia.
Qed.

Lemma print_lines_run (h : heap) lb (b : list Z) n :
  h !! lb = Some (IntList b) ->
  forall m i0 text, (i0 + m) * n <= length b ->
  for_each (seq i0 m) (print_line lb n) text h
  = Some (text ++ concat (map (render_row b n) (seq i0 m)), h).
Proof.
  intros Hb. induction m as [|m IH]; intros i0 text Hm.
  - simpl. by rewrite app_nil_r.
  - cbn [seq for_each]. unfold print_line at 1. rewrite run_bind_assoc.
    unfold range. rewrite Nat.sub_0_r.
    rewrite (run_bind _ _ _ _ _
               (print_cells_run h lb b n i0 Hb n 0 [] ltac:(nia))).
    rewrite (run_bind _ _ _ (Next (text ++ render_row b n i0)) h).
    2:{ unfold render_row. by rewrite Nat.add_0_r. }
    rewrite IH by lia. simpl. by rewrite <- app_assoc.
Qed.

Lemma print_board_run (h : heap) lb (b : list Z) n :
  h !! lb = Some (IntList b) -> n * n <= length b ->
  print_board lb n h = Some (render b n, h).
Proof.
  intros Hb Hlen. unfold print_board, render.
  change (for_each (range 0 n) _ []) with
    (for_each (range 0 n) (print_line lb n) []).
  unfold range at 1. rewrite Nat.sub_0_r.
  by rewrite (print_lines_run h lb b n Hb n 0 [] ltac:(lia)).
Qed.

(** A board that is too short: the read of the first missing cell
    raises. *)
Lemma print_cells_raise (h : heap) lb (b : list Z) n i :
  h !! lb = Some (IntList b) ->
  forall m j0 row,
    i * n + j0 <= length b -> length b < i * n + j0 + m ->
    for_each (seq j0 m) (print_cell lb n i) row h = None.
Proof.
  intros Hb. induction m as [|m IH]; intros j0 row Hlo Hhi; [lia|].
  cbn [seq for_each]. unfold print_cell at 1. rewrite run_bind_assoc.
  destruct (decide (i * n + j0 = length b)) as [E|E].
  - unfold bind at 1, get_int, bind.
    rewrite (ints_of_run _ _ _ Hb).
    by rewrite lookup_ge_None_2 by lia.
  - destruct (lookup_lt_is_Some_2 b (i * n + j0) ltac:(lia)) as [v Hv].
    rewrite (run_bind _ _ _ _ _ (get_int_run _ _ _ _ _ Hb Hv)).
    rewrite (run_bind _ _ _ (Next (row ++ [glyph v])) h) by reflexivity.
    apply IH; lia.
Qed.

Lemma print_lines_raise (h : heap) lb (b : list Z) n :
  h !! lb = Some (IntList b) ->
  forall m i0 text,
    i0 * n <= length b -> length b < (i0 + m) * n ->
    for_each (seq i0 m) (print_line lb n) text h = None.
Proof.
  intros Hb. induction m as [|m IH]; intros i0 text Hlo Hhi; [lia|].
  cbn [seq for_each]. unfold print_line at 1. rewrite run_bind_assoc.
  unfold range. rewrite Nat.sub_0_r.
  destruct (decide (length b < i0 * n + n)) as [Hlt|Hge].
  - unfold bind at 1.
    by rewrite (print_cells_raise h lb b n i0 Hb n 0 []) by lia.
  - rewrite (run_bind _ _ _ _ _
               (print_cells_run h lb b n i0 Hb n 0 [] ltac:(lia))).
    rewrite (run_bind _ _ _ (Next (text ++ render_row b n i0)) h).
    2:{ unfold render_row. by rewrite Nat.add_0_r. }
    apply IH; lia.
Qed.

Lemma glyph_not_newline v : glyph v <> newline.
Proof. unfold glyph. by destruct (v =? 0)%Z. Qed.

Lemma parse_glyphs (r : list Z) :
  Forall bit r -> parse_solution (map glyph r) = r.
Proof.
  unfold parse_solution.
  induction 1 as [|v r Hv Hr IH]; [done|]. cbn [map].
  f_equal; [by destruct Hv as [-> | ->]|done].
Qed.

Lemma parse_solution_app u v :
  parse_solution (u ++ v) = parse_solution u ++ parse_solution v.
Proof. apply map_app. Qed.

Lemma filter_glyphs (r : list Z) :
  filter (fun c => c <> newline) (map glyph r) = map glyph r.
Proof.
  induction r as [|v r IH]; [done|]. simpl.
  rewrite filter_cons_True by apply glyph_not_newline. by rewrite IH.
Qed.

(** The lines of the text, without the line ends, are the board. *)
Lemma unrender_lines (b : list Z) n m :
  Forall bit b -> m * n <= length b ->
  parse_solution
    (filter (fun c => c <> newline)
       (concat (map (render_row b n) (seq 0 m))))
  = take (m * n) b.
Proof.
  intros Hb. induction m as [|m IH]; intros Hm; [done|].
  rewrite seq_S, map_app, concat_app. simpl. rewrite app_nil_r.
  rewrite filter_app, parse_solution_app, IH by lia.
  unfold render_row. rewrite filter_app, filter_glyphs.
  rewrite filter_cons_False by (intros H; by apply H).
  rewrite filter_nil, app_nil_r.
  rewrite parse_glyphs by (by apply Forall_take, Forall_drop).
  rewrite take_take_drop. f_equal. lia.
Qed.

Lemma render_length (b : list Z) n :
  n * n <= length b -> length (render b n) = n * (n + 1).
Proof.
  intros Hlen. unfold render.
  assert (H : forall m, m <= n ->
            length (concat (map (render_row b n) (seq 0 m))) = m * (n + 1)).
  { induction m as [|m IH]; intros Hm; [done|].
    rewrite seq_S, map_app, concat_app, length_app, IH by lia. simpl.
    rewrite app_nil_r. unfold render_row.
    rewrite length_app, length_map, length_take, length_drop. simpl. nia. }
  by apply H.
Qed.

End Printing.

(** X1: for a board of [n * n] bits, [print_board] returns without
    touching the store; the text has [n] lines of [n] glyphs and a line
    end each, and reading it back glyph by glyph, the line ends left out,
    gives the board. *)
Theorem print_board_round_trip (h : heap) (lb : loc) (board : list Z)
  (n : nat) :
  h !! lb = Some (IntList board) -> length board = n * n ->
  Forall bit board ->
  exists text,
    print_board lb n h = Some (text, h)
    /\ length text = n * (n + 1)
    /\ parse_solution (filter (fun c => c <> newline) text) = board.
Proof.
  intros Hb Hlen Hbits. exists (render board n).
  split; [apply print_board_run; [done|lia]|].
  split; [apply render_length; lia|].
  unfold render. rewrite unrender_lines by (done || lia).
  apply take_ge. lia.
Qed.

Lemma print_board_round_trip_witness :
  exists text,
    print_board 0 2 [IntList [1; 0; 0; 1]%Z]
    = Some (text, [IntList [1; 0; 0; 1]%Z])
    /\ length text = 2 * (2 + 1)
    /\ parse_solution (filter (fun c => c <> newline) text)
       = [1; 0; 0; 1]%Z.
Proof.
  apply (print_board_round_trip [IntList [1; 0; 0; 1]%Z] 0
           [1; 0; 0; 1]%Z 2); [reflexivity|reflexivity|].
  repeat constructor; (by left) || (by right).
Defined.

(** X2: [print_board] raises (IndexError) on a board with fewer than
    [n * n] cells. *)
Theorem print_board_short_board (h : heap) (lb : loc) (board : list Z)
  (n : nat) :
  h !! lb = Some (IntList board) -> length board < n * n ->
  print_board lb n h = None.
Proof.
  intros Hb Hlen. unfold print_board.
  change (for_each (range 0 n) _ []) with
    (for_each (range 0 n) (print_line lb n) []).
  unfold range at 1. rewrite Nat.sub_0_r.
  apply (print_lines_raise h lb board n Hb); simpl; lia.
Qed.

Lemma print_board_short_board_witness :
  length [1; 0; 0]%Z < 2 * 2
  /\ print_board 0 2 [IntList [1; 0; 0]%Z] = None.
Proof.
  split; [simpl; lia|].
  apply (print_board_short_board [IntList [1; 0; 0]%Z] 0 [1; 0; 0]%Z 2);
    [reflexivity|simpl; lia].
Defined.

(** ** [check_solution]: what it changes, and when it raises *)

Section VerifierEdges.

(** Two lists of one length with the same cells are equal. *)
Lemma cells_eq (a b : list Z) :
  length a = length b -> (forall j, j < length a -> cell a j = cell b j) ->
  a = b.
Proof.
  intros Hlen H. apply list_eq. intros j.
  destruct (decide (j < length a)) as [Hj|Hj].
  - destruct (lookup_lt_is_Some_2 a j Hj) as [x Hx].
    destruct (lookup_lt_is_Some_2 b j ltac:(lia)) as [y Hy].
    specialize (H j Hj).
    rewrite (cell_lookup _ _ _ Hx), (cell_lookup _ _ _ Hy) in H.
    by rewrite Hx, Hy, H.
  - by rewrite !lookup_ge_None_2 by lia.
Qed.

(** Pressing the same cells twice gives the board back. *)
Lemma replay_twice n sol (b : list Z) :
  0 < n -> length b = n * n ->
  replay n sol (range 0 (n * n)) (replay n sol (range 0 (n * n)) b) = b.
Proof.
  intros Hn Hb. apply cells_eq; [by rewrite !replay_length|].
  intros j _. unfold range. rewrite Nat.sub_0_r.
  rewrite !(replay_cell n Hn) by (rewrite ?replay_length; lia).
  by rewrite Z.lxor_assoc, Z.lxor_nilpotent, Z.lxor_0_r.
Qed.

(** A solution with no 1 among its first [n * n] cells presses
    nothing. *)
Lemma no_press_run (h : heap) lb ls sol n ks :
  h !! ls = Some (IntList sol) ->
  (forall i, i ∈ ks -> i < length sol /\ cell sol i <> 1%Z) ->
  for_ ks (press_body lb ls n) h = Some (tt, h).
Proof.
  intros Hs. induction ks as [|i ks IH]; intros Hks; [done|].
  cbn [for_]. destruct (Hks i ltac:(left)) as [Hi Hone].
  destruct (lookup_lt_is_Some_2 sol i Hi) as [v Hv].
  rewrite (cell_lookup _ _ _ Hv) in Hone.
  rewrite (run_bind _ _ _ tt h).
  - apply IH. intros j Hj. apply Hks. by right.
  - unfold press_body.
    rewrite (run_bind _ _ _ _ _ (get_int_run _ _ _ _ _ Hs Hv)).
    by rewrite (proj2 (Z.eqb_neq _ _)).
Qed.

(** The loop up to the first cell that the solution does not have. *)
Lemma presses_raise (h : heap) lb ls sol n :
  lb < length h -> lb <> ls -> h !! ls = Some (IntList sol) ->
  forall m k b,
    length b = n * n -> k <= length sol -> length sol < k + m ->
    k + m <= n * n ->
    for_ (seq k m) (press_body lb ls n) (<[lb := IntList b]> h) = None.
Proof.
  intros Hlb Hne Hs. induction m as [|m IH]; intros k b Hb Hlo Hhi Hm;
    [lia|].
  cbn [seq for_].
  destruct (decide (k = length sol)) as [->|Hk].
  - unfold bind at 1, press_body, bind at 1, get_int, bind.
    rewrite (ints_of_run _ _ sol)
      by (by rewrite list_lookup_insert_ne).
    by rewrite lookup_ge_None_2 by lia.
  - erewrite run_bind by (eapply press_body_run; eauto; lia).
    apply IH; [|lia|lia|lia].
    destruct (cell sol k =? 1)%Z; [by rewrite press_length|done].
Qed.

End VerifierEdges.

(** X3: a solution without a 1 among its first [n * n] cells (the
    all-zero solution for one) is a no-op: [check_solution] leaves the
    store as it is and returns true iff the board is all zero
    already. *)
Theorem check_solution_no_press (h : heap) (lb ls : loc)
  (board sol : list Z) (n : nat) :
  h !! lb = Some (IntList board) -> h !! ls = Some (IntList sol) ->
  n * n <= length sol ->
  (forall i, i < n * n -> cell sol i <> 1%Z) ->
  check_solution lb ls n h = Some (all_zero board, h).
Proof.
  intros Hb Hs Hlen Hzero. unfold check_solution.
  change (for_ (range 0 (n * n)) _) with
    (for_ (range 0 (n * n)) (press_body lb ls n)).
  rewrite (run_bind _ _ _ tt h).
  - by rewrite (run_bind _ _ _ _ _ (ints_of_run _ _ _ Hb)).
  - apply (no_press_run h lb ls sol n _ Hs). intros i Hi.
    unfold range in Hi. apply elem_of_seq in Hi.
    split; [lia|apply Hzero; lia].
Qed.

Lemma check_solution_no_press_witness :
  check_solution 0 1 2 [IntList [1; 0; 0; 0]%Z; IntList [0; 0; 0; 0]%Z]
  = Some (all_zero [1; 0; 0; 0]%Z,
          [IntList [1; 0; 0; 0]%Z; IntList [0; 0; 0; 0]%Z]).
Proof.
  apply (check_solution_no_press
           [IntList [1; 0; 0; 0]%Z; IntList [0; 0; 0; 0]%Z] 0 1
           [1; 0; 0; 0]%Z [0; 0; 0; 0]%Z 2);
    [reflexivity|reflexivity|simpl; lia|].
  intros i Hi. do 4 (destruct i as [|i]; [discriminate|]). simpl in Hi. lia.
Defined.

(** X4: [check_solution] undoes itself.  A second call with the same
    solution puts the store back as it was before the first call, and
    returns whether the board was all zero to begin with. *)
Theorem check_solution_twice (h : heap) (lb ls : loc) (board sol : list Z)
  (n : nat) :
  0 < n ->
  h !! lb = Some (IntList board) -> h !! ls = Some (IntList sol) ->
  lb <> ls -> length board = n * n -> n * n <= length sol ->
  exists ok h1,
    check_solution lb ls n h = Some (ok, h1)
    /\ check_solution lb ls n h1 = Some (all_zero board, h).
Proof.
  intros Hn Hb Hs Hne Lb Ls.
  assert (Hlb : lb < length h) by (by eapply lookup_lt_Some).
  set (b1 := replay n sol (range 0 (n * n)) board).
  exists (all_zero b1), (<[lb := IntList b1]> h).
  split; [by apply check_solution_run|].
  rewrite (check_solution_run _ lb ls sol b1 n).
  - fold b1. unfold b1. rewrite replay_twice by done.
    by rewrite list_insert_insert_eq, (list_insert_id _ _ _ Hb).
  - by apply list_lookup_insert_eq.
  - by rewrite list_lookup_insert_ne.
  - done.
  - unfold b1. by rewrite replay_length.
  - done.
Qed.

Lemma check_solution_twice_witness :
  exists ok h1,
    check_solution 0 1 2 [IntList [1; 0; 0; 1]%Z; IntList [1; 1; 0; 0]%Z]
    = Some (ok, h1)
    /\ check_solution 0 1 2 h1
       = Some (all_zero [1; 0; 0; 1]%Z,
               [IntList [1; 0; 0; 1]%Z; IntList [1; 1; 0; 0]%Z]).
Proof.
  apply (check_solution_twice
           [IntList [1; 0; 0; 1]%Z; IntList [1; 1; 0; 0]%Z] 0 1
           [1; 0; 0; 1]%Z [1; 1; 0; 0]%Z 2);
    (lia || reflexivity || discriminate || (simpl; lia)).
Defined.

(** X5: [check_solution] raises (IndexError) when the solution has fewer
    than [n * n] cells: the caller has to check the length first, as the
    handler does. *)
Theorem check_solution_short_solution (h : heap) (lb ls : loc)
  (board sol : list Z) (n : nat) :
  h !! lb = Some (IntList board) -> h !! ls = Some (IntList sol) ->
  lb <> ls -> length board = n * n -> length sol < n * n ->
  check_solution lb ls n h = None.
Proof.
  intros Hb Hs Hne Lb Ls.
  assert (Hlb : lb < length h) by (by eapply lookup_lt_Some).
  unfold check_solution.
  change (for_ (range 0 (n * n)) _) with
    (for_ (range 0 (n * n)) (press_body lb ls n)).
  unfold range. rewrite Nat.sub_0_r.
  pose proof (presses_raise h lb ls sol n Hlb Hne Hs (n * n) 0 board Lb
                ltac:(lia) ltac:(lia) ltac:(lia)) as Hraise.
  rewrite (list_insert_id _ _ _ Hb) in Hraise.
  unfold bind. by rewrite Hraise.
Qed.

Lemma check_solution_short_solution_witness :
  length [1; 1; 0]%Z < 2 * 2
  /\ check_solution 0 1 2 [IntList [1; 0; 0; 1]%Z; IntList [1; 1; 0]%Z]
     = None.
Proof.
  split; [simpl; lia|].
  apply (check_solution_short_solution
           [IntList [1; 0; 0; 1]%Z; IntList [1; 1; 0]%Z] 0 1
           [1; 0; 0; 1]%Z [1; 1; 0]%Z 2);
    (reflexivity || discriminate || (simpl; lia)).
Defined.

(** X6: [check_solution] writes to the board object only.  It allocates
    nothing, the board keeps its length, the solution and every other
    object are as they were, and the result says whether the board it
    leaves is all zero. *)
Theorem check_solution_frame (h : heap) (lb ls : loc) (board sol : list Z)
  (n : nat) :
  h !! lb = Some (IntList board) -> h !! ls = Some (IntList sol) ->
  lb <> ls -> length board = n * n -> n * n <= length sol ->
  exists ok h' board',
    check_solution lb ls n h = Some (ok, h')
    /\ length h' = length h
    /\ h' !! lb = Some (IntList board')
    /\ length board' = n * n
    /\ ok = all_zero board'
    /\ forall q, q <> lb -> h' !! q = h !! q.
Proof.
  intros Hb Hs Hne Lb Ls.
  assert (Hlb : lb < length h) by (by eapply lookup_lt_Some).
  eexists _, _, (replay n sol (range 0 (n * n)) board).
  split; [by apply check_solution_run|].
  split; [apply length_insert|].
  split; [by apply list_lookup_insert_eq|].
  split; [by rewrite replay_length|].
  split; [done|].
  intros q Hq. by apply list_lookup_insert_ne.
Qed.

Lemma check_solution_frame_witness :
  exists ok h' board',
    check_solution 0 1 2 [IntList [1; 0; 0; 1]%Z; IntList [1; 1; 0; 0]%Z]
    = Some (ok, h')
    /\ length h' = length [IntList [1; 0; 0; 1]%Z; IntList [1; 1; 0; 0]%Z]
    /\ h' !! 0 = Some (IntList board')
    /\ length board' = 2 * 2
    /\ ok = all_zero board'
    /\ forall q, q <> 0 ->
         h' !! q = [IntList [1; 0; 0; 1]%Z; IntList [1; 1; 0; 0]%Z] !! q.
Proof.
  apply (check_solution_frame
           [IntList [1; 0; 0; 1]%Z; IntList [1; 1; 0; 0]%Z] 0 1
           [1; 0; 0; 1]%Z [1; 1; 0; 0]%Z 2);
    (reflexivity || discriminate || (simpl; lia)).
Defined.

(** ** [gauss_jordan_elimination] on any matrix *)

Section Reduction.

Lemma bit_entries_bits M : bit_entries M -> bits M.
Proof.
  intros HM. apply Forall_lookup. intros i row Hrow.
  apply Forall_lookup. intros j v Hv.
  pose proof (HM i j) as Hb. unfold entry in Hb.
  by rewrite (list_lookup_total_correct _ _ _ Hrow),
    (cell_lookup _ _ _ Hv) in Hb.
Qed.

Lemma no_rows_raise (h : heap) (p : loc) :
  h !! p = Some (RefList []) -> gauss_jordan_elimination p h = None.
Proof.
  intros Hp. unfold gauss_jordan_elimination.
  rewrite (run_bind _ _ _ _ _ (len_refs_run _ _ _ Hp)).
  unfold bind at 1, get_ref.
  by rewrite (run_bind _ _ _ _ _ (refs_of_run _ _ _ Hp)).
Qed.

Lemma rows_permutation (ls ls' : list loc) :
  NoDup ls -> NoDup ls' -> (forall x, x ∈ ls' <-> x ∈ ls) -> ls' ≡ₚ ls.
Proof. intros H H' Hel. by apply NoDup_Permutation. Qed.

End Reduction.

(** X7: a matrix without rows makes [gauss_jordan_elimination] raise
    (IndexError at [matrix[0]]), and [is_solvable] with it. *)
Theorem gauss_jordan_elimination_no_rows (h : heap) (p : loc) :
  h !! p = Some (RefList []) ->
  gauss_jordan_elimination p h = None /\ is_solvable p h = None.
Proof.
  intros Hp.
  pose proof (no_rows_raise h p Hp) as Hrun.
  split; [done|]. unfold is_solvable, bind. by rewrite Hrun.
Qed.

Lemma gauss_jordan_elimination_no_rows_witness :
  gauss_jordan_elimination 1 [IntList [1; 0]%Z; RefList []] = None
  /\ is_solvable 1 [IntList [1; 0]%Z; RefList []] = None.
Proof.
  apply (gauss_jordan_elimination_no_rows [IntList [1; 0]%Z; RefList []] 1).
  reflexivity.
Defined.

(** X8: [gauss_jordan_elimination] keeps the solutions of the system.
    For a matrix object with at least one row and rows of one length, an
    assignment satisfies every row of the matrix the call leaves exactly
    when it satisfies every row of the matrix it was given. *)
Theorem gauss_jordan_elimination_keeps_solutions (h : heap) (p : loc)
  (ls : list loc) (M : list (list Z)) (cols : nat) :
  is_matrix h p ls M -> M <> [] -> rect cols M ->
  exists h' R,
    gauss_jordan_elimination p h = Some (p, h')
    /\ matrix_value h' p = Some R
    /\ forall x, sat R x <-> sat M x.
Proof.
  intros HM Hne Hrect.
  destruct (gauss_jordan_elimination_run h p ls M cols HM Hne Hrect)
    as (h' & ls' & Hrun & HM' & _).
  exists h', (reduce M).
  split; [done|]. split; [by eapply is_matrix_value|].
  intros x. by apply (sat_reduce cols).
Qed.

Lemma gauss_jordan_elimination_keeps_solutions_witness :
  exists h' R,
    gauss_jordan_elimination 2
      [IntList [1; 1; 0]%Z; IntList [1; 0; 1]%Z; RefList [0; 1]]
    = Some (2, h')
    /\ matrix_value h' 2 = Some R
    /\ forall x, sat R x <-> sat [[1; 1; 0]; [1; 0; 1]]%Z x.
Proof.
  apply (gauss_jordan_elimination_keeps_solutions
           [IntList [1; 1; 0]%Z; IntList [1; 0; 1]%Z; RefList [0; 1]]
           2 [0; 1] [[1; 1; 0]; [1; 0; 1]]%Z 3).
  - split; [reflexivity|]. split.
    + apply NoDup_cons. split; [|apply NoDup_singleton].
      intros Hin. apply list_elem_of_singleton in Hin. discriminate.
    + repeat constructor.
  - discriminate.
  - repeat constructor.
Defined.

(** X9: [gauss_jordan_elimination] leaves a 0/1 matrix in reduced
    row-echelon form over its coefficient columns (all but the last):
    the first rows hold the pivots, in increasing columns; a pivot is 1,
    the cells before it in its row and the other cells of its column
    are 0; the rows after the pivot rows are 0 in every coefficient
    column.  The cells stay 0 or 1. *)
Theorem gauss_jordan_elimination_rref (h : heap) (p : loc)
  (ls : list loc) (M : list (list Z)) (cols : nat) :
  is_matrix h p ls M -> M <> [] -> rect cols M -> bits M ->
  exists h' R ps,
    gauss_jordan_elimination p h = Some (p, h')
    /\ matrix_value h' p = Some R
    /\ echelon R ps (cols - 1)
    /\ bits R.
Proof.
  intros HM Hne Hrect Hbits.
  destruct (gauss_jordan_elimination_run h p ls M cols HM Hne Hrect)
    as (h' & ls' & Hrun & HM' & _).
  destruct (reduce_echelon cols M Hne (bits_entries _ Hbits) Hrect)
    as [ps Hps].
  exists h', (reduce M), ps.
  split; [done|]. split; [by eapply is_matrix_value|].
  split; [done|].
  apply bit_entries_bits.
  apply (bit_entries_reduce_from cols); [done|by apply bits_entries].
Qed.

Lemma gauss_jordan_elimination_rref_witness :
  exists h' R ps,
    gauss_jordan_elimination 2
      [IntList [1; 1; 0]%Z; IntList [1; 0; 1]%Z; RefList [0; 1]]
    = Some (2, h')
    /\ matrix_value h' 2 = Some R
    /\ echelon R ps (3 - 1)
    /\ bits R.
Proof.
  apply (gauss_jordan_elimination_rref
           [IntList [1; 1; 0]%Z; IntList [1; 0; 1]%Z; RefList [0; 1]]
           2 [0; 1] [[1; 1; 0]; [1; 0; 1]]%Z 3).
  - split; [reflexivity|]. split.
    + apply NoDup_cons. split; [|apply NoDup_singleton].
      intros Hin. apply list_elem_of_singleton in Hin. discriminate.
    + repeat constructor.
  - discriminate.
  - repeat constructor.
  - repeat constructor; (by left) || (by right).
Defined.

(** X10: what [gauss_jordan_elimination] touches.  It returns the object
    it was given and allocates nothing; the matrix keeps its row objects
    (in a new order) and its shape; every object that is neither the
    matrix nor one of its rows is as it was. *)
Theorem gauss_jordan_elimination_frame (h : heap) (p : loc)
  (ls : list loc) (M : list (list Z)) (cols : nat) :
  is_matrix h p ls M -> M <> [] -> rect cols M ->
  exists h' ls' R,
    gauss_jordan_elimination p h = Some (p, h')
    /\ is_matrix h' p ls' R
    /\ ls' ≡ₚ ls
    /\ length R = length M /\ rect cols R
    /\ length h' = length h
    /\ forall q, q <> p -> q ∉ ls -> h' !! q = h !! q.
Proof.
  intros HM Hne Hrect.
  destruct (gauss_jordan_elimination_run h p ls M cols HM Hne Hrect)
    as (h' & ls' & Hrun & HM' & Hel & Hlen & Hout).
  exists h', ls', (reduce M).
  split; [done|]. split; [done|].
  split; [apply rows_permutation; [apply HM|apply HM'|done]|].
  split; [apply reduce_length|]. split; [by apply reduce_rect|].
  split; [done|].
  intros q Hq Hls. apply Hout. intros Hin.
  apply elem_of_cons in Hin as [->|Hin]; done.
Qed.

Lemma gauss_jordan_elimination_frame_witness :
  exists h' ls' R,
    gauss_jordan_elimination 2
      [IntList [0; 1; 0]%Z; IntList [1; 0; 1]%Z; RefList [0; 1];
       IntList [1; 1]%Z]
    = Some (2, h')
    /\ is_matrix h' 2 ls' R
    /\ ls' ≡ₚ [0; 1]
    /\ length R = length [[0; 1; 0]; [1; 0; 1]]%Z /\ rect 3 R
    /\ length h'
       = length [IntList [0; 1; 0]%Z; IntList [1; 0; 1]%Z; RefList [0; 1];
                 IntList [1; 1]%Z]
    /\ forall q, q <> 2 -> q ∉ [0; 1] ->
         h' !! q
         = [IntList [0; 1; 0]%Z; IntList [1; 0; 1]%Z; RefList [0; 1];
            IntList [1; 1]%Z] !! q.
Proof.
  apply (gauss_jordan_elimination_frame
           [IntList [0; 1; 0]%Z; IntList [1; 0; 1]%Z; RefList [0; 1];
            IntList [1; 1]%Z]
           2 [0; 1] [[0; 1; 0]; [1; 0; 1]]%Z 3).
  - split; [reflexivity|]. split.
    + apply NoDup_cons. split; [|apply NoDup_singleton].
      intros Hin. apply list_elem_of_singleton in Hin. discriminate.
    + repeat constructor.
  - discriminate.
  - repeat constructor.
Defined.

(** ** [is_solvable] on any 0/1 system *)

Section Decision.

Lemma index_of_Some j ps :
  forall k, index_of j ps = Some k -> ps !! k = Some j.
Proof.
  induction ps as [|p ps IH]; intros k; simpl; [done|].
  destruct (Nat.eqb_spec p j) as [->|Hne].
  - by intros [= <-].
  - destruct (index_of j ps) as [k'|] eqn:E; simpl; [|done].
    intros [= <-]. simpl. by apply IH.
Qed.

Lemma index_of_lookup ps :
  increasing ps -> forall k p, ps !! k = Some p -> index_of p ps = Some k.
Proof.
  induction ps as [|q ps IH]; intros Hinc k p Hk;
    [by rewrite lookup_nil in Hk|].
  simpl. destruct k as [|k]; simpl in Hk.
  - injection Hk as ->. by rewrite Nat.eqb_refl.
  - assert (q < p) by (apply (Hinc 0 (S k) q p); [lia|done|done]).
    rewrite (proj2 (Nat.eqb_neq _ _)) by lia.
    rewrite (IH ltac:(intros a b x y Hab Ha Hb;
                      apply (Hinc (S a) (S b)); [lia|done|done]) k p Hk).
    done.
Qed.

Lemma particular_cell R ps C j :
  j < C ->
  cell (particular R ps C) j
  = match index_of j ps with
    | Some k => entry R k C
    | None => 0%Z
    end.
Proof.
  intros Hj. unfold particular. apply cell_lookup.
  by rewrite list_lookup_fmap, lookup_seq_lt by done.
Qed.

(** A reduced system without a contradiction row is solved by the
    assignment that reads the pivot columns off the augmented column. *)
Lemma particular_sat R ps C :
  echelon R ps C -> bit_entries R -> rect (C + 1) R ->
  consistent R = true ->
  sat R (assign C (particular R ps C)).
Proof.
  intros He HR Hrect Hcons.
  set (s := particular R ps C).
  assert (Hzero : forall i, length ps <= i -> entry R i C = 0%Z).
  { intros i Hi. destruct (decide (i < length R)) as [Hlt|Hge];
      [|apply entry_ge; lia].
    destruct (lookup_lt_is_Some_2 R i Hlt) as [row Hrow].
    pose proof (proj1 (Forall_lookup _ _) Hrect _ _ Hrow) as Hrowlen.
    pose proof (proj1 (consistent_rows R) Hcons i row Hrow) as Hc.
    apply bit_not_one; [apply HR|]. intros Hone.
    rewrite (proj2 (contradiction_row_true row C Hrowlen)) in Hc; [done|].
    unfold entry in Hone.
    rewrite (list_lookup_total_correct _ _ _ Hrow) in Hone.
    split; [done|]. intros j Hj.
    pose proof (ech_below _ _ _ He i j Hi Hj) as Hz. unfold entry in Hz.
    by rewrite (list_lookup_total_correct _ _ _ Hrow) in Hz. }
  assert (HC : assign C s C = true)
    by (unfold assign; by rewrite Nat.eqb_refl).
  assert (Hs : forall j, j < C -> assign C s j = (cell s j =? 1)%Z).
  { intros j Hj. unfold assign. by rewrite (proj2 (Nat.eqb_neq _ _)) by lia. }
  intros i row Hrow. rewrite (ev_entry R i row _ Hrow).
  rewrite (proj1 (Forall_lookup _ _) Hrect _ _ Hrow).
  destruct (decide (i < length ps)) as [Hips|Hips].
  - destruct (lookup_lt_is_Some_2 ps i Hips) as [p Hp].
    destruct (ech_pivot _ _ _ He i p Hp) as (HpC & Hone & _ & _).
    rewrite (xsum_pair _ (C + 1) p C); [|lia|lia|lia|].
    + rewrite HC, Hs, Hone by done. unfold s.
      rewrite particular_cell by done.
      rewrite (index_of_lookup ps (ech_sorted _ _ _ He) i p Hp).
      simpl. destruct (HR i C) as [-> | ->]; reflexivity.
    + intros j Hj Hjp HjC. rewrite Hs by lia. unfold s.
      rewrite particular_cell by lia.
      destruct (index_of j ps) as [k|] eqn:Ek; [|done].
      apply index_of_Some in Ek.
      destruct (ech_pivot _ _ _ He k j Ek) as (_ & _ & _ & Hother).
      rewrite (Hother i); [apply pick_zero|]. intros ->. congruence.
  - rewrite (xsum_single _ (C + 1) C); [|lia|].
    + rewrite Hzero by lia. apply pick_zero.
    + intros j Hj Hne.
      rewrite (ech_below _ _ _ He i j) by lia. apply pick_zero.
Qed.

End Decision.

(** X11: [is_solvable] decides solvability of any 0/1 system, not only
    of the systems of the game.  For a matrix object with at least one
    row, rows of [C + 1] cells that are 0 or 1 and distinct row objects,
    it returns true exactly when some assignment that selects the
    augmented column [C] satisfies every row, that is, when the system
    of the coefficient columns with the last column as right-hand side
    has a solution over GF(2). *)
Theorem is_solvable_decides (h : heap) (p : loc) (ls : list loc)
  (M : list (list Z)) (C : nat) :
  is_matrix h p ls M -> M <> [] -> rect (C + 1) M -> bits M ->
  exists ok h',
    is_solvable p h = Some (ok, h')
    /\ (ok = true <-> exists x, x C = true /\ sat M x).
Proof.
  intros HM Hne Hrect Hbits.
  destruct (is_solvable_run h p ls M (C + 1) HM Hne Hrect ltac:(lia))
    as (h' & ls' & Hrun & _).
  exists (consistent (reduce M)), h'. split; [done|].
  split.
  - intros Hcons.
    destruct (reduce_echelon (C + 1) M Hne (bits_entries _ Hbits) Hrect)
      as [ps Hps].
    replace (C + 1 - 1) with C in Hps by lia.
    exists (assign C (particular (reduce M) ps C)). split.
    + unfold assign. by rewrite Nat.eqb_refl.
    + apply (sat_reduce (C + 1)); [done|].
      apply particular_sat; [done| |by apply reduce_rect|done].
      apply (bit_entries_reduce_from (C + 1)); [done|by apply bits_entries].
  - intros (x & HxC & Hsat).
    apply (sat_consistent C _ x); [by apply reduce_rect| |done].
    by apply (sat_reduce (C + 1)).
Qed.

Lemma is_solvable_decides_witness :
  exists ok h',
    is_solvable 2
      [IntList [1; 1; 0]%Z; IntList [1; 1; 1]%Z; RefList [0; 1]]
    = Some (ok, h')
    /\ (ok = true <->
        exists x, x 2 = true /\ sat [[1; 1; 0]; [1; 1; 1]]%Z x).
Proof.
  apply (is_solvable_decides
           [IntList [1; 1; 0]%Z; IntList [1; 1; 1]%Z; RefList [0; 1]]
           2 [0; 1] [[1; 1; 0]; [1; 1; 1]]%Z 2).
  - split; [reflexivity|]. split.
    + apply NoDup_cons. split; [|apply NoDup_singleton].
      intros Hin. apply list_elem_of_singleton in Hin. discriminate.
    + repeat constructor.
  - discriminate.
  - repeat constructor.
  - repeat constructor; (by left) || (by right).
Defined.

(** X12: rows without columns.  [gauss_jordan_elimination] has no column
    to visit and returns the matrix with the store as it was, and
    [is_solvable] raises (IndexError at [row[-1]]). *)
Theorem is_solvable_no_columns (h : heap) (p : loc) (ls : list loc)
  (M : list (list Z)) :
  is_matrix h p ls M -> M <> [] -> rect 0 M ->
  gauss_jordan_elimination p h = Some (p, h) /\ is_solvable p h = None.
Proof.
  intros (Hp & Hnd & Hrows) Hne Hrect.
  destruct Hrows as [|l0 row0 ls' M' Hl0 Hrows]; [done|].
  apply Forall_cons in Hrect as [Hrow0 _].
  apply nil_length_inv in Hrow0 as ->.
  assert (Hrun : gauss_jordan_elimination p h = Some (p, h)).
  { unfold gauss_jordan_elimination.
    rewrite (run_bind _ _ _ _ _ (len_refs_run _ _ _ Hp)).
    rewrite (run_bind _ _ _ _ _ (get_ref_run _ _ _ 0 l0 Hp eq_refl)).
    by rewrite (run_bind _ _ _ _ _ (len_ints_run _ _ _ Hl0)). }
  split; [done|].
  unfold is_solvable.
  rewrite (run_bind _ _ _ _ _ Hrun).
  rewrite (run_bind _ _ _ _ _ (refs_of_run _ _ _ Hp)).
  assert (Hlast : last_int l0 h = None).
  { unfold last_int. by rewrite (run_bind _ _ _ _ _ (ints_of_run _ _ _ Hl0)). }
  cbn [for_each]. unfold bind. by rewrite Hlast.
Qed.

Lemma is_solvable_no_columns_witness :
  gauss_jordan_elimination 2 [IntList []; IntList []; RefList [0; 1]]
  = Some (2, [IntList []; IntList []; RefList [0; 1]])
  /\ is_solvable 2 [IntList []; IntList []; RefList [0; 1]] = None.
Proof.
  apply (is_solvable_no_columns
           [IntList []; IntList []; RefList [0; 1]] 2 [0; 1] [[]; []]).
  - split; [reflexivity|]. split.
    + apply NoDup_cons. split; [|apply NoDup_singleton].
      intros Hin. apply list_elem_of_singleton in Hin. discriminate.
    + repeat constructor.
  - discriminate.
  - repeat constructor.
Defined.

(** ** [create_augmented_matrix] and the edges of [get_solution] *)

Section Augmenting.

Lemma augment_rows_raise (g : heap) board b :
  g !! board = Some (IntList b) ->
  forall vs V, Forall2 (fun l v => g !! l = Some (IntList v)) vs V ->
  forall k done, k <= length b -> length b < k + length V ->
  comprehension (imap (fun i vec => (k + i, vec)) vs) (augment_row board)
    (g ++ done)
  = None.
Proof.
  intros Hb vs V HV.
  induction HV as [|l v vs V Hl HV IH]; intros k done Hlo Hhi;
    [simpl in Hhi; lia|].
  simpl in Hhi. rewrite imap_cons. cbn [comprehension].
  assert (Hl' : (g ++ done) !! l = Some (IntList v))
    by (by rewrite lookup_app_l by (by eapply lookup_lt_Some)).
  assert (Hb' : (g ++ done) !! board = Some (IntList b))
    by (by rewrite lookup_app_l by (by eapply lookup_lt_Some)).
  destruct (decide (k < length b)) as [Hlt|Hge].
  - destruct (lookup_lt_is_Some_2 b k Hlt) as [x Hx].
    assert (Hrow : augment_row board (k + 0, l) (g ++ done)
                   = Some (length (g ++ done),
                           (g ++ done) ++ [IntList (v ++ [x])])).
    { unfold augment_row. cbn [fst snd].
      rewrite (run_bind _ _ _ _ _ (ints_of_run _ _ _ Hl')).
      rewrite Nat.add_0_r.
      by rewrite (run_bind _ _ _ _ _ (get_int_run _ _ _ _ _ Hb' Hx)). }
    rewrite (run_bind _ _ _ _ _ Hrow).
    rewrite (imap_ext _ (fun i vec => (S k + i, vec)))
      by (intros; simpl; f_equal; lia).
    rewrite <- app_assoc. unfold bind at 1.
    by rewrite (IH (S k) (done ++ [IntList (v ++ [x])])) by lia.
  - assert (Hrow : augment_row board (k + 0, l) (g ++ done) = None).
    { unfold augment_row. cbn [fst snd].
      rewrite (run_bind _ _ _ _ _ (ints_of_run _ _ _ Hl')).
      rewrite Nat.add_0_r. unfold bind at 1, get_int.
      rewrite (run_bind _ _ _ _ _ (ints_of_run _ _ _ Hb')).
      by rewrite lookup_ge_None_2 by lia. }
    unfold bind. by rewrite Hrow.
Qed.

Lemma create_augmented_matrix_raise (g : heap) vectors board vs V b :
  g !! vectors = Some (RefList vs) ->
  Forall2 (fun l v => g !! l = Some (IntList v)) vs V ->
  g !! board = Some (IntList b) ->
  length b < length V ->
  create_augmented_matrix vectors board g = None.
Proof.
  intros Hv HV Hb Hlen. unfold create_augmented_matrix.
  rewrite (run_bind _ _ _ _ _ (refs_of_run _ _ _ Hv)).
  pose proof (augment_rows_raise g board b Hb vs V HV 0 [] ltac:(lia)
                ltac:(lia)) as Hrows.
  rewrite app_nil_r in Hrows. simpl in Hrows.
  change (comprehension _ _) with
    (comprehension (imap (fun i vec => (i, vec)) vs) (augment_row board)).
  unfold bind. by rewrite Hrows.
Qed.

Lemma get_solution_zero (h : heap) (board : loc) :
  get_solution board 0 h = None.
Proof.
  unfold get_solution.
  rewrite (run_bind _ _ _ _ _ (create_vector_representations_run 0 h)).
  assert (Haug : create_augmented_matrix (length h) board
                   (vectors_heap 0 h (0 * 0))
                 = Some (length h + 1, h ++ [RefList []; RefList []])).
  { unfold create_augmented_matrix.
    rewrite (run_bind _ _ _ _ _
               (refs_of_run _ _ _ (vectors_heap_collection 0 h (0 * 0)))).
    simpl. unfold bind, ret, new_refs, vectors_heap. simpl.
    rewrite length_app. simpl. by rewrite <- app_assoc. }
  rewrite (run_bind _ _ _ _ _ Haug).
  unfold bind at 1, is_solvable, bind at 1.
  rewrite (no_rows_raise _ (length h + 1)); [done|].
  rewrite lookup_app_r by lia.
  by replace (length h + 1 - length h) with 1 by lia.
Qed.

End Augmenting.

(** X13: [create_augmented_matrix] builds a new matrix of new rows.  For a
    collection of vectors and a board with at least as many cells, row
    [i] of the result is vector [i] followed by [board[i]]; the matrix
    and its rows are objects that did not exist before, pairwise
    distinct, and the vectors, the board and every other object are as
    they were.  Cells of the board past the number of vectors are not
    used. *)
Theorem create_augmented_matrix_builds (h : heap) (vectors board : loc)
  (vs : list loc) (V : list (list Z)) (b : list Z) :
  h !! vectors = Some (RefList vs) ->
  Forall2 (fun l v => h !! l = Some (IntList v)) vs V ->
  h !! board = Some (IntList b) ->
  length V <= length b ->
  exists p h' ls M,
    create_augmented_matrix vectors board h = Some (p, h')
    /\ is_matrix h' p ls M
    /\ length M = length V
    /\ (forall i v x, V !! i = Some v -> b !! i = Some x ->
          M !! i = Some (v ++ [x]))
    /\ (forall l, l ∈ p :: ls -> length h <= l)
    /\ (forall q, q < length h -> h' !! q = h !! q).
Proof.
  intros Hv HV Hb Hlen.
  pose proof (create_augmented_matrix_run h vectors board vs V b Hv HV Hb
                Hlen) as Hrun.
  pose proof (fresh_matrix h (augment V b)) as HM.
  rewrite augment_length in HM by done.
  eexists _, _, _, (augment V b).
  split; [exact Hrun|]. split; [exact HM|].
  split; [by apply augment_length|].
  split; [intros i v x; apply augment_lookup|].
  split.
  - intros l Hin. apply elem_of_cons in Hin as [->|Hin]; [lia|].
    apply elem_of_seq in Hin. lia.
  - intros q Hq. by rewrite lookup_app_l.
Qed.

Lemma create_augmented_matrix_builds_witness :
  exists p h' ls M,
    create_augmented_matrix 2 3
      [IntList [1; 1]%Z; IntList [1; 1]%Z; RefList [0; 1];
       IntList [0; 1; 1]%Z]
    = Some (p, h')
    /\ is_matrix h' p ls M
    /\ length M = length [[1; 1]; [1; 1]]%Z
    /\ (forall i v x, [[1; 1]; [1; 1]]%Z !! i = Some v ->
          [0; 1; 1]%Z !! i = Some x -> M !! i = Some (v ++ [x]))
    /\ (forall l, l ∈ p :: ls ->
          length [IntList [1; 1]%Z; IntList [1; 1]%Z; RefList [0; 1];
                  IntList [0; 1; 1]%Z] <= l)
    /\ (forall q,
          q < length [IntList [1; 1]%Z; IntList [1; 1]%Z; RefList [0; 1];
                      IntList [0; 1; 1]%Z] ->
          h' !! q
          = [IntList [1; 1]%Z; IntList [1; 1]%Z; RefList [0; 1];
             IntList [0; 1; 1]%Z] !! q).
Proof.
  apply (create_augmented_matrix_builds
           [IntList [1; 1]%Z; IntList [1; 1]%Z; RefList [0; 1];
            IntList [0; 1; 1]%Z]
           2 3 [0; 1] [[1; 1]; [1; 1]]%Z [0; 1; 1]%Z).
  - reflexivity.
  - repeat constructor.
  - reflexivity.
  - simpl. lia.
Defined.

(** X14: [create_augmented_matrix] raises (IndexError at [board[i]]) when
    the board has fewer cells than there are vectors. *)
Theorem create_augmented_matrix_short_board (h : heap)
  (vectors board : loc) (vs : list loc) (V : list (list Z)) (b : list Z) :
  h !! vectors = Some (RefList vs) ->
  Forall2 (fun l v => h !! l = Some (IntList v)) vs V ->
  h !! board = Some (IntList b) ->
  length b < length V ->
  create_augmented_matrix vectors board h = None.
Proof. apply create_augmented_matrix_raise. Qed.

Lemma create_augmented_matrix_short_board_witness :
  length [1]%Z < length [[1; 1]; [1; 1]]%Z
  /\ create_augmented_matrix 2 3
       [IntList [1; 1]%Z; IntList [1; 1]%Z; RefList [0; 1]; IntList [1]%Z]
     = None.
Proof.
  split; [simpl; lia|].
  apply (create_augmented_matrix_short_board
           [IntList [1; 1]%Z; IntList [1; 1]%Z; RefList [0; 1];
            IntList [1]%Z]
           2 3 [0; 1] [[1; 1]; [1; 1]]%Z [1]%Z).
  - reflexivity.
  - repeat constructor.
  - reflexivity.
  - simpl. lia.
Defined.

(** X15: [get_solution] raises for [n = 0], whatever the board and the
    store: the matrix it builds has no rows, and [is_solvable] reads
    [matrix[0]]. *)
Theorem get_solution_size_zero (h : heap) (board : loc) :
  get_solution board 0 h = None.
Proof. apply get_solution_zero. Qed.

(** X16: [get_solution] raises (IndexError in [create_augmented_matrix])
    when the board has fewer than [n * n] cells. *)
Theorem get_solution_short_board (h : heap) (lb : loc) (board : list Z)
  (n : nat) :
  h !! lb = Some (IntList board) -> length board < n * n ->
  get_solution lb n h = None.
Proof.
  intros Hb Hlen.
  assert (Hlb : lb < length h) by (by eapply lookup_lt_Some).
  unfold get_solution.
  rewrite (run_bind _ _ _ _ _ (create_vector_representations_run n h)).
  unfold bind at 1.
  rewrite (create_augmented_matrix_raise (vectors_heap n h (n * n))
             (length h) lb (seq (S (length h)) (n * n)) (toggle_matrix n)
             board); [done| | | |].
  - apply vectors_heap_collection.
  - apply vectors_heap_rows.
  - by rewrite vectors_heap_old.
  - by rewrite toggle_matrix_length.
Qed.

Lemma get_solution_short_board_witness :
  length [1; 0; 1]%Z < 2 * 2
  /\ get_solution 0 2 [IntList [1; 0; 1]%Z] = None.
Proof.
  split; [simpl; lia|].
  apply (get_solution_short_board [IntList [1; 0; 1]%Z] 0 [1; 0; 1]%Z 2).
  - reflexivity.
  - simpl. lia.
Defined.

(** ** The handler: replies, turns of the loop, sessions *)

Section Handler.

Lemma solves_all_zero n (b : list Z) user_input :
  length b = n * n ->
  solves n b user_input <->
  length user_input = n * n
  /\ all_zero (replay n (parse_solution user_input) (range 0 (n * n)) b)
     = true.
Proof.
  intros Hb. unfold solves.
  rewrite (zeros_cells _ (n * n)) by (by rewrite replay_length).
  by rewrite all_zero_cells, replay_length, Hb.
Qed.

Lemma handle_reply_run (h : heap) lb (b : list Z) n user_input :
  h !! lb = Some (IntList b) -> length b = n * n ->
  exists r h',
    handle_reply lb n user_input h = Some (r, h')
    /\ (r = Flag <-> solves n b user_input)
    /\ (forall q, q < length h -> h' !! q = h !! q).
Proof.
  intros Hb Lb.
  assert (Hlb : lb < length h) by (by eapply lookup_lt_Some).
  setoid_rewrite (solves_all_zero n b user_input Lb).
  set (ps := parse_solution user_input).
  assert (Lps : length ps = length user_input)
    by (unfold ps, parse_solution; apply length_map).
  set (h1 := h ++ [IntList ps]).
  unfold handle_reply, handle_reply_with. fold ps.
  rewrite (run_bind _ _ _ (length h) h1) by reflexivity.
  assert (Hsize : len (length h) h1 = Some (length ps, h1))
    by apply len_ints_run, lookup_fresh.
  rewrite (run_bind _ _ _ _ _ Hsize).
  destruct (Nat.eqb_spec (length ps) (n * n)) as [Heq|Hne].
  - set (h2 := h1 ++ [IntList b]).
    assert (L1 : length h1 = length h + 1)
      by (unfold h1; rewrite length_app; simpl; lia).
    assert (Hcopy : copy_list lb h1 = Some (length h1, h2)).
    { unfold copy_list.
      rewrite (run_bind _ _ _ b h1); [done|].
      apply ints_of_run. unfold h1. by rewrite lookup_app_l. }
    rewrite run_bind_assoc, (run_bind _ _ _ _ _ Hcopy).
    rewrite (run_bind _ _ _ _ _
               (check_solution_run h2 (length h1) (length h) ps b n
                  (lookup_fresh h1 _)
                  ltac:(unfold h2; rewrite lookup_app_l by lia;
                        apply lookup_fresh)
                  ltac:(lia) Lb ltac:(lia))).
    destruct (all_zero (replay n ps (range 0 (n * n)) b)) eqn:Hz.
    + eexists Flag, _. split; [reflexivity|]. split.
      * split; [intros _; split; [lia|done]|done].
      * intros q Hq. rewrite list_lookup_insert_ne by lia.
        unfold h2, h1. by rewrite !lookup_app_l by (rewrite ?length_app; lia).
    + eexists Incorrect, _. split; [reflexivity|]. split.
      * split; [done|]. by intros [_ ?].
      * intros q Hq. rewrite list_lookup_insert_ne by lia.
        unfold h2, h1. by rewrite !lookup_app_l by (rewrite ?length_app; lia).
  - exists Incorrect, h1. split; [reflexivity|]. split.
    + split; [done|]. intros [? _]. lia.
    + intros q Hq. unfold h1. by rewrite lookup_app_l.
Qed.

Lemma draws_run (draw : nat -> Z) ks (h : heap) :
  comprehension ks (fun k => ret (draw k)) h = Some (map draw ks, h).
Proof.
  induction ks as [|k ks IH]; [done|]. cbn [comprehension].
  rewrite (run_bind _ _ _ (draw k) h) by reflexivity.
  by rewrite (run_bind _ _ _ _ _ IH).
Qed.

Lemma generate_random_board_run draw n (h : heap) :
  generate_random_board draw n h
  = Some (length h, h ++ [IntList (drawn draw n)]).
Proof.
  unfold generate_random_board, range. rewrite Nat.sub_0_r.
  by rewrite (run_bind _ _ _ _ _ (draws_run draw _ h)).
Qed.

Lemma drawn_length draw n : length (drawn draw n) = n * n.
Proof. unfold drawn. by rewrite length_map, length_seq. Qed.

Lemma drawn_bits draw n : (forall k, bit (draw k)) -> Forall bit (drawn draw n).
Proof. intros H. unfold drawn. apply Forall_map, Forall_forall. auto. Qed.

(** A line that solves the board shows that the system has a solution. *)
Lemma solves_solvable n (b : list Z) user_input :
  0 < n -> length b = n * n -> solves n b user_input ->
  is_Some (solution_of b n).
Proof.
  intros Hn Lb Hs. apply (solves_all_zero n b user_input Lb) in Hs as [_ Hz].
  apply (replay_sat n Hn) in Hz; [|done].
  apply (solution_of_complete n b _ Hz).
  unfold assign. by rewrite Nat.eqb_refl.
Qed.

(** The solution the solver finds, written with the glyphs of the
    protocol, solves the board. *)
Lemma solution_solves n (b s : list Z) :
  0 < n -> length b = n * n -> Forall bit b ->
  solution_of b n = Some s -> solves n b (map glyph s).
Proof.
  intros Hn Lb Hbits Hs.
  destruct (solution_of_sound n Hn b Lb Hbits s Hs) as (Hsat & Ls & Hbs).
  apply (solves_all_zero n b _ Lb). split; [by rewrite length_map|].
  rewrite parse_glyphs by done. by apply (replay_sat n Hn).
Qed.

Lemma round_size (e : round_env) sent (h : heap) r :
  round e sent h = Some r -> 0 < env_n e.
Proof.
  intros Hrun. destruct (env_n e) as [|n] eqn:E; [exfalso|lia].
  unfold round in Hrun. rewrite E in Hrun.
  rewrite (run_bind _ _ _ _ _ (generate_random_board_run _ 0 h)) in Hrun.
  unfold bind in Hrun. by rewrite get_solution_zero in Hrun.
Qed.

Lemma round_run (e : round_env) sent (h : heap) :
  0 < env_n e ->
  exists h',
    (forall q, q < length h -> h' !! q = h !! q)
    /\ match solution_of (drawn (env_draw e) (env_n e)) (env_n e) with
       | None => round e sent h = Some (Next sent, h')
       | Some _ =>
           match env_input e with
           | TimedOut =>
               round e sent h
               = Some (Next (sent
                               ++ shown (drawn (env_draw e) (env_n e))
                                    (env_n e)
                               ++ [TimeoutNotice]), h')
           | Undecodable => round e sent h = None
           | Line user_input =>
               (solves (env_n e) (drawn (env_draw e) (env_n e)) user_input
                /\ round e sent h
                   = Some (Break (sent
                                    ++ shown (drawn (env_draw e) (env_n e))
                                         (env_n e)
                                    ++ [FlagText]), h'))
               \/ (~ solves (env_n e) (drawn (env_draw e) (env_n e))
                       user_input
                   /\ round e sent h
                      = Some (Next (sent
                                      ++ shown (drawn (env_draw e) (env_n e))
                                           (env_n e)
                                      ++ [IncorrectNotice]), h'))
           end
       end.
Proof.
  intros Hn.
  set (n := env_n e) in *. set (board := drawn (env_draw e) n).
  assert (Lb : length board = n * n) by apply drawn_length.
  set (h1 := h ++ [IntList board]).
  assert (L1 : length h1 = length h + 1)
    by (unfold h1; rewrite length_app; simpl; lia).
  destruct (get_solution_run h1 (length h) board n (lookup_fresh h _) Hn
              ltac:(lia)) as (r & h2 & Hrun & Hold & Hr).
  assert (Hb2 : h2 !! length h = Some (IntList board)).
  { rewrite Hold by lia. apply lookup_fresh. }
  assert (Hold2 : forall q, q < length h -> h2 !! q = h !! q).
  { intros q Hq. rewrite Hold by lia. unfold h1. by rewrite lookup_app_l. }
  unfold round. fold n.
  rewrite (run_bind _ _ _ _ _ (generate_random_board_run _ n h)).
  fold board. fold h1. rewrite (run_bind _ _ _ _ _ Hrun).
  destruct r as [l|].
  - destruct Hr as (s & Hs & _). rewrite Hs.
    rewrite (run_bind _ _ _ _ _
               (print_board_run h2 (length h) board n Hb2 ltac:(lia))).
    destruct (env_input e) as [| |user_input].
    + exists h2. by split.
    + exists h. by split.
    + destruct (handle_reply_run h2 (length h) board n user_input Hb2 Lb)
        as (a & h3 & Hrep & Hiff & Hold3).
      rewrite (run_bind _ _ _ _ _ Hrep).
      assert (Hframe : forall q, q < length h -> h3 !! q = h !! q).
      { intros q Hq. rewrite Hold3; [by apply Hold2|].
        apply lookup_lt_is_Some. rewrite Hold2 by done.
        by apply lookup_lt_is_Some. }
      exists h3. split; [done|]. destruct a.
      * left. split; [by apply Hiff|done].
      * right. split; [|done]. intros Hsol. by apply Hiff in Hsol.
  - rewrite Hr. exists h2. by split.
Qed.

(** A turn returns unless a board was shown and the line does not
    decode. *)
Lemma round_returns (e : round_env) sent (h : heap) :
  0 < env_n e -> env_input e <> Undecodable ->
  exists c h', round e sent h = Some (c, h').
Proof.
  intros Hn Hdec. destruct (round_run e sent h Hn) as (h' & _ & Hc).
  destruct (solution_of _ _); [|by eexists _, _].
  destruct (env_input e) as [| |user_input]; [by eexists _, _|done|].
  destruct Hc as [[_ Hc]|[_ Hc]]; by eexists _, _.
Qed.

Lemma flag_in sent (b : list Z) n m :
  m <> FlagText -> FlagText ∈ sent ++ shown b n ++ [m] -> FlagText ∈ sent.
Proof.
  intros Hm Hin. unfold shown in Hin. simpl in Hin.
  rewrite elem_of_app, !elem_of_cons, elem_of_nil in Hin.
  destruct Hin as [?|[?|[?|[?|[?|[]]]]]]; done.
Qed.

Lemma no_flag sent (b : list Z) n m :
  FlagText ∉ sent -> m <> FlagText -> FlagText ∉ sent ++ shown b n ++ [m].
Proof. intros Hsent Hm Hin. by apply Hsent, (flag_in sent b n m). Qed.

(** A turn only adds to what was sent. *)
Lemma round_extends (e : round_env) sent (h : heap) c h' :
  round e sent h = Some (c, h') ->
  exists more, c = Next (sent ++ more) \/ c = Break (sent ++ more).
Proof.
  intros Hrun. pose proof (round_size _ _ _ _ Hrun) as Hn.
  destruct (round_run e sent h Hn) as (h1 & _ & Hc).
  rewrite Hrun in Hc.
  destruct (solution_of _ _).
  - destruct (env_input e) as [| |user_input].
    + injection Hc as -> _. eexists. by left.
    + done.
    + destruct Hc as [[_ [= -> _]]|[_ [= -> _]]]; eexists; [by right|by left].
  - injection Hc as -> _. exists []. left. by rewrite app_nil_r.
Qed.

Lemma session_runs envs :
  Forall (fun e => 0 < env_n e /\ env_input e <> Undecodable) envs ->
  forall sent (h : heap),
  exists more h', for_each envs round sent h = Some (sent ++ more, h').
Proof.
  induction 1 as [|e envs [Hn Hdec] _ IH]; intros sent h.
  { exists [], h. by rewrite app_nil_r. }
  destruct (round_returns e sent h Hn Hdec) as (c & h1 & Hrun).
  destruct (round_extends _ _ _ _ _ Hrun) as [more [-> | ->]].
  - destruct (IH (sent ++ more) h1) as (more' & h' & Hrest).
    exists (more ++ more'), h'. cbn [for_each].
    rewrite (run_bind _ _ _ _ _ Hrun). by rewrite app_assoc.
  - exists more, h1. cbn [for_each]. by rewrite (run_bind _ _ _ _ _ Hrun).
Qed.

(** The turns of the loop from a state in which the flag has not been
    sent. *)
Lemma session_from envs : forall sent (h : heap) msgs h',
  for_each envs round sent h = Some (msgs, h') ->
  FlagText ∉ sent -> FlagText ∈ msgs ->
  last msgs = Some FlagText
  /\ exists e user_input,
       e ∈ envs /\ env_input e = Line user_input
       /\ solves (env_n e) (drawn (env_draw e) (env_n e)) user_input.
Proof.
  induction envs as [|e envs IH]; intros sent h msgs h' Hrun Hsent Hin.
  { injection Hrun as <- <-. done. }
  cbn [for_each] in Hrun.
  apply run_bind_inv in Hrun as (c & h1 & Hround & Hrest).
  pose proof (round_size _ _ _ _ Hround) as Hn.
  destruct (round_run e sent h Hn) as (h1' & _ & Hc).
  rewrite Hround in Hc.
  assert (Hnext : forall sent', FlagText ∉ sent' -> c = Next sent' ->
            last msgs = Some FlagText
            /\ exists e0 user_input,
                 e0 ∈ e :: envs /\ env_input e0 = Line user_input
                 /\ solves (env_n e0) (drawn (env_draw e0) (env_n e0))
                      user_input).
  { intros sent' Hsent' ->.
    destruct (IH _ _ _ _ Hrest Hsent' Hin) as (Hlast & e0 & inp & He0 & H0).
    split; [done|]. exists e0, inp. split; [by right|done]. }
  destruct (solution_of _ _).
  2:{ injection Hc as Hc _. by apply (Hnext sent). }
  destruct (env_input e) as [| |user_input] eqn:Einp.
  - injection Hc as Hc _. eapply Hnext; [|exact Hc]. by apply no_flag.
  - done.
  - destruct Hc as [[Hsol [= -> _]]|[_ [= Hc _]]].
    + injection Hrest as <- <-. split.
      * by rewrite last_app.
      * exists e, user_input. split; [by left|done].
    + eapply Hnext; [|exact Hc]. by apply no_flag.
Qed.

End Handler.

(** X17: the reply to a line.  For a board of [n * n] cells the handler
    answers with the flag exactly when the line has [n * n] characters
    and pressing the cells it marks with [#] turns every light off; any
    line is answered, none makes the handler raise.  The verifier works
    on the copy [board[:]]: the board and every other object that
    existed are as they were. *)
Theorem handle_reply_flag_iff_solves (h : heap) (lb : loc)
  (board : list Z) (n : nat) (user_input : list char) :
  h !! lb = Some (IntList board) -> length board = n * n ->
  exists r h',
    handle_reply lb n user_input h = Some (r, h')
    /\ (r = Flag <-> solves n board user_input)
    /\ (forall q, q < length h -> h' !! q = h !! q).
Proof. apply handle_reply_run. Qed.

Lemma handle_reply_flag_iff_solves_witness :
  exists r h',
    handle_reply 0 3 (chars_of "..##...#."%string)
      [IntList [1; 1; 1; 1; 0; 1; 0; 1; 1]%Z]
    = Some (r, h')
    /\ (r = Flag <->
        solves 3 [1; 1; 1; 1; 0; 1; 0; 1; 1]%Z
          (chars_of "..##...#."%string))
    /\ (forall q, q < length [IntList [1; 1; 1; 1; 0; 1; 0; 1; 1]%Z] ->
          h' !! q = [IntList [1; 1; 1; 1; 0; 1; 0; 1; 1]%Z] !! q).
Proof.
  apply (handle_reply_flag_iff_solves
           [IntList [1; 1; 1; 1; 0; 1; 0; 1; 1]%Z] 0
           [1; 1; 1; 1; 0; 1; 0; 1; 1]%Z 3 (chars_of "..##...#."%string));
    reflexivity.
Defined.

(** X18: one turn of the loop, for a receive that times out or returns
    a line that decodes.  The code of the turn raises nothing, whatever
    the draws, the length and the content of the line; it sends the flag
    and leaves the loop exactly when a line was received that solves the
    board of this turn.  The flag then follows the board and the prompt;
    a turn that goes on to the next board sends no flag. *)
Theorem round_flag_iff_solved (e : round_env) (sent : list message)
  (h : heap) :
  0 < env_n e -> env_input e <> Undecodable ->
  exists c h',
    round e sent h = Some (c, h')
    /\ ((exists s', c = Break s') <->
        exists user_input,
          env_input e = Line user_input
          /\ solves (env_n e) (drawn (env_draw e) (env_n e)) user_input)
    /\ (forall s', c = Break s' ->
          s' = sent ++ shown (drawn (env_draw e) (env_n e)) (env_n e)
                 ++ [FlagText])
    /\ (forall s', c = Next s' -> FlagText ∈ s' -> FlagText ∈ sent).
Proof.
  intros Hn Hdec.
  destruct (round_run e sent h Hn) as (h' & _ & Hc).
  destruct (solution_of _ _) eqn:Hsol.
  - destruct (env_input e) as [| |user_input]; [|done|].
    + eexists _, h'. split; [exact Hc|]. split; [|split].
      * split; [by intros [s' ?]|by intros (inp & ? & _)].
      * done.
      * intros s' [= <-]. by apply flag_in.
    + destruct Hc as [[Hs Hc]|[Hs Hc]]; eexists _, h';
        (split; [exact Hc|]); (split; [|split]).
      * split; [intros _; by exists user_input|intros _; by eexists].
      * by intros s' [= <-].
      * done.
      * split; [by intros [s' ?]|].
        intros (inp & [= <-] & Hinp). done.
      * done.
      * intros s' [= <-]. by apply flag_in.
  - eexists _, h'. split; [exact Hc|]. split; [|split].
    + split; [by intros [s' ?]|].
      intros (inp & _ & Hinp).
      apply (solves_solvable _ _ _ Hn (drawn_length _ _)) in Hinp.
      rewrite Hsol in Hinp. by destruct Hinp.
    + done.
    + by intros s' [= <-].
Qed.

Lemma round_flag_iff_solved_witness :
  exists c h',
    round {| env_n := 2; env_draw := fun k => if k =? 3 then 0%Z else 1%Z;
             env_input := Line (chars_of "#..."%string) |} [Banner] []
    = Some (c, h')
    /\ ((exists s', c = Break s') <->
        exists user_input,
          Line (chars_of "#..."%string) = Line user_input
          /\ solves 2 (drawn (fun k => if k =? 3 then 0%Z else 1%Z) 2)
               user_input)
    /\ (forall s', c = Break s' ->
          s' = [Banner]
                 ++ shown (drawn (fun k => if k =? 3 then 0%Z else 1%Z) 2) 2
                 ++ [FlagText])
    /\ (forall s', c = Next s' -> FlagText ∈ s' -> FlagText ∈ [Banner]).
Proof.
  apply (round_flag_iff_solved
           {| env_n := 2; env_draw := fun k => if k =? 3 then 0%Z else 1%Z;
              env_input := Line (chars_of "#..."%string) |} [Banner] []).
  - simpl. lia.
  - discriminate.
Defined.

(** X19: a turn in which the client sends nothing in time.  For a board
    that has a solution the handler sends the board, the prompt and the
    time-out notice, and goes on to the next board; the flag is not
    sent. *)
Theorem round_timeout (e : round_env) (sent : list message) (h : heap) :
  0 < env_n e -> env_input e = TimedOut ->
  (exists user_input,
     solves (env_n e) (drawn (env_draw e) (env_n e)) user_input) ->
  exists h',
    round e sent h
    = Some (Next (sent ++ shown (drawn (env_draw e) (env_n e)) (env_n e)
                    ++ [TimeoutNotice]), h').
Proof.
  intros Hn Hinp (inp & Hsol).
  destruct (round_run e sent h Hn) as (h' & _ & Hc).
  exists h'.
  apply (solves_solvable _ _ _ Hn (drawn_length _ _)) in Hsol as [s Hs].
  by rewrite Hs, Hinp in Hc.
Qed.

Lemma round_timeout_witness :
  exists h',
    round {| env_n := 2; env_draw := fun k => if k =? 3 then 0%Z else 1%Z;
             env_input := TimedOut |} [Banner] []
    = Some (Next ([Banner]
                    ++ shown (drawn (fun k => if k =? 3 then 0%Z else 1%Z) 2)
                         2
                    ++ [TimeoutNotice]), h').
Proof.
  apply (round_timeout
           {| env_n := 2; env_draw := fun k => if k =? 3 then 0%Z else 1%Z;
              env_input := TimedOut |} [Banner] []).
  - simpl. lia.
  - reflexivity.
  - exists (chars_of "#..."%string). split; reflexivity.
Defined.

(** X20: a board of bits that no line solves is never shown.  The turn
    sends nothing, reads nothing and goes on to the next board. *)
Theorem round_unsolvable_board (e : round_env) (sent : list message)
  (h : heap) :
  0 < env_n e -> (forall k, bit (env_draw e k)) ->
  (forall user_input,
     ~ solves (env_n e) (drawn (env_draw e) (env_n e)) user_input) ->
  exists h', round e sent h = Some (Next sent, h').
Proof.
  intros Hn Hbits Hnone.
  destruct (round_run e sent h Hn) as (h' & _ & Hc).
  exists h'.
  destruct (solution_of _ _) as [s|] eqn:Hs; [exfalso|done].
  apply (Hnone (map glyph s)).
  apply solution_solves; [done|apply drawn_length|by apply drawn_bits|done].
Qed.

Lemma round_unsolvable_board_witness :
  exists h',
    round {| env_n := 4; env_draw := fun k => if k =? 0 then 1%Z else 0%Z;
             env_input := Line (chars_of "#..............."%string) |}
      [Banner] []
    = Some (Next [Banner], h').
Proof.
  apply (round_unsolvable_board
           {| env_n := 4; env_draw := fun k => if k =? 0 then 1%Z else 0%Z;
              env_input := Line (chars_of "#..............."%string) |}
           [Banner] []).
  - simpl. lia.
  - intros k. simpl. destruct (k =? 0); [by right|by left].
  - intros user_input Hs.
    apply (solves_solvable 4) in Hs; [|lia|reflexivity].
    vm_compute in Hs. by destruct Hs.
Defined.

(** X21: every board that is shown can be won.  When the solver finds
    [s] for the board of bits of this turn and the client sends [s]
    written with [#] for 1 and [.] for 0, the handler sends the flag and
    leaves the loop. *)
Theorem round_solver_wins (e : round_env) (sent : list message) (h : heap)
  (s : list Z) :
  0 < env_n e -> (forall k, bit (env_draw e k)) ->
  solution_of (drawn (env_draw e) (env_n e)) (env_n e) = Some s ->
  env_input e = Line (map glyph s) ->
  exists h',
    round e sent h
    = Some (Break (sent ++ shown (drawn (env_draw e) (env_n e)) (env_n e)
                     ++ [FlagText]), h').
Proof.
  intros Hn Hbits Hs Hinp.
  destruct (round_run e sent h Hn) as (h' & _ & Hc).
  exists h'. rewrite Hs, Hinp in Hc.
  destruct Hc as [[_ Hc]|[Hno _]]; [done|exfalso].
  apply Hno, solution_solves;
    [done|apply drawn_length|by apply drawn_bits|done].
Qed.

Lemma round_solver_wins_witness :
  exists h',
    round {| env_n := 2; env_draw := fun k => if k =? 3 then 0%Z else 1%Z;
             env_input := Line (map glyph [1; 0; 0; 0]%Z) |} [Banner] []
    = Some (Break ([Banner]
                     ++ shown (drawn (fun k => if k =? 3 then 0%Z else 1%Z) 2)
                          2
                     ++ [FlagText]), h').
Proof.
  apply (round_solver_wins
           {| env_n := 2; env_draw := fun k => if k =? 3 then 0%Z else 1%Z;
              env_input := Line (map glyph [1; 0; 0; 0]%Z) |} [Banner] []
           [1; 0; 0; 0]%Z).
  - simpl. lia.
  - intros k. simpl. destruct (k =? 3); [by left|by right].
  - reflexivity.
  - reflexivity.
Defined.

(** X22: the flag is only sent for a solved board.  When the messages
    of a session contain the flag, the flag is the last message, and
    one of the turns received a line that solves the board drawn in
    that turn. *)
Theorem session_flag_sound (envs : list round_env) (h : heap)
  (msgs : list message) (h' : heap) :
  session envs h = Some (msgs, h') -> FlagText ∈ msgs ->
  last msgs = Some FlagText
  /\ exists e user_input,
       e ∈ envs /\ env_input e = Line user_input
       /\ solves (env_n e) (drawn (env_draw e) (env_n e)) user_input.
Proof.
  intros Hrun Hin. apply (session_from envs [Banner] h msgs h'); [done| |done].
  intros Hb. apply list_elem_of_singleton in Hb. discriminate.
Qed.

Lemma session_flag_sound_witness :
  last ([Banner]
          ++ shown (drawn (fun k => if k =? 3 then 0%Z else 1%Z) 2) 2
          ++ [TimeoutNotice]
          ++ shown (drawn (fun k => if k =? 3 then 0%Z else 1%Z) 2) 2
          ++ [FlagText])
  = Some FlagText
  /\ exists e user_input,
       e ∈ [ {| env_n := 2;
                env_draw := fun k => if k =? 3 then 0%Z else 1%Z;
                env_input := TimedOut |};
             {| env_n := 2;
                env_draw := fun k => if k =? 3 then 0%Z else 1%Z;
                env_input := Line (chars_of "#..."%string) |} ]
       /\ env_input e = Line user_input
       /\ solves (env_n e) (drawn (env_draw e) (env_n e)) user_input.
Proof.
  eapply (session_flag_sound
            [ {| env_n := 2;
                 env_draw := fun k => if k =? 3 then 0%Z else 1%Z;
                 env_input := TimedOut |};
              {| env_n := 2;
                 env_draw := fun k => if k =? 3 then 0%Z else 1%Z;
                 env_input := Line (chars_of "#..."%string) |} ] []).
  - vm_compute. reflexivity.
  - simpl. rewrite !elem_of_cons. tauto.
Defined.

(** X23: the content of a line cannot make the handler raise.  When
    every receive of a session times out or returns a line that decodes
    and every size is at least 1, the session returns, whatever the
    draws and whatever the lengths and the characters of the lines: the
    solver, the printer and the verifier index nothing out of range.
    What was sent starts with the welcome text. *)
Theorem session_never_raises (envs : list round_env) (h : heap) :
  Forall (fun e => 0 < env_n e /\ env_input e <> Undecodable) envs ->
  exists more h', session envs h = Some (Banner :: more, h').
Proof.
  intros Hn. destruct (session_runs envs Hn [Banner] h) as (more & h' & Hrun).
  by exists more, h'.
Qed.

Lemma session_never_raises_witness :
  exists more h',
    session [ {| env_n := 2;
                 env_draw := fun k => if k =? 0 then 1%Z else 0%Z;
                 env_input := Line (chars_of "#x"%string) |};
              {| env_n := 1; env_draw := fun _ => 7%Z;
                 env_input := TimedOut |} ] []
    = Some (Banner :: more, h').
Proof.
  apply (session_never_raises
           [ {| env_n := 2;
                env_draw := fun k => if k =? 0 then 1%Z else 0%Z;
                env_input := Line (chars_of "#x"%string) |};
             {| env_n := 1; env_draw := fun _ => 7%Z;
                env_input := TimedOut |} ] []).
  repeat constructor; (simpl; lia) || discriminate.
Defined.

(** ** More on [get_solution] and [create_vector_representations] *)

Section Solving.

Lemma solution_of_take (b : list Z) n :
  solution_of (take (n * n) b) n = solution_of b n.
Proof.
  assert (Haug : augment (toggle_matrix n) (take (n * n) b)
                 = augment (toggle_matrix n) b).
  { unfold augment. rewrite <- (toggle_matrix_length n) at 1.
    apply zip_with_take_r. }
  unfold solution_of. by rewrite Haug.
Qed.

End Solving.

(** X24: [get_solution] reads the first [n * n] cells of the board and
    no others.  On two boards that agree on these cells, in any two
    stores, it finds no solution for both or the same solution for
    both. *)
Theorem get_solution_reads_prefix (h g : heap) (lb lb' : loc)
  (b b' : list Z) (n : nat) :
  0 < n ->
  h !! lb = Some (IntList b) -> g !! lb' = Some (IntList b') ->
  n * n <= length b -> n * n <= length b' ->
  take (n * n) b = take (n * n) b' ->
  exists r h1 r' g1,
    get_solution lb n h = Some (r, h1)
    /\ get_solution lb' n g = Some (r', g1)
    /\ match r, r' with
       | None, None => True
       | Some l, Some l' =>
           exists s, h1 !! l = Some (IntList s) /\ g1 !! l' = Some (IntList s)
       | _, _ => False
       end.
Proof.
  intros Hn Hb Hb' Lb Lb' Heq.
  destruct (get_solution_run h lb b n Hb Hn Lb) as (r & h1 & Hrun & _ & Hr).
  destruct (get_solution_run g lb' b' n Hb' Hn Lb')
    as (r' & g1 & Hrun' & _ & Hr').
  exists r, h1, r', g1. split; [done|]. split; [done|].
  assert (Hsame : solution_of b n = solution_of b' n)
    by (by rewrite <- (solution_of_take b), <- (solution_of_take b'), Heq).
  destruct r as [l|], r' as [l'|].
  - destruct Hr as (s & Hs & Hl & _), Hr' as (s' & Hs' & Hl' & _).
    exists s. split; [done|]. rewrite Hl'. do 2 f_equal. congruence.
  - destruct Hr as (s & Hs & _). congruence.
  - destruct Hr' as (s & Hs & _). congruence.
  - done.
Qed.

Lemma get_solution_reads_prefix_witness :
  exists r h1 r' g1,
    get_solution 0 2 [IntList [1; 1; 1; 0; 1; 1]%Z] = Some (r, h1)
    /\ get_solution 1 2 [RefList []; IntList [1; 1; 1; 0]%Z] = Some (r', g1)
    /\ match r, r' with
       | None, None => True
       | Some l, Some l' =>
           exists s, h1 !! l = Some (IntList s) /\ g1 !! l' = Some (IntList s)
       | _, _ => False
       end.
Proof.
  apply (get_solution_reads_prefix
           [IntList [1; 1; 1; 0; 1; 1]%Z] [RefList []; IntList [1; 1; 1; 0]%Z]
           0 1 [1; 1; 1; 0; 1; 1]%Z [1; 1; 1; 0]%Z 2);
    (reflexivity || (simpl; lia)).
Defined.

(** X25: the solution [get_solution] returns for a board of [n * n] bits
    is a new list of [n * n] bits. *)
Theorem get_solution_shape (h : heap) (lb : loc) (board : list Z)
  (n : nat) :
  0 < n -> h !! lb = Some (IntList board) -> length board = n * n ->
  Forall bit board ->
  exists r h',
    get_solution lb n h = Some (r, h')
    /\ forall l, r = Some l ->
         exists s,
           h' !! l = Some (IntList s) /\ length s = n * n /\ Forall bit s
           /\ length h <= l.
Proof.
  intros Hn Hb Hlen Hbits.
  destruct (get_solution_run h lb board n Hb Hn ltac:(lia))
    as (r & h' & Hrun & _ & Hr).
  exists r, h'. split; [done|]. intros l ->.
  destruct Hr as (s & Hs & Hl & Hfresh).
  destruct (solution_of_sound n Hn board Hlen Hbits s Hs) as (_ & Ls & Hbs).
  by exists s.
Qed.

Lemma get_solution_shape_witness :
  exists r h',
    get_solution 0 2 [IntList [1; 1; 1; 0]%Z] = Some (r, h')
    /\ forall l, r = Some l ->
         exists s,
           h' !! l = Some (IntList s) /\ length s = 2 * 2 /\ Forall bit s
           /\ length [IntList [1; 1; 1; 0]%Z] <= l.
Proof.
  apply (get_solution_shape [IntList [1; 1; 1; 0]%Z] 0 [1; 1; 1; 0]%Z 2);
    [lia|reflexivity|reflexivity|].
  repeat constructor; (by left) || (by right).
Defined.

(** X26: for every size [n >= 0], [create_vector_representations]
    returns: a new collection of [n * n] new vectors, pairwise distinct
    objects; every object that existed is as it was.  Sizes are natural
    numbers here; what the source does for a negative [n] is not
    stated. *)
Theorem create_vector_representations_builds (n : nat) (h : heap) :
  exists p h' ls,
    create_vector_representations n h = Some (p, h')
    /\ is_matrix h' p ls (toggle_matrix n)
    /\ length ls = n * n
    /\ (forall l, l ∈ p :: ls -> length h <= l)
    /\ (forall q, q < length h -> h' !! q = h !! q).
Proof.
  exists (length h), (vectors_heap n h (n * n)), (seq (S (length h)) (n * n)).
  split; [apply create_vector_representations_run|].
  split; [apply vectors_matrix|].
  split; [apply length_seq|].
  split.
  - intros l Hin. apply elem_of_cons in Hin as [->|Hin]; [lia|].
    apply elem_of_seq in Hin. lia.
  - intros q Hq. by apply vectors_heap_old.
Qed.

(** X27: bytes that are not UTF-8 end the handler.  In a turn that shows
    a board (the drawn board has a solution), a receive whose decoding
    fails makes the turn raise: [UnicodeDecodeError] is not caught by
    the [except socket.timeout] of the loop. *)
Theorem round_undecodable_raises (e : round_env) (sent : list message)
  (h : heap) :
  0 < env_n e -> env_input e = Undecodable ->
  (exists user_input,
     solves (env_n e) (drawn (env_draw e) (env_n e)) user_input) ->
  round e sent h = None.
Proof.
  intros Hn Hinp (inp & Hsol).
  destruct (round_run e sent h Hn) as (h' & _ & Hc).
  apply (solves_solvable _ _ _ Hn (drawn_length _ _)) in Hsol as [s Hs].
  by rewrite Hs, Hinp in Hc.
Qed.

Lemma round_undecodable_raises_witness :
  round {| env_n := 2; env_draw := fun k => if k =? 3 then 0%Z else 1%Z;
           env_input := Undecodable |} [Banner] []
  = None.
Proof.
  apply (round_undecodable_raises
           {| env_n := 2; env_draw := fun k => if k =? 3 then 0%Z else 1%Z;
              env_input := Undecodable |} [Banner] []).
  - simpl. lia.
  - reflexivity.
  - exists (chars_of "#..."%string). split; reflexivity.
Defined.
